(** * The hash-chained ledger

    A shallow embedding of the classes [Block] and [SimpleBlockchain]
    (the module that [utils/SADatabaseService.ts] imports as
    ['../lib/blockchain']) and of the part of [SADatabaseService] that
    feeds them, together with the properties the specification states
    about them.

    Layout of the development:
    - [Sha256]: the digest computed by [CryptoJS.SHA256(..).toString()];
    - [Json]: the values [JSON.stringify] is applied to;
    - [Js]: outcomes of JavaScript calls (return, throw, no answer yet);
    - [Chain]: the two classes over a store of mutable objects;
    - [Strict]: validation with the exception the digest raises on a
      message that has no UTF-8 form;
    - [Run]: concrete runs, computed with the digest of [Sha256];
    - [Db], [Service], [Table]: the in-memory database, the service in
      front of the ledger and the lifetime column;
    - the theorems. *)

From Stdlib Require Import ZArith Ascii Lia.
From stdpp Require Import base numbers list strings pretty.

Local Open Scope Z_scope.

Set Warnings "-register-all".

(* ===================================================================== *)
(** ** SHA-256 *)
(* ===================================================================== *)

(** [CryptoJS] is a dependency of the repository, not part of it.  The
    digest is written here after FIPS 180-4: 32-bit words are integers
    in [0, 2^32), every addition is reduced again, and the message is
    the byte sequence of the string (CryptoJS encodes a string argument
    as UTF-8; a Rocq [string] is taken to be that byte sequence). *)
Module Sha256.

Definition word := Z.

(** Reduction modulo 2^32, as a mask (see [w32_mod]). *)
Definition w32 (x : Z) : word := Z.land x 4294967295.
Definition add32 (x y : word) : word := w32 (x + y).

Definition rotr (n : Z) (x : word) : word :=
  Z.lor (Z.shiftr x n) (w32 (Z.shiftl x (32 - n))).
Definition shr (n : Z) (x : word) : word := Z.shiftr x n.
Definition not32 (x : word) : word := Z.lxor x 4294967295.

Definition Ch (x y z : word) : word :=
  Z.lxor (Z.land x y) (Z.land (not32 x) z).
Definition Maj (x y z : word) : word :=
  Z.lxor (Z.lxor (Z.land x y) (Z.land x z)) (Z.land y z).
Definition Sigma0 (x : word) : word :=
  Z.lxor (Z.lxor (rotr 2 x) (rotr 13 x)) (rotr 22 x).
Definition Sigma1 (x : word) : word :=
  Z.lxor (Z.lxor (rotr 6 x) (rotr 11 x)) (rotr 25 x).
Definition sigma0 (x : word) : word :=
  Z.lxor (Z.lxor (rotr 7 x) (rotr 18 x)) (shr 3 x).
Definition sigma1 (x : word) : word :=
  Z.lxor (Z.lxor (rotr 17 x) (rotr 19 x)) (shr 10 x).

(** The first 32 bits of the fractional parts of the cube roots of the
    first 64 primes (FIPS 180-4, 4.2.2), in decimal. *)
Definition K : list word :=
  [ 1116352408; 1899447441; 3049323471; 3921009573;
    961987163; 1508970993; 2453635748; 2870763221;
    3624381080; 310598401; 607225278; 1426881987;
    1925078388; 2162078206; 2614888103; 3248222580;
    3835390401; 4022224774; 264347078; 604807628;
    770255983; 1249150122; 1555081692; 1996064986;
    2554220882; 2821834349; 2952996808; 3210313671;
    3336571891; 3584528711; 113926993; 338241895;
    666307205; 773529912; 1294757372; 1396182291;
    1695183700; 1986661051; 2177026350; 2456956037;
    2730485921; 2820302411; 3259730800; 3345764771;
    3516065817; 3600352804; 4094571909; 275423344;
    430227734; 506948616; 659060556; 883997877;
    958139571; 1322822218; 1537002063; 1747873779;
    1955562222; 2024104815; 2227730452; 2361852424;
    2428436474; 2756734187; 3204031479; 3329325298 ].

(** The eight working variables, also the running hash value. *)
Record state := State {
  sa : word; sb : word; sc : word; sd : word;
  se : word; sf : word; sg : word; sh : word }.

(** The same for the square roots of the first 8 primes (5.3.3). *)
Definition H0 : state :=
  State 1779033703 3144134277 1013904242 2773480762
        1359893119 2600822924 528734635 1541459225.

(** *** Padding and parsing *)

Definition bytes_of_string (s : string) : list Z :=
  map (fun c => Z.of_N (N_of_ascii c)) (String.list_ascii_of_string s).

(** Big-endian bytes of [x], [n] of them. *)
Fixpoint be_bytes (n : nat) (x : Z) : list Z :=
  match n with
  | O => []
  | S n' => be_bytes n' (x / 256) ++ [x mod 256]
  end.

(** Number of zero bytes between the 0x80 marker and the length. *)
Definition pad_zeros (len : nat) : nat :=
  Z.to_nat ((55 - Z.of_nat len) mod 64).

Definition pad (msg : list Z) : list Z :=
  msg ++ [128] ++ repeat 0 (pad_zeros (length msg))
      ++ be_bytes 8 (8 * Z.of_nat (length msg)).

Definition word_of_bytes (b3 b2 b1 b0 : Z) : word :=
  ((b3 * 256 + b2) * 256 + b1) * 256 + b0.

Fixpoint words_of_bytes (bs : list Z) : list word :=
  match bs with
  | b3 :: b2 :: b1 :: b0 :: rest =>
      word_of_bytes b3 b2 b1 b0 :: words_of_bytes rest
  | _ => []
  end.

(** *** Message schedule: the list is kept newest word first. *)

Definition schedule_next (ws : list word) : word :=
  add32 (add32 (sigma1 (nth 1 ws 0)) (nth 6 ws 0))
        (add32 (sigma0 (nth 14 ws 0)) (nth 15 ws 0)).

Fixpoint extend (n : nat) (ws : list word) : list word :=
  match n with
  | O => ws
  | S n' => extend n' (schedule_next ws :: ws)
  end.

Definition schedule (block : list word) : list word :=
  rev (extend 48 (rev block)).

(** *** Compression *)

Definition round (s : state) (kw : word * word) : state :=
  let '(k, w) := kw in
  let t1 := add32 (add32 (add32 (add32 (sh s) (Sigma1 (se s)))
                                (Ch (se s) (sf s) (sg s))) k) w in
  let t2 := add32 (Sigma0 (sa s)) (Maj (sa s) (sb s) (sc s)) in
  State (add32 t1 t2) (sa s) (sb s) (sc s)
        (add32 (sd s) t1) (se s) (sf s) (sg s).

Definition compress (h : state) (block : list word) : state :=
  let s := fold_left round (combine K (schedule block)) h in
  State (add32 (sa h) (sa s)) (add32 (sb h) (sb s))
        (add32 (sc h) (sc s)) (add32 (sd h) (sd s))
        (add32 (se h) (se s)) (add32 (sf h) (sf s))
        (add32 (sg h) (sg s)) (add32 (sh h) (sh s)).

(** Consumes sixteen words per step; [fuel] bounds the block count. *)
Fixpoint blocks (fuel : nat) (h : state) (ws : list word) : state :=
  match fuel with
  | O => h
  | S fuel' =>
      match ws with
      | [] => h
      | _ => blocks fuel' (compress h (firstn 16 ws)) (skipn 16 ws)
      end
  end.

(** *** Hex output, lowercase, eight digits a word *)

Definition hex_digit (d : Z) : ascii :=
  match d with
  | 0 => "0" | 1 => "1" | 2 => "2" | 3 => "3"
  | 4 => "4" | 5 => "5" | 6 => "6" | 7 => "7"
  | 8 => "8" | 9 => "9" | 10 => "a" | 11 => "b"
  | 12 => "c" | 13 => "d" | 14 => "e" | _ => "f"
  end%char.

Definition hex_word (w : word) (tail : string) : string :=
  String (hex_digit ((w / 268435456) mod 16))
 (String (hex_digit ((w / 16777216) mod 16))
 (String (hex_digit ((w / 1048576) mod 16))
 (String (hex_digit ((w / 65536) mod 16))
 (String (hex_digit ((w / 4096) mod 16))
 (String (hex_digit ((w / 256) mod 16))
 (String (hex_digit ((w / 16) mod 16))
 (String (hex_digit (w mod 16)) tail))))))).

Definition hex_state (s : state) : string :=
  hex_word (sa s) (hex_word (sb s) (hex_word (sc s) (hex_word (sd s)
 (hex_word (se s) (hex_word (sf s) (hex_word (sg s)
 (hex_word (sh s) ""))))))).

(** [CryptoJS.SHA256(s).toString()] *)
Definition sha256 (s : string) : string :=
  let ws := words_of_bytes (pad (bytes_of_string s)) in
  hex_state (blocks (length ws) H0 ws).

End Sha256.

(* ===================================================================== *)
(** ** JSON values and [JSON.stringify] *)
(* ===================================================================== *)

(** The field [Block.data] has type [any]; the repository stores a
    string (genesis) or a flat record of strings and integers.  Values
    are modelled as JSON trees.  An object is the list of its own
    properties in insertion order, which is the order [JSON.stringify]
    prints them in (keys are assumed distinct and not integer-like).
    Numbers are integers, printed in decimal as JavaScript prints every
    integer below 10^21. *)
Module Json.

Inductive value :=
| Null
| Bool (b : bool)
| Num (n : Z)
| Str (s : string)
| Arr (items : list value)
| Obj (props : list (string * value)).

Definition dquote : ascii := "034"%char.
Definition backslash : ascii := "092"%char.

Definition hex_nibble (n : N) : ascii :=
  match n with
  | 0 => "0" | 1 => "1" | 2 => "2" | 3 => "3"
  | 4 => "4" | 5 => "5" | 6 => "6" | 7 => "7"
  | 8 => "8" | 9 => "9" | 10 => "a" | 11 => "b"
  | 12 => "c" | 13 => "d" | 14 => "e" | _ => "f"
  end%char%N.

(** One character of a quoted string (ECMAScript QuoteJSONString). *)
Definition escape_char (c : ascii) (rest : string) : string :=
  let n := N_of_ascii c in
  if (n =? 34)%N then String backslash (String dquote rest)
  else if (n =? 92)%N then String backslash (String backslash rest)
  else if (n =? 8)%N then String backslash (String "b" rest)
  else if (n =? 9)%N then String backslash (String "t" rest)
  else if (n =? 10)%N then String backslash (String "n" rest)
  else if (n =? 12)%N then String backslash (String "f" rest)
  else if (n =? 13)%N then String backslash (String "r" rest)
  else if (n <? 32)%N then
    String backslash (String "u" (String "0" (String "0"
      (String (hex_nibble (n / 16)) (String (hex_nibble (n mod 16)) rest)))))
  else String c rest.

(** A string holds the bytes of the UTF-8 form of the JavaScript
    string.  A surrogate that is not half of a pair has no such form;
    it is written as the three bytes its code unit would get: 237,
    then a byte from 160 to 191, then one from 128 to 191. *)
Definition surrogate_lead (c1 c2 : ascii) : bool :=
  (N_of_ascii c1 =? 237)%N
  && (160 <=? N_of_ascii c2)%N && (N_of_ascii c2 <=? 191)%N.

(** [JSON.stringify] writes such a code unit as [\udXXX]. *)
Definition escape_surrogate (c2 c3 : ascii) (rest : string) : string :=
  let u := ((N_of_ascii c2 mod 64) * 64 + N_of_ascii c3 mod 64)%N in
  String backslash (String "u" (String "d"
    (String (hex_nibble (u / 256)) (String (hex_nibble ((u / 16) mod 16))
      (String (hex_nibble (u mod 16)) rest))))).

Fixpoint escape (s : string) : string :=
  match s with
  | EmptyString => EmptyString
  | String c s' =>
      match s' with
      | String c2 (String c3 rest) =>
          if surrogate_lead c c2 then escape_surrogate c2 c3 (escape rest)
          else escape_char c (escape s')
      | _ => escape_char c (escape s')
      end
  end.

Definition quote (s : string) : string :=
  String dquote (escape s +:+ String dquote EmptyString).

Fixpoint stringify (v : value) : string :=
  match v with
  | Null => "null"
  | Bool true => "true"
  | Bool false => "false"
  | Num n => pretty n
  | Str s => quote s
  | Arr items =>
      let fix elems (l : list value) : string :=
        match l with
        | [] => ""
        | x :: rest =>
            match rest with
            | [] => stringify x
            | _ => stringify x +:+ "," +:+ elems rest
            end
        end in
      "[" +:+ elems items +:+ "]"
  | Obj props =>
      let fix members (l : list (string * value)) : string :=
        match l with
        | [] => ""
        | (k, x) :: rest =>
            match rest with
            | [] => quote k +:+ ":" +:+ stringify x
            | _ => quote k +:+ ":" +:+ stringify x +:+ "," +:+ members rest
            end
        end in
      "{" +:+ members props +:+ "}"
  end.

(** [{...o, k: v}]: an existing key keeps its place. *)
Fixpoint set_prop (k : string) (v : value) (props : list (string * value))
  : list (string * value) :=
  match props with
  | [] => [(k, v)]
  | (k', v') :: rest =>
      if String.eqb k' k then (k', v) :: rest
      else (k', v') :: set_prop k v rest
  end.

End Json.

(* ===================================================================== *)
(** ** Outcomes of calls *)
(* ===================================================================== *)

(** A call returns a value, throws, or has not answered within the
    number of loop iterations it was given.  Both a return and a throw
    leave a store behind. *)
Module Js.

Inductive exn := TypeError | RangeError | URIError.

Inductive outcome (S A : Type) :=
| Ret (a : A) (s : S)
| Throw (e : exn) (s : S)
| Spin.
Arguments Ret {S A} a s.
Arguments Throw {S A} e s.
Arguments Spin {S A}.

Definition M (S A : Type) : Type := S -> outcome S A.

Definition ret {S A} (a : A) : M S A := fun s => Ret a s.
Definition throw {S A} (e : exn) : M S A := fun s => Throw e s.
Definition spin {S A} : M S A := fun _ => Spin.
Definition bind {S A B} (m : M S A) (k : A -> M S B) : M S B :=
  fun s =>
    match m s with
    | Ret a s' => k a s'
    | Throw e s' => Throw e s'
    | Spin => Spin
    end.

End Js.

Import Js.

Declare Scope js_scope.
Delimit Scope js_scope with js.
Notation "x <- c1 ;; c2" := (bind c1 (fun x => c2))
  (at level 100, c1 at next level, right associativity) : js_scope.
Notation "c1 ;; c2" := (bind c1 (fun _ => c2))
  (at level 100, right associativity) : js_scope.

(* ===================================================================== *)
(** ** The classes [Block] and [SimpleBlockchain] *)
(* ===================================================================== *)

(** Blocks and arrays are mutable objects that callers and the ledger
    share by reference.  The store holds every [Block] and every
    [Block[]] ever allocated; a reference is a position in the store.
    Numbers are integers ([index], [timestamp], [nonce], array lengths):
    the definitions are those of the program on integers of absolute
    value at most 2^53, which a JavaScript number holds exactly, prints
    in decimal and increments exactly.  Payloads are JSON values.
    [Date.now()] is an input: each caller passes the value it read. *)
Module Chain.

Abbreviation loc := nat.

Record Block := mkBlock {
  index : Z;
  timestamp : Z;
  data : Json.value;
  previousHash : string;
  nonce : Z;
  hash : string }.

Record store := Store {
  blocks : list Block;
  arrays : list (list loc) }.

(** An instance of [SimpleBlockchain]: both fields are private and
    assigned by the constructor only. *)
Record SimpleBlockchain := mkChain {
  chain : loc;
  difficulty : nat }.

(** [BlockchainSARecord] of [types/SA.ts]. *)
Record BlockchainSARecord := mkRecord {
  rec_destinationAddress : string;
  rec_spi : Z;
  rec_protocol : string;
  rec_algorithm : string;
  rec_keyHash : string;
  rec_lifetime : Z;
  rec_status : string;
  rec_timestamp : Z;
  rec_previousHash : string }.

(** The fields of [SecurityAssociation] that the ledger reads. *)
Record SecurityAssociation := mkSA {
  sa_destinationAddress : string;
  sa_spi : Z;
  sa_protocol : string;
  sa_algorithm : string;
  sa_key : string;
  sa_lifetime : Z;
  sa_status : string }.

Definition empty_store : store := Store [] [].

(** *** Field assignments *)

Definition set_previousHash (v : string) (b : Block) : Block :=
  mkBlock (index b) (timestamp b) (data b) v (nonce b) (hash b).
Definition set_nonce (v : Z) (b : Block) : Block :=
  mkBlock (index b) (timestamp b) (data b) (previousHash b) v (hash b).
Definition set_hash (v : string) (b : Block) : Block :=
  mkBlock (index b) (timestamp b) (data b) (previousHash b) (nonce b) v.
Definition set_index (v : Z) (b : Block) : Block :=
  mkBlock v (timestamp b) (data b) (previousHash b) (nonce b) (hash b).
Definition set_timestamp (v : Z) (b : Block) : Block :=
  mkBlock (index b) v (data b) (previousHash b) (nonce b) (hash b).
Definition set_data (v : Json.value) (b : Block) : Block :=
  mkBlock (index b) (timestamp b) v (previousHash b) (nonce b) (hash b).

(** *** Store primitives *)

Definition new_block (b : Block) : M store loc :=
  fun s => Ret (length (blocks s)) (Store (blocks s ++ [b]) (arrays s)).

(** Reading through a reference that holds no object cannot happen in
    a typed program; the model answers as a property read on
    [undefined] does. *)
Definition get_block (r : loc) : M store Block :=
  fun s =>
    match blocks s !! r with
    | Some b => Ret b s
    | None => Throw TypeError s
    end.

(** The object behind an array element or a call result; [None] is
    [undefined], on which every property access throws. *)
Definition deref (e : option loc) : M store Block :=
  match e with
  | Some r => get_block r
  | None => throw TypeError
  end.

Definition update_block (r : loc) (f : Block -> Block) : M store unit :=
  fun s =>
    match blocks s !! r with
    | Some b => Ret tt (Store (<[r := f b]> (blocks s)) (arrays s))
    | None => Throw TypeError s
    end.

Definition new_array (items : list loc) : M store loc :=
  fun s => Ret (length (arrays s)) (Store (blocks s) (arrays s ++ [items])).

Definition get_array (a : loc) : M store (list loc) :=
  fun s =>
    match arrays s !! a with
    | Some items => Ret items s
    | None => Throw TypeError s
    end.

(** [a.push(r)] *)
Definition push (a : loc) (r : loc) : M store unit :=
  fun s =>
    match arrays s !! a with
    | Some items => Ret tt (Store (blocks s) (<[a := items ++ [r]]> (arrays s)))
    | None => Throw TypeError s
    end.

(** [Array(n).join('0')]: [n] empty slots, each printed as the empty
    string, with ['0'] between them.  An array length above 2^32 - 1
    is a RangeError. *)
Definition Array_join_0 (n : nat) : M store string :=
  if 4294967295 <? Z.of_nat n then throw RangeError
  else ret (String.concat "0" (repeat "" n)).

Section WithDigest.

(** [s => CryptoJS.SHA256(s).toString()] *)
Variable SHA256 : string -> string.

(** **** class Block *)

(** The argument of the digest.  [+] associates to the left and the
    first sum already has a string operand, so every [+] is a
    concatenation and every number is printed.  [JSON.stringify]
    returns for every JSON value (it throws on a BigInt and on an
    object that contains itself, which are no values of the model). *)
Definition preimage (b : Block) : string :=
  (((pretty (index b) +:+ previousHash b) +:+ pretty (timestamp b))
     +:+ Json.stringify (data b)) +:+ pretty (nonce b).

(** The digest of a message that has a UTF-8 form; [Strict] below has
    the exception the library raises on the others. *)
Definition calculateHash (b : Block) : string := SHA256 (preimage b).

(** [new Block(index, timestamp, data, previousHash)] *)
Definition Block_new (i t : Z) (d : Json.value) (p : string) : M store loc :=
  let this := mkBlock i t d p 0 "" in
  new_block (set_hash (calculateHash this) this).

(** The [while] loop of [mineBlock]; [fuel] bounds the number of
    times its condition is tested.  [this.nonce++] adds one as long as
    the nonce is below 2^53 (it leaves 2^53 as it is). *)
Fixpoint mine_loop (fuel : nat) (this : loc) (difficulty : nat)
    (target : string) : M store unit :=
  match fuel with
  | O => spin
  | S fuel' =>
      (b <- get_block this ;;
       if negb (String.eqb (String.substring 0 difficulty (hash b)) target) then
         update_block this (fun b => set_nonce (nonce b + 1) b) ;;
         update_block this (fun b => set_hash (calculateHash b) b) ;;
         mine_loop fuel' this difficulty target
       else ret tt)%js
  end.

(** [console.log] after the loop is not modelled. *)
Definition mineBlock (fuel : nat) (this : loc) (difficulty : nat)
  : M store unit :=
  (target <- Array_join_0 (difficulty + 1) ;;
   mine_loop fuel this difficulty target)%js.

(** **** class SimpleBlockchain *)

Definition createGenesisBlock (now : Z) : M store loc :=
  Block_new 0 now (Json.Str "Genesis Block") "0".

(** [new SimpleBlockchain()]: the field initialiser allocates an
    empty array, the constructor body replaces it. *)
Definition SimpleBlockchain_new (now : Z) : M store SimpleBlockchain :=
  (_ <- new_array [] ;;
   g <- createGenesisBlock now ;;
   a <- new_array [g] ;;
   ret (mkChain a 2))%js.

(** [this.chain[this.chain.length - 1]]; [None] is [undefined]. *)
Definition getLatestBlock (this : SimpleBlockchain) : M store (option loc) :=
  (c <- get_array (chain this) ;;
   ret (match length c with
        | O => None
        | S n => c !! n
        end))%js.

Definition addBlock (fuel : nat) (this : SimpleBlockchain) (newBlock : loc)
  : M store string :=
  (latest <- getLatestBlock this ;;
   tip <- deref latest ;;
   update_block newBlock (set_previousHash (hash tip)) ;;
   mineBlock fuel newBlock (difficulty this) ;;
   push (chain this) newBlock ;;
   b <- get_block newBlock ;;
   ret (hash b))%js.

Definition record_props (r : BlockchainSARecord) : list (string * Json.value) :=
  [ ("destinationAddress", Json.Str (rec_destinationAddress r));
    ("spi", Json.Num (rec_spi r));
    ("protocol", Json.Str (rec_protocol r));
    ("algorithm", Json.Str (rec_algorithm r));
    ("keyHash", Json.Str (rec_keyHash r));
    ("lifetime", Json.Num (rec_lifetime r));
    ("status", Json.Str (rec_status r));
    ("timestamp", Json.Num (rec_timestamp r));
    ("previousHash", Json.Str (rec_previousHash r)) ].

(** [now1] is the clock read for [blockData], [now2] the one read
    for the constructor argument. *)
Definition createSABlock (this : SimpleBlockchain)
    (saRecord : BlockchainSARecord) (now1 now2 : Z) : M store loc :=
  (let blockData :=
     Json.Obj (Json.set_prop "timestamp" (Json.Num now1) (record_props saRecord)) in
   c <- get_array (chain this) ;;
   latest <- getLatestBlock this ;;
   tip <- deref latest ;;
   Block_new (Z.of_nat (length c)) now2 blockData (hash tip))%js.

(** The [for] loop of [isChainValid], entered at [i]; [fuel] bounds
    the number of times its condition is tested. *)
Fixpoint isChainValid_from (fuel : nat) (this : SimpleBlockchain) (i : nat)
  : M store bool :=
  match fuel with
  | O => spin
  | S fuel' =>
      (c <- get_array (chain this) ;;
       if (i <? length c)%nat then
         currentBlock <- deref (c !! i) ;;
         previousBlock <- deref (c !! (i - 1)%nat) ;;
         if negb (String.eqb (hash currentBlock) (calculateHash currentBlock))
         then ret false
         else if negb (String.eqb (previousHash currentBlock) (hash previousBlock))
         then ret false
         else isChainValid_from fuel' this (S i)
       else ret true)%js
  end.

Definition isChainValid (this : SimpleBlockchain) : M store bool :=
  (c <- get_array (chain this) ;;
   isChainValid_from (S (length c)) this 1)%js.

(** [items.find(block => block.hash === h)]; [None] is [undefined]. *)
Fixpoint find_hash (h : string) (items : list loc) : M store (option loc) :=
  match items with
  | [] => ret None
  | r :: rest =>
      (block <- get_block r ;;
       if String.eqb (hash block) h then ret (Some r)
       else find_hash h rest)%js
  end.

(** [.. || null]: a [Block] is truthy, so only [undefined] becomes
    [null]; [None] stands for [null] in the result. *)
Definition getBlockByHash (this : SimpleBlockchain) (h : string)
  : M store (option loc) :=
  (c <- get_array (chain this) ;;
   find_hash h c)%js.

(** [[...this.chain]] *)
Definition getAllBlocks (this : SimpleBlockchain) : M store loc :=
  (c <- get_array (chain this) ;;
   new_array c)%js.

(** **** class SADatabaseService, the part that feeds the ledger *)

Definition hashKey (key : string) : string := SHA256 key.

Definition createBlockchainRecord (blockchain : SimpleBlockchain)
    (sa : SecurityAssociation) (now : Z) : M store BlockchainSARecord :=
  (latest <- getLatestBlock blockchain ;;
   tip <- deref latest ;;
   ret (mkRecord (sa_destinationAddress sa) (sa_spi sa) (sa_protocol sa)
                 (sa_algorithm sa) (hashKey (sa_key sa)) (sa_lifetime sa)
                 (sa_status sa) now (hash tip)))%js.

(** The three statements with which [addSA], [deleteSA] and
    [updateSA] witness an event: build the record, build the block,
    append it.  [now0], [now1], [now2] are the three clock reads. *)
Definition recordEvent (fuel : nat) (blockchain : SimpleBlockchain)
    (sa : SecurityAssociation) (now0 now1 now2 : Z) : M store string :=
  (blockchainRecord <- createBlockchainRecord blockchain sa now0 ;;
   block <- createSABlock blockchain blockchainRecord now1 now2 ;;
   addBlock fuel blockchain block)%js.

End WithDigest.

End Chain.

Import Chain.

(* ===================================================================== *)
(** ** What the specification talks about *)
(* ===================================================================== *)

(** The string of [d] characters ['0']. *)
Fixpoint zeros (d : nat) : string :=
  match d with
  | O => ""
  | S d' => String "0" (zeros d')
  end.

(** The first [d] characters of [h] exist and are all ['0']. *)
Definition leading_zeros (d : nat) (h : string) : Prop :=
  forall i, (i < d)%nat -> String.get i h = Some "0"%char.

(** The ledger's sequence of references, and [block[i]]. *)
Definition chain_of (this : SimpleBlockchain) (s : store) : list loc :=
  default [] (arrays s !! chain this).

Definition block_at (this : SimpleBlockchain) (s : store) (i : nat)
  : option Block :=
  r ← chain_of this s !! i; blocks s !! r.

(** Every element of the ledger's array is a [Block] (what the type
    [Block[]] promises). *)
Definition well_typed (this : SimpleBlockchain) (s : store) : Prop :=
  is_Some (arrays s !! chain this)
  /\ Forall (fun r => is_Some (blocks s !! r)) (chain_of this s).

(** A direct assignment to one of the five hashed fields of a block. *)
Inductive field_write :=
| WriteIndex (v : Z)
| WriteTimestamp (v : Z)
| WriteData (v : Json.value)
| WritePreviousHash (v : string)
| WriteNonce (v : Z).

Definition write (w : field_write) (b : Block) : Block :=
  match w with
  | WriteIndex v => set_index v b
  | WriteTimestamp v => set_timestamp v b
  | WriteData v => set_data v b
  | WritePreviousHash v => set_previousHash v b
  | WriteNonce v => set_nonce v b
  end.

(** The assignment changes what the digest is computed from.  Two
    payloads count as different when they print differently. *)
Definition changes (w : field_write) (b : Block) : Prop :=
  match w with
  | WriteIndex v => v <> index b
  | WriteTimestamp v => v <> timestamp b
  | WriteData v => Json.stringify v <> Json.stringify (data b)
  | WritePreviousHash v => v <> previousHash b
  | WriteNonce v => v <> nonce b
  end.

(** [block.f = v] by any holder of a reference to the block. *)
Definition tamper (r : loc) (w : field_write) : M store unit :=
  update_block r (write w).

(** *** Runs of a ledger *)

(** What a program holding the ledger may do between two observations:
    build a block, ask the ledger for one, append any block it holds a
    reference to, take a snapshot.  Reads leave the store as it is and
    are left out. *)
Inductive call :=
| NewBlock (i t : Z) (d : Json.value) (p : string)
| CreateSABlock (saRecord : BlockchainSARecord) (now1 now2 : Z)
| AddBlock (fuel : nat) (newBlock : loc)
| GetAllBlocks.

Section Runs.

Variable SHA256 : string -> string.

Definition exec (this : SimpleBlockchain) (c : call) : M store unit :=
  match c with
  | NewBlock i t d p => (_ <- Block_new SHA256 i t d p ;; ret tt)%js
  | CreateSABlock r now1 now2 =>
      (_ <- createSABlock SHA256 this r now1 now2 ;; ret tt)%js
  | AddBlock fuel newBlock =>
      (_ <- addBlock SHA256 fuel this newBlock ;; ret tt)%js
  | GetAllBlocks => (_ <- getAllBlocks this ;; ret tt)%js
  end.

(** Stores reached from [new SimpleBlockchain()] by calls that
    returned, each allowed by [ok] in the store it was made in. *)
Inductive reach (ok : SimpleBlockchain -> store -> call -> bool)
    (this : SimpleBlockchain) : store -> Prop :=
| reach_new now s0 s :
    SimpleBlockchain_new SHA256 now s0 = Ret this s ->
    reach ok this s
| reach_call s c s' :
    reach ok this s ->
    ok this s c = true ->
    exec this c s = Ret tt s' ->
    reach ok this s'.

(** No restriction: any block reference may be appended, also one
    that is in the chain already. *)
Definition any_call (this : SimpleBlockchain) (s : store) (c : call) : bool :=
  true.

(** The block passed to [addBlock] is not in the chain yet, was built
    with the hash of the current tip as its [previousHash], as
    [createSABlock] builds it, and still carries the hash its
    constructor computed. *)
Definition built_on_tip (this : SimpleBlockchain) (s : store) (c : call)
  : bool :=
  match c with
  | AddBlock _ r =>
      negb (bool_decide (r ∈ chain_of this s))
      && match last (chain_of this s) ≫= (fun t => blocks s !! t),
               blocks s !! r with
         | Some tip, Some b =>
             String.eqb (previousHash b) (hash tip)
             && String.eqb (hash b) (calculateHash SHA256 b)
         | _, _ => false
         end
  | _ => true
  end.

(** Both checks of [isChainValid] pass at position [i]. *)
Definition intact_at (this : SimpleBlockchain) (s : store) (i : nat) : Prop :=
  exists prev cur,
    block_at this s (i - 1) = Some prev
    /\ block_at this s i = Some cur
    /\ hash cur = calculateHash SHA256 cur
    /\ previousHash cur = hash prev.

(** What a block looks like after some rounds of the mining loop:
    the four constructor fields are as before, the nonce has not
    gone down, and the hash is either untouched or the digest of the
    block. *)
Definition mined_from (b b' : Block) : Prop :=
  index b' = index b /\ timestamp b' = timestamp b /\ data b' = data b
  /\ previousHash b' = previousHash b /\ nonce b <= nonce b'
  /\ (b' = b \/ hash b' = calculateHash SHA256 b').

End Runs.

(** Linkage: every block names the stored hash of the one before it. *)
Definition linked (this : SimpleBlockchain) (s : store) : Prop :=
  forall i prev cur,
    block_at this s i = Some prev ->
    block_at this s (S i) = Some cur ->
    previousHash cur = hash prev.

(* ===================================================================== *)
(** ** The digest can throw *)
(* ===================================================================== *)

(** [CryptoJS.SHA256] turns a string argument into UTF-8 with
    [unescape(encodeURIComponent(s))], and [encodeURIComponent] throws
    a URIError on a string with a surrogate that is not half of a
    pair.  In the bytes of a string of the model such a code unit shows
    as 237 followed by a byte from 160 to 191. *)
Fixpoint lone_surrogate (s : string) : bool :=
  match s with
  | String c1 ((String c2 _) as rest) =>
      Json.surrogate_lead c1 c2 || lone_surrogate rest
  | _ => false
  end.

(** [calculateHash] and [isChainValid] with this exception.  Where
    no message has a lone surrogate they are the methods of [Chain].
    The constructor of [Block] and [mineBlock] call [calculateHash]
    too and raise the same exception; what is proved of them is
    proved of calls that returned. *)
Module Strict.

Section WithDigest.

Variable SHA256 : string -> string.

(** [CryptoJS.SHA256(message).toString()] *)
Definition digest (message : string) : M store string :=
  if lone_surrogate message then throw URIError else ret (SHA256 message).

Definition calculateHash (this : Block) : M store string :=
  digest (preimage this).

(** The [for] loop of [isChainValid], entered at [i].  The digest is
    computed before anything is compared. *)
Fixpoint isChainValid_from (fuel : nat) (this : SimpleBlockchain) (i : nat)
  : M store bool :=
  match fuel with
  | O => spin
  | S fuel' =>
      (c <- get_array (chain this) ;;
       if (i <? length c)%nat then
         currentBlock <- deref (c !! i) ;;
         previousBlock <- deref (c !! (i - 1)%nat) ;;
         recomputed <- calculateHash currentBlock ;;
         if negb (String.eqb (hash currentBlock) recomputed)
         then ret false
         else if negb (String.eqb (previousHash currentBlock) (hash previousBlock))
         then ret false
         else isChainValid_from fuel' this (S i)
       else ret true)%js
  end.

Definition isChainValid (this : SimpleBlockchain) : M store bool :=
  (c <- get_array (chain this) ;;
   isChainValid_from (S (length c)) this 1)%js.

End WithDigest.

End Strict.

(** The message of the block at position [i] can be hashed. *)
Definition hashable_at (this : SimpleBlockchain) (s : store) (i : nat) : Prop :=
  exists cur, block_at this s i = Some cur
              /\ lone_surrogate (preimage cur) = false.

(** *** Sequences of calls *)

Section Later.

Variable SHA256 : string -> string.

(** [s'] is reached from [s] by calls on the ledger that returned. *)
Inductive later (this : SimpleBlockchain) : store -> store -> Prop :=
| later_now s : later this s s
| later_call s c s1 s' :
    exec SHA256 this c s = Ret tt s1 ->
    later this s1 s' ->
    later this s s'.

End Later.

(* ===================================================================== *)
(** ** Concrete runs, with the real digest *)
(* ===================================================================== *)

Module Run.

Definition sha := Sha256.sha256.
Definition now0 : Z := 1700000000000.

Definition sa1 : SecurityAssociation :=
  mkSA "10.0.0.1" 256 "ESP" "AES-256" "secret" 3600 "active".
Definition sa2 : SecurityAssociation :=
  mkSA "10.0.0.1" 256 "ESP" "AES-256" "secret" 3600 "expired".

(** The block behind a reference that is known to hold one. *)
Definition block_of (s : store) (r : loc) : Block :=
  default (mkBlock 0 0 Json.Null "" 0 "") (blocks s !! r).

Definition final {A} (o : outcome store A) : store :=
  match o with Ret _ s => s | _ => empty_store end.

(** [new SimpleBlockchain()] in an empty store: the genesis block is
    object 0, the chain is array 1. *)
Definition ledger : SimpleBlockchain := mkChain 1 2.
Definition fresh : store :=
  final (SimpleBlockchain_new sha now0 empty_store).

(** Two events witnessed the way [SADatabaseService] does it. *)
Definition after_one : store :=
  final (recordEvent sha 3 ledger sa1
           1700000001042 1700000001042 1700000001042 fresh).
Definition after_two : store :=
  final (recordEvent sha 2 ledger sa2
           1700000002383 1700000002383 1700000002383 after_one).

(** A caller builds a block by hand, with an empty [previousHash],
    and appends it. *)
Definition hand_built (t : Z) (fuel : nat) : M store string :=
  (b <- Block_new sha 1 t (Json.Str "tx") "" ;;
   addBlock sha fuel ledger b)%js.

(** The digest of this hand-built block happens to start with two
    zeros before it is linked to anything. *)
Definition stale : store :=
  final (Block_new sha 1 1700000000143 (Json.Str "tx") "" fresh).
Definition lucky : store := final (hand_built 1700000000143 1 fresh).

(** The same block object appended twice. *)
Definition appended_twice : store :=
  final ((b <- Block_new sha 1 1700000000435 (Json.Str "tx") "" ;;
          _ <- addBlock sha 2 ledger b ;;
          addBlock sha 1 ledger b)%js fresh).

(** The genesis object handed back to [addBlock]. *)
Definition fresh69 : store :=
  final (SimpleBlockchain_new sha 1700000000069 empty_store).
Definition genesis_appended : store :=
  final ((g <- getLatestBlock ledger ;;
          match g with
          | Some g => addBlock sha 3 ledger g
          | None => throw TypeError
          end)%js fresh69).

(** A caller takes a snapshot and assigns to a field of its second
    element. *)
Definition forged : Json.value := Json.Str "forged".
Definition snapshot_written : store :=
  final ((a <- getAllBlocks ledger ;;
          items <- get_array a ;;
          match items !! 1%nat with
          | Some r => tamper r (WriteData forged)
          | None => throw TypeError
          end)%js after_two).

(** A caller assigns to the payload of the genesis block. *)
Definition genesis_forged : store :=
  final (tamper 0 (WriteData forged) after_two).

(** A caller assigns the one-character string ["\uD800"], a lone
    surrogate, to [previousHash] of the block at position 1. *)
Definition surrogate : string :=
  String "237" (String "160" (String "128" ""))%char.
Definition surrogate_linked : store :=
  final (tamper 1 (WritePreviousHash surrogate) after_two).

(** A caller takes a snapshot, then builds a block and appends it. *)
Definition snapshot : store := final (getAllBlocks ledger after_two).
Definition snapshot_then_block : store :=
  final (exec sha ledger (NewBlock 1 1700000000143 (Json.Str "tx") "")
           snapshot).
Definition snapshot_then_two : store :=
  final (exec sha ledger (AddBlock 1 3) snapshot_then_block).

(** A draft on its own, for [mineBlock]. *)
Definition draft : store :=
  final (Block_new sha 1 1700000000435 (Json.Str "tx")
           "daa977ddc32f01990662021bc43519fb2e63f83ed57221df930cebed9c0d3871"
           empty_store).

Definition sealed : store := final (mineBlock sha 2 0 2 draft).

End Run.

(* ===================================================================== *)
(** ** Runs made of witnessed events only *)
(* ===================================================================== *)

Section Recorded.

Variable SHA256 : string -> string.

(** The ledger after [n] events, each witnessed by the three
    statements of [recordEvent] and nothing else touching the store in
    between. *)
Inductive recorded (this : SimpleBlockchain) : nat -> store -> Prop :=
| recorded_new now s0 s :
    SimpleBlockchain_new SHA256 now s0 = Ret this s ->
    recorded this 0 s
| recorded_event n s fuel sa now0 now1 now2 h s' :
    recorded this n s ->
    recordEvent SHA256 fuel this sa now0 now1 now2 s = Ret h s' ->
    recorded this (S n) s'.

(** The payload [createSABlock] stores for a record built by
    [createBlockchainRecord] from [sa] on a tip with hash [tipHash]. *)
Definition event_payload (sa : SecurityAssociation) (now1 : Z)
    (tipHash : string) : Json.value :=
  Json.Obj
    [ ("destinationAddress", Json.Str (sa_destinationAddress sa));
      ("spi", Json.Num (sa_spi sa));
      ("protocol", Json.Str (sa_protocol sa));
      ("algorithm", Json.Str (sa_algorithm sa));
      ("keyHash", Json.Str (SHA256 (sa_key sa)));
      ("lifetime", Json.Num (sa_lifetime sa));
      ("status", Json.Str (sa_status sa));
      ("timestamp", Json.Num now1);
      ("previousHash", Json.Str tipHash) ].

End Recorded.

(* ===================================================================== *)
(** ** The class [SADatabase] *)
(* ===================================================================== *)

(** The in-memory database keeps its records in a [Map] from a string
    key to a [SecurityAssociation] object.  The objects are mutable and
    the references to them leave the class ([lookupSA], [getAllSAs]),
    so they live in a store of their own; the [Map] is the list of its
    entries in insertion order, which is the order [values()] yields
    them in. *)
Module Db.

(** [new Date()] and [new Date(s)]. *)
Inductive Date :=
| Date_now (ms : Z)
| Date_of (s : string).

(** [SecurityAssociation] of [types/SA.ts]; [None] is an absent
    optional property. *)
Record SecurityAssociation := mkSA {
  id : option string;
  destinationAddress : string;
  spi : Z;
  protocol : string;
  algorithm : string;
  key : string;
  lifetime : Z;
  createdAt : Date;
  updatedAt : option Date;
  status : string;
  blockchainTxHash : option string;
  blockchainVerified : option bool }.

Record SALookupKey := mkKey {
  key_destinationAddress : string;
  key_spi : Z }.

(** An instance of [SADatabase] with the objects it has stored. *)
Record state := State {
  objects : list SecurityAssociation;
  sas : list (string * nat) }.

(** [new SADatabase()] *)
Definition empty : state := State [] [].

Record Stats := mkStats {
  total : nat;
  active : nat;
  expired : nat;
  pending : nat }.

Definition set_createdAt (v : Date) (sa : SecurityAssociation)
  : SecurityAssociation :=
  mkSA (id sa) (destinationAddress sa) (spi sa) (protocol sa) (algorithm sa)
       (key sa) (lifetime sa) v (updatedAt sa) (status sa)
       (blockchainTxHash sa) (blockchainVerified sa).

Definition set_status (v : string) (sa : SecurityAssociation)
  : SecurityAssociation :=
  mkSA (id sa) (destinationAddress sa) (spi sa) (protocol sa) (algorithm sa)
       (key sa) (lifetime sa) (createdAt sa) (updatedAt sa) v
       (blockchainTxHash sa) (blockchainVerified sa).

(** *** [Map.prototype] *)

Fixpoint Map_get (k : string) (m : list (string * nat)) : option nat :=
  match m with
  | [] => None
  | (k', v) :: rest => if String.eqb k' k then Some v else Map_get k rest
  end.

Definition Map_has (k : string) (m : list (string * nat)) : bool :=
  match Map_get k m with Some _ => true | None => false end.

(** An existing key keeps its place, a new one goes to the end. *)
Fixpoint Map_set (k : string) (v : nat) (m : list (string * nat))
  : list (string * nat) :=
  match m with
  | [] => [(k, v)]
  | (k', v') :: rest =>
      if String.eqb k' k then (k', v) :: rest
      else (k', v') :: Map_set k v rest
  end.

(** The keys of a [Map] are distinct, so at most one entry goes. *)
Definition Map_delete (k : string) (m : list (string * nat))
  : list (string * nat) :=
  List.filter (fun e => negb (String.eqb (fst e) k)) m.

Definition Map_values (m : list (string * nat)) : list nat := map snd m.

(** *** [String.prototype.includes] *)

Fixpoint includes (s t : string) : bool :=
  String.prefix t s
  || match s with
     | EmptyString => false
     | String _ s' => includes s' t
     end.

(** *** The methods *)

(** [`${destinationAddress}:${spi}`] *)
Definition generateKey (destinationAddress : string) (spi : Z) : string :=
  destinationAddress +:+ ":" +:+ pretty spi.

Definition new_object (sa : SecurityAssociation) : M state nat :=
  fun db => Ret (length (objects db)) (State (objects db ++ [sa]) (sas db)).

Definition get_object (r : nat) : M state SecurityAssociation :=
  fun db =>
    match objects db !! r with
    | Some sa => Ret sa db
    | None => Throw TypeError db
    end.

Definition update_object (r : nat)
    (f : SecurityAssociation -> SecurityAssociation) : M state unit :=
  fun db =>
    match objects db !! r with
    | Some sa => Ret tt (State (<[r := f sa]> (objects db)) (sas db))
    | None => Throw TypeError db
    end.

Definition get_sas : M state (list (string * nat)) :=
  fun db => Ret (sas db) db.

Definition put_sas (m : list (string * nat)) : M state unit :=
  fun db => Ret tt (State (objects db) m).

(** [now] is the clock read by [new Date()]. *)
Definition addSA (sa : SecurityAssociation) (now : Z) : M state bool :=
  (let key := generateKey (destinationAddress sa) (spi sa) in
   m <- get_sas ;;
   if Map_has key m then ret false
   else
     r <- new_object (set_createdAt (Date_now now) sa) ;;
     m <- get_sas ;;
     put_sas (Map_set key r m) ;;
     ret true)%js.

(** [Map.delete] answers whether the key was there. *)
Definition deleteSA (lookupKey : SALookupKey) : M state bool :=
  (let key := generateKey (key_destinationAddress lookupKey) (key_spi lookupKey) in
   m <- get_sas ;;
   put_sas (Map_delete key m) ;;
   ret (Map_has key m))%js.

(** [this.sas.get(key) || null]; [None] is [null]. *)
Definition lookupSA (lookupKey : SALookupKey) : M state (option nat) :=
  (let key := generateKey (key_destinationAddress lookupKey) (key_spi lookupKey) in
   m <- get_sas ;;
   ret (Map_get key m))%js.

(** [Array.from(this.sas.values())] *)
Definition getAllSAs : M state (list nat) :=
  (m <- get_sas ;; ret (Map_values m))%js.

(** [items.filter(sa => p(sa))] *)
Fixpoint filter_objects (p : SecurityAssociation -> bool) (items : list nat)
  : M state (list nat) :=
  match items with
  | [] => ret []
  | r :: rest =>
      (sa <- get_object r ;;
       kept <- filter_objects p rest ;;
       ret (if p sa then r :: kept else kept))%js
  end.

Section Lowercase.

(** [String.prototype.toLowerCase] *)
Variable toLowerCase : string -> string.

Definition searchByDestination (pattern : string) : M state (list nat) :=
  (all <- getAllSAs ;;
   filter_objects
     (fun sa => includes (toLowerCase (destinationAddress sa))
                         (toLowerCase pattern)) all)%js.

End Lowercase.

Definition getSAsByStatus (st : string) : M state (list nat) :=
  (all <- getAllSAs ;;
   filter_objects (fun sa => String.eqb (status sa) st) all)%js.

Definition updateSAStatus (lookupKey : SALookupKey) (st : string)
  : M state bool :=
  (sa <- lookupSA lookupKey ;;
   match sa with
   | Some r =>
       update_object r (set_status st) ;;
       let key := generateKey (key_destinationAddress lookupKey)
                              (key_spi lookupKey) in
       m <- get_sas ;;
       put_sas (Map_set key r m) ;;
       ret true
   | None => ret false
   end)%js.

Definition getStats : M state Stats :=
  (all <- getAllSAs ;;
   a <- filter_objects (fun sa => String.eqb (status sa) "active") all ;;
   e <- filter_objects (fun sa => String.eqb (status sa) "expired") all ;;
   p <- filter_objects (fun sa => String.eqb (status sa) "pending") all ;;
   ret (mkStats (length all) (length a) (length e) (length p)))%js.

(** *** What holds of every database *)

(** Every entry refers to a stored object and sits under the key of
    that object's own address and SPI, and no key occurs twice. *)
Definition consistent (db : state) : Prop :=
  NoDup (map fst (sas db))
  /\ forall k r, (k, r) ∈ sas db ->
       exists sa, objects db !! r = Some sa
                  /\ k = generateKey (destinationAddress sa) (spi sa).

(** The calls of the class. *)
Inductive call :=
| AddSA (sa : SecurityAssociation) (now : Z)
| DeleteSA (lookupKey : SALookupKey)
| UpdateSAStatus (lookupKey : SALookupKey) (st : string).

Definition exec (c : call) : M state bool :=
  match c with
  | AddSA sa now => addSA sa now
  | DeleteSA k => deleteSA k
  | UpdateSAStatus k st => updateSAStatus k st
  end.

(** The databases that calls of the class make of a new one. *)
Inductive reach : state -> Prop :=
| reach_empty : reach empty
| reach_exec c db ok db' :
    reach db -> exec c db = Ret ok db' -> reach db'.

(** A concrete database for the examples. *)
Definition sa_a : SecurityAssociation :=
  mkSA None "10.0.0.1" 256 "ESP" "AES-256" "k1" 3600 (Date_of "") None
       "active" None None.
Definition sa_b : SecurityAssociation :=
  mkSA None "10.0.0.2" 300 "AH" "HMAC-SHA256" "k2" 60 (Date_of "") None
       "pending" None None.

Definition final {A} (o : outcome state A) : state :=
  match o with Ret _ s => s | _ => empty end.

Definition one : state := final (addSA sa_a 1000 empty).
Definition two : state := final (addSA sa_b 2000 one).

End Db.

(* ===================================================================== *)
(** ** The class [SADatabaseService] *)
(* ===================================================================== *)

(** The service talks to a remote database and to the ledger.  What
    the database answers is not in the code: every answer is an
    argument of the function that awaits it, in the order of the
    [await]s, as the clock reads are.  The requests themselves are not
    recorded.  The ledger is read and written in one place of each
    function, between two [await]s, by the three statements of
    [recordEvent]; the store a function starts in is the ledger at
    that moment. *)
Module Service.

(** [Row] of the table [security_associations] ([lib/supabase.ts]). *)
Record Row := mkRow {
  id : string;
  destination_address : string;
  spi : Z;
  protocol : string;
  algorithm : string;
  key_hash : string;
  lifetime : Z;
  status : string;
  blockchain_tx_hash : option string;
  blockchain_verified : bool;
  created_at : string;
  updated_at : string }.

(** The two properties of a [PostgrestError] that are read. *)
Record PostgrestError := mkError {
  code : string;
  message : string }.

(** What an [await] of a request gives: the object [{ data, error }],
    [None] being [null], or the exception of a rejected promise, an
    [Error] of which [reason] is the message. *)
Inductive reply (A : Type) : Type :=
| Resolved (d : option A) (error : option PostgrestError)
| Rejected (reason : string).
Arguments Resolved {A} d error.
Arguments Rejected {A} reason.

(** The string in the property [error] of a result: one of the code or
    of a reply, or the message of an exception the engine raised. *)
Inductive text :=
| Text (s : string)
| MessageOf (e : exn).

(** [{ success, sa?, error? }]; [value] is the property [sa]. *)
Record result (A : Type) : Type := mkResult {
  success : bool;
  value : option A;
  error : option text }.
Arguments mkResult {A} success value error.
Arguments success {A} r.
Arguments value {A} r.
Arguments error {A} r.

Definition failed {A} (t : text) : result A := mkResult false None (Some t).

(** [try { body } catch (error) { handler }] *)
Definition try_catch {A} (body : M store A) (handler : exn -> M store A)
  : M store A :=
  fun s =>
    match body s with
    | Throw e s' => handler e s'
    | o => o
    end.

(** [const { data, error } = await request], inside the [try] block
    of a function whose [catch] returns
    [{ success: false, error: error.message }]. *)
Definition await {A B} (r : reply A)
    (k : option A -> option PostgrestError -> M store (result B))
  : M store (result B) :=
  match r with
  | Resolved d e => k d e
  | Rejected reason => ret (failed (Text reason))
  end.

(** A property read on [data]. *)
Definition property {A} (d : option A) : M store A :=
  match d with
  | Some row => ret row
  | None => throw TypeError
  end.

(** The properties [createBlockchainRecord] reads of its argument. *)
Definition fields_read (sa : Db.SecurityAssociation) : SecurityAssociation :=
  mkSA (Db.destinationAddress sa) (Db.spi sa) (Db.protocol sa)
       (Db.algorithm sa) (Db.key sa) (Db.lifetime sa) (Db.status sa).

Section WithDigest.

Variable SHA256 : string -> string.

Definition lookupSA (lookupKey : Db.SALookupKey) (found : reply Row)
  : M store (result Db.SecurityAssociation) :=
  try_catch
    (await found (fun d error =>
       match error with
       | Some err =>
           if String.eqb (code err) "PGRST116" then
             ret (mkResult true None None)
           else ret (failed (Text (message err)))
       | None =>
           row <- property d ;;
           ret (mkResult true
                  (Some (Db.mkSA (Some (id row)) (destination_address row)
                           (spi row) (protocol row) (algorithm row)
                           "***ENCRYPTED***" (lifetime row)
                           (Db.Date_of (created_at row))
                           (Some (Db.Date_of (updated_at row)))
                           (status row) (blockchain_tx_hash row)
                           (Some (blockchain_verified row))))
                  None)
       end))%js
    (fun e => ret (failed (MessageOf e))).

(** [sa] has the seven properties that are read of the argument. *)
Definition addSA (fuel : nat) (blockchain : SimpleBlockchain)
    (sa : SecurityAssociation)
    (found inserted updated audited : reply Row) (now0 now1 now2 : Z)
  : M store (result Db.SecurityAssociation) :=
  try_catch
    (existing <- lookupSA (Db.mkKey (sa_destinationAddress sa) (sa_spi sa))
                          found ;;
     if success existing
        && match value existing with Some _ => true | None => false end
     then
       ret (failed
              (Text "SA with this destination address and SPI already exists"))
     else
       await inserted (fun d error =>
         match error with
         | Some err => ret (failed (Text (message err)))
         | None =>
             row <- property d ;;
             txHash <- recordEvent SHA256 fuel blockchain sa now0 now1 now2 ;;
             await updated (fun _ _ =>
             await audited (fun _ _ =>
               ret (mkResult true
                      (Some (Db.mkSA (Some (id row)) (destination_address row)
                               (spi row) (protocol row) (algorithm row)
                               (sa_key sa) (lifetime row)
                               (Db.Date_of (created_at row))
                               (Some (Db.Date_of (updated_at row)))
                               (status row) (Some txHash) (Some true)))
                      None)))
         end))%js
    (fun e => ret (failed (MessageOf e))).

Definition deleteSA (fuel : nat) (blockchain : SimpleBlockchain)
    (lookupKey : Db.SALookupKey)
    (found deleted audited : reply Row) (now0 now1 now2 : Z)
  : M store (result unit) :=
  try_catch
    (existing <- lookupSA lookupKey found ;;
     match success existing, value existing with
     | true, Some existing_sa =>
         await deleted (fun _ error =>
           match error with
           | Some err => ret (failed (Text (message err)))
           | None =>
               txHash <- recordEvent SHA256 fuel blockchain
                           (fields_read (Db.set_status "deleted" existing_sa))
                           now0 now1 now2 ;;
               await audited (fun _ _ => ret (mkResult true None None))
           end)
     | _, _ => ret (failed (Text "SA not found"))
     end)%js
    (fun e => ret (failed (MessageOf e))).

(** [data.id] is read for the second request, after the ledger has
    been written. *)
Definition updateSAStatus (fuel : nat) (blockchain : SimpleBlockchain)
    (lookupKey : Db.SALookupKey) (st : string)
    (found updated relinked audited : reply Row) (now0 now1 now2 : Z)
  : M store (result unit) :=
  try_catch
    (existing <- lookupSA lookupKey found ;;
     match success existing, value existing with
     | true, Some existing_sa =>
         await updated (fun d error =>
           match error with
           | Some err => ret (failed (Text (message err)))
           | None =>
               txHash <- recordEvent SHA256 fuel blockchain
                           (fields_read (Db.set_status st existing_sa))
                           now0 now1 now2 ;;
               row <- property d ;;
               await relinked (fun _ _ =>
               await audited (fun _ _ => ret (mkResult true None None)))
           end)
     | _, _ => ret (failed (Text "SA not found"))
     end)%js
    (fun e => ret (failed (MessageOf e))).

Definition verifyBlockchainIntegrity (blockchain : SimpleBlockchain)
  : M store bool :=
  isChainValid SHA256 blockchain.

Definition getBlockchainBlock (blockchain : SimpleBlockchain)
    (txHash : string) : M store (option loc) :=
  getBlockByHash blockchain txHash.

End WithDigest.

(** The replies of a database that holds nothing yet, and a row as it
    answers an insertion with. *)
Definition not_found : reply Row :=
  Resolved None
    (Some (mkError "PGRST116"
             "JSON object requested, multiple (or no) rows returned")).
Definition accepted : reply Row := Resolved None None.
Definition row1 : Row :=
  mkRow "8f0c" "10.0.0.1" 256 "ESP" "AES-256"
        "2bb80d537b1da3e38bd30361aa855686bde0eacd7162fef6a25fe97bf527a25b"
        3600 "active" None false
        "2023-11-14T22:13:21Z" "2023-11-14T22:13:21Z".

(** The same row after an update of its status. *)
Definition row2 : Row :=
  mkRow "8f0c" "10.0.0.1" 256 "ESP" "AES-256"
        "2bb80d537b1da3e38bd30361aa855686bde0eacd7162fef6a25fe97bf527a25b"
        3600 "expired" None false
        "2023-11-14T22:13:21Z" "2023-11-14T22:13:23Z".

(** The ledger after the service has recorded one creation, and then
    a deletion or an update. *)
Definition deleted : store :=
  Run.final (deleteSA Run.sha 1 Run.ledger (Db.mkKey "10.0.0.1" 256)
               (Resolved (Some row1) None) accepted accepted
               1700000003335 1700000003335 1700000003335 Run.after_one).
Definition expired : store :=
  Run.final (updateSAStatus Run.sha 2 Run.ledger (Db.mkKey "10.0.0.1" 256)
               "expired" (Resolved (Some row1) None)
               (Resolved (Some row2) None) accepted accepted
               1700000003154 1700000003154 1700000003154 Run.after_one).

End Service.

(* ===================================================================== *)
(** ** The table of associations *)
(* ===================================================================== *)

Module Table.

(** [formatLifetime] of the component [SATable], on whole seconds of
    absolute value at most 2^53: there the number prints in decimal
    and [Math.floor] of the rounded quotient is the quotient [/] of
    the integers. *)
Definition formatLifetime (seconds : Z) : string :=
  if seconds <? 60 then pretty seconds +:+ "s"
  else if seconds <? 3600 then pretty (seconds / 60) +:+ "m"
  else pretty (seconds / 3600) +:+ "h".

End Table.

(* ===================================================================== *)
(** ** Checks of the embedding against known values *)
(* ===================================================================== *)

Example sha256_abc :
  Sha256.sha256 "abc"
  = "ba7816bf8f01cfea414140de5dae2223b00361a396177a9cb410ff61f20015ad".
Proof. vm_compute. reflexivity. Qed.

Example sha256_empty :
  Sha256.sha256 ""
  = "e3b0c44298fc1c149afbf4c8996fb92427ae41e4649b934ca495991b7852b855".
Proof. vm_compute. reflexivity. Qed.

Example sha256_two_blocks :
  Sha256.sha256 "abcdbcdecdefdefgefghfghighijhijkijkljklmklmnlmnomnopnopq"
  = "248d6a61d20638b8e5c026930c3e6039a33ce45964ff2167f6ecedd419db06c1".
Proof. vm_compute. reflexivity. Qed.

Example stringify_genesis :
  Json.stringify (Json.Str "Genesis Block")
  = String Json.dquote ("Genesis Block" +:+ String Json.dquote "").
Proof. reflexivity. Qed.

Example stringify_object :
  Json.stringify
    (Json.Obj [("a", Json.Num 1); ("b", Json.Arr [Json.Null; Json.Bool true])])
  = "{" +:+ Json.quote "a" +:+ ":1," +:+ Json.quote "b" +:+ ":[null,true]}".
Proof. vm_compute. reflexivity. Qed.

(** The genesis block of the concrete runs, and the first event. *)
Example fresh_ledger :
  SimpleBlockchain_new Run.sha Run.now0 empty_store = Ret Run.ledger Run.fresh
  /\ (hash <$> block_at Run.ledger Run.fresh 0)
     = Some "daa977ddc32f01990662021bc43519fb2e63f83ed57221df930cebed9c0d3871".
Proof. split; vm_compute; reflexivity. Qed.

(** A lone surrogate in a payload is written as an escape, so that
    the output of [JSON.stringify] has none; in [previousHash] it is
    part of the message. *)
Example stringify_lone_surrogate :
  Json.stringify (Json.Str Run.surrogate)
  = String Json.dquote ("\ud800" +:+ String Json.dquote "")
  /\ lone_surrogate (Json.stringify (Json.Str Run.surrogate)) = false
  /\ lone_surrogate
       (preimage (mkBlock 1 0 (Json.Str Run.surrogate) "00" 0 "")) = false
  /\ lone_surrogate (preimage (mkBlock 1 0 Json.Null Run.surrogate 0 ""))
     = true.
Proof. split_and!; vm_compute; reflexivity. Qed.


(* ===================================================================== *)
(** ** Strings *)
(* ===================================================================== *)

Lemma join_zeros d : String.concat "0" (repeat "" (S d)) = zeros d.
Proof.
  induction d as [|d IH]; [reflexivity|].
  change (repeat "" (S (S d))) with ("" :: repeat "" (S d)).
  change (String.concat "0" ("" :: repeat "" (S d)))
    with (String "0" (String.concat "0" (repeat "" (S d)))).
  simpl zeros. by rewrite IH.
Qed.

Lemma substring_zeros d h :
  String.substring 0 d h = zeros d <-> leading_zeros d h.
Proof.
  revert h. induction d as [|d IH]; intros h.
  - split; [intros _ i Hi; lia|]. intros _. by destruct h.
  - destruct h as [|c h]; simpl.
    + split; [discriminate|]. intros H. by specialize (H 0%nat ltac:(lia)).
    + split.
      * intros [= -> Hd] [|i] Hi; [done|]. simpl. apply IH; [done|lia].
      * intros H. f_equal.
        -- specialize (H 0%nat ltac:(lia)). by injection H.
        -- apply IH. intros i Hi. apply (H (S i)). lia.
Qed.


Lemma app_string_cons c a b : String c a +:+ b = String c (a +:+ b).
Proof. reflexivity. Qed.

Lemma length_app_string a b :
  String.length (a +:+ b) = (String.length a + String.length b)%nat.
Proof.
  induction a as [|c a IH]; [done|].
  rewrite app_string_cons. simpl. by rewrite IH.
Qed.

Lemma app_string_assoc a b c : (a +:+ b) +:+ c = a +:+ (b +:+ c).
Proof.
  induction a as [|x a IH]; [done|].
  rewrite !app_string_cons. by rewrite IH.
Qed.

Lemma app_string_inv_head a x y : a +:+ x = a +:+ y -> x = y.
Proof.
  induction a as [|c a IH]; [done|].
  rewrite !app_string_cons. intros [= H]. auto.
Qed.

Lemma app_string_inv_tail a x y : x +:+ a = y +:+ a -> x = y.
Proof.
  revert y. induction x as [|c x IH]; intros [|c' y] H.
  - done.
  - apply (f_equal String.length) in H.
    rewrite !length_app_string in H. simpl in H. lia.
  - apply (f_equal String.length) in H.
    rewrite !length_app_string in H. simpl in H. lia.
  - rewrite !app_string_cons in H. injection H as -> H. f_equal. auto.
Qed.

(* ===================================================================== *)
(** ** The digest always prints 64 characters *)
(* ===================================================================== *)


Lemma w32_mod x : Sha256.w32 x = x mod 2 ^ 32.
Proof. unfold Sha256.w32. change 4294967295 with (Z.ones 32). apply Z.land_ones. lia. Qed.

(* ===================================================================== *)
(** ** Calls that return *)
(* ===================================================================== *)

Section Outcomes.

Context {S A B : Type}.

Lemma bind_Ret (m : M S A) (k : A -> M S B) s b s' :
  bind m k s = Ret b s' <->
  exists a s1, m s = Ret a s1 /\ k a s1 = Ret b s'.
Proof.
  unfold bind. destruct (m s) as [a s1|e s1|];
    (split; [intros Hk; eauto | intros (a' & s1' & Hm & Hk)]);
    by simplify_eq.
Qed.

Lemma bind_Ret_l (m : M S A) (k : A -> M S B) s a s1 :
  m s = Ret a s1 -> bind m k s = k a s1.
Proof. unfold bind. by intros ->. Qed.

End Outcomes.

(** *** Store primitives *)

Lemma get_block_Ret r s b s' :
  get_block r s = Ret b s' <-> blocks s !! r = Some b /\ s' = s.
Proof.
  unfold get_block. destruct (blocks s !! r); split.
  - by intros [= -> ->].
  - by intros [[= ->] ->].
  - done.
  - by intros [? _].
Qed.

Lemma deref_Ret e s b s' :
  deref e s = Ret b s' <->
  exists r, e = Some r /\ blocks s !! r = Some b /\ s' = s.
Proof.
  destruct e as [r|]; simpl.
  - rewrite get_block_Ret. split; [intros []; eauto|].
    by intros (r' & [= <-] & ? & ?).
  - split; [done|]. by intros (? & ? & _).
Qed.

Lemma update_block_Ret r f s u s' :
  update_block r f s = Ret u s' <->
  exists b, blocks s !! r = Some b
            /\ s' = Store (<[r := f b]> (blocks s)) (arrays s).
Proof.
  unfold update_block. destruct (blocks s !! r) as [b|]; split.
  - intros [= <-]. eauto.
  - intros (b' & [= <-] & ->). by destruct u.
  - done.
  - by intros (? & ? & _).
Qed.

Lemma get_array_Ret a s c s' :
  get_array a s = Ret c s' <-> arrays s !! a = Some c /\ s' = s.
Proof.
  unfold get_array. destruct (arrays s !! a); split.
  - by intros [= -> ->].
  - by intros [[= ->] ->].
  - done.
  - by intros [? _].
Qed.

Lemma push_Ret a r s u s' :
  push a r s = Ret u s' <->
  exists c, arrays s !! a = Some c
            /\ s' = Store (blocks s) (<[a := c ++ [r]]> (arrays s)).
Proof.
  unfold push. destruct (arrays s !! a) as [c|]; split.
  - intros [= <-]. eauto.
  - intros (c' & [= <-] & ->). by destruct u.
  - done.
  - by intros (? & ? & _).
Qed.

Lemma Array_join_0_Ret d s t s' :
  Array_join_0 (d + 1) s = Ret t s' -> t = zeros d /\ s' = s.
Proof.
  unfold Array_join_0. rewrite Nat.add_1_r.
  destruct (_ <? _); [done|]. intros [= <- <-].
  split; [apply join_zeros|done].
Qed.

Lemma getLatestBlock_Ret this s e s' :
  getLatestBlock this s = Ret e s' <->
  exists c, arrays s !! chain this = Some c /\ e = last c /\ s' = s.
Proof.
  unfold getLatestBlock. rewrite bind_Ret. split.
  - intros (c & s1 & [Hc ->]%get_array_Ret & [= <- <-]).
    exists c. split_and!; [done| |done].
    rewrite last_lookup. by destruct c.
  - intros (c & Hc & -> & ->). exists c, s. rewrite get_array_Ret.
    split; [done|]. unfold ret. f_equal.
    rewrite last_lookup. by destruct c.
Qed.

Section BlockFacts.

Variable SHA256 : string -> string.

(** The digest does not read the stored hash. *)
Lemma preimage_set_hash h b : preimage (set_hash h b) = preimage b.
Proof. reflexivity. Qed.

Lemma calculateHash_set_hash h b :
  calculateHash SHA256 (set_hash h b) = calculateHash SHA256 b.
Proof. reflexivity. Qed.

(** *** The mining loop *)

Lemma mine_loop_Ret fuel this d target s s' b :
  mine_loop SHA256 fuel this d target s = Ret tt s' ->
  blocks s !! this = Some b ->
  exists b', s' = Store (<[this := b']> (blocks s)) (arrays s)
             /\ mined_from SHA256 b b'
             /\ String.substring 0 d (hash b') = target.
Proof.
  revert s b. induction fuel as [|fuel IH]; intros s b H Hb; [done|].
  simpl in H.
  apply bind_Ret in H as (b0 & s0 & [Hb0 ->]%get_block_Ret & H).
  assert (b0 = b) as -> by congruence.
  destruct (String.eqb_spec (String.substring 0 d (hash b)) target)
    as [Heq|Hne]; simpl in H.
  - injection H as <-. exists b. split_and!; [|repeat split; auto; lia|done].
    destruct s as [bs ars]. simpl in *. by rewrite list_insert_id.
  - apply bind_Ret in H as (u1 & s1 & (b1 & Hb1 & ->)%update_block_Ret & H).
    apply bind_Ret in H as (u2 & s2 & (b2 & Hb2 & ->)%update_block_Ret & H).
    assert (b1 = b) as -> by congruence.
    simpl in Hb2, H.
    rewrite list_lookup_insert_eq in Hb2 by eauto using lookup_lt_Some.
    injection Hb2 as <-. rewrite list_insert_insert_eq in H.
    eapply IH in H as (b' & -> & Hm & Ht); simpl.
    2:{ apply list_lookup_insert_eq. eauto using lookup_lt_Some. }
    exists b'. rewrite list_insert_insert_eq. split_and!; [done| |done].
    destruct Hm as (? & ? & ? & ? & ? & Hh). simpl in *.
    repeat split; try congruence; [lia|].
    right. by destruct Hh as [->|].
Qed.

Lemma mineBlock_Ret fuel this d s s' b :
  mineBlock SHA256 fuel this d s = Ret tt s' ->
  blocks s !! this = Some b ->
  exists b', s' = Store (<[this := b']> (blocks s)) (arrays s)
             /\ mined_from SHA256 b b'
             /\ leading_zeros d (hash b').
Proof.
  unfold mineBlock. intros H Hb.
  apply bind_Ret in H as (t & s0 & [-> ->]%Array_join_0_Ret & H).
  eapply mine_loop_Ret in H as (b' & -> & Hm & Hz); [|done].
  exists b'. split_and!; [done..|]. by apply substring_zeros.
Qed.



End BlockFacts.

(** *** The ledger's view of the store *)

Lemma chain_of_Some this s c :
  arrays s !! chain this = Some c -> chain_of this s = c.
Proof. unfold chain_of. by intros ->. Qed.

Lemma block_at_Some this s i b :
  block_at this s i = Some b <->
  exists r, chain_of this s !! i = Some r /\ blocks s !! r = Some b.
Proof.
  unfold block_at. destruct (chain_of this s !! i) as [r|]; simpl.
  - split; [eauto|]. by intros (r' & [= <-] & ?).
  - split; [done|]. by intros (? & ? & _).
Qed.

Lemma well_typed_block_at this s i :
  well_typed this s -> (i < length (chain_of this s))%nat ->
  exists r b, chain_of this s !! i = Some r /\ blocks s !! r = Some b
              /\ block_at this s i = Some b.
Proof.
  intros [_ Hall] Hi.
  destruct (lookup_lt_is_Some_2 _ _ Hi) as [r Hr].
  rewrite Forall_lookup in Hall. destruct (Hall _ _ Hr) as [b Hb].
  exists r, b. split_and!; [done..|]. apply block_at_Some. eauto.
Qed.

Section LedgerFacts.

Variable SHA256 : string -> string.

(** *** Constructors *)

Lemma Block_new_Ret i t d p s :
  Block_new SHA256 i t d p s
  = Ret (length (blocks s))
        (Store (blocks s ++
                  [mkBlock i t d p 0
                     (calculateHash SHA256 (mkBlock i t d p 0 ""))])
               (arrays s)).
Proof. reflexivity. Qed.

Lemma SimpleBlockchain_new_Ret now s0 this s :
  SimpleBlockchain_new SHA256 now s0 = Ret this s <->
  this = mkChain (S (length (arrays s0))) 2
  /\ s = Store (blocks s0 ++
                  [mkBlock 0 now (Json.Str "Genesis Block") "0" 0
                     (calculateHash SHA256
                        (mkBlock 0 now (Json.Str "Genesis Block") "0" 0 ""))])
               ((arrays s0 ++ [[]]) ++ [[length (blocks s0)]]).
Proof.
  unfold SimpleBlockchain_new, createGenesisBlock, bind, new_array; simpl.
  rewrite length_app, Nat.add_1_r. unfold ret. split.
  - by intros [= <- <-].
  - by intros [-> ->].
Qed.

Lemma createSABlock_Ret this r now1 now2 s x s' :
  createSABlock SHA256 this r now1 now2 s = Ret x s' ->
  exists c t tip,
    arrays s !! chain this = Some c /\ last c = Some t
    /\ blocks s !! t = Some tip
    /\ Block_new SHA256 (Z.of_nat (length c)) now2
         (Json.Obj (Json.set_prop "timestamp" (Json.Num now1) (record_props r)))
         (hash tip) s = Ret x s'.
Proof.
  unfold createSABlock. intros H.
  apply bind_Ret in H as (c & s1 & [Hc ->]%get_array_Ret & H).
  apply bind_Ret in H as (e & s1 & (c' & Hc' & -> & ->)%getLatestBlock_Ret & H).
  apply bind_Ret in H as (tip & s1 & (t & Ht & Htip & ->)%deref_Ret & H).
  assert (c' = c) as -> by congruence. eauto 10.
Qed.

Lemma getAllBlocks_Ret this s a s' :
  getAllBlocks this s = Ret a s' <->
  exists c, arrays s !! chain this = Some c
            /\ a = length (arrays s)
            /\ s' = Store (blocks s) (arrays s ++ [c]).
Proof.
  unfold getAllBlocks. rewrite bind_Ret. split.
  - intros (c & s1 & [Hc ->]%get_array_Ret & [= <- <-]). eauto.
  - intros (c & Hc & -> & ->). exists c, s. by rewrite get_array_Ret.
Qed.

(** *** Appending *)

Lemma addBlock_Ret fuel this r s h s' :
  addBlock SHA256 fuel this r s = Ret h s' <->
  exists c t tip b b',
    arrays s !! chain this = Some c /\ last c = Some t
    /\ blocks s !! t = Some tip /\ blocks s !! r = Some b
    /\ mineBlock SHA256 fuel r (difficulty this)
         (Store (<[r := set_previousHash (hash tip) b]> (blocks s)) (arrays s))
       = Ret tt (Store (<[r := b']> (blocks s)) (arrays s))
    /\ s' = Store (<[r := b']> (blocks s))
                  (<[chain this := c ++ [r]]> (arrays s))
    /\ h = hash b'.
Proof.
  unfold addBlock. split.
  - intros H.
    apply bind_Ret in H as (e & s1 & (c & Hc & -> & ->)%getLatestBlock_Ret & H).
    apply bind_Ret in H as (tip & s1 & (t & Ht & Htip & ->)%deref_Ret & H).
    apply bind_Ret in H as (u & s1 & (b & Hb & ->)%update_block_Ret & H).
    apply bind_Ret in H as ([] & s2 & Hmine & H).
    pose proof Hmine as Hmine'.
    eapply (mineBlock_Ret SHA256) in Hmine' as (b' & -> & _ & _); simpl.
    2:{ apply list_lookup_insert_eq. eauto using lookup_lt_Some. }
    simpl in Hmine, H. rewrite list_insert_insert_eq in Hmine, H.
    apply bind_Ret in H as (u' & s3 & (c' & Hc' & ->)%push_Ret & H).
    apply bind_Ret in H as (b'' & s4 & [Hb'' ->]%get_block_Ret & [= <- <-]).
    simpl in *. assert (c' = c) as -> by congruence.
    rewrite list_lookup_insert_eq in Hb'' by eauto using lookup_lt_Some.
    injection Hb'' as <-. exists c, t, tip, b, b'. by split_and!.
  - intros (c & t & tip & b & b' & Hc & Ht & Htip & Hb & Hmine & -> & ->).
    unfold bind.
    rewrite (proj2 (getLatestBlock_Ret this s (last c) s)) by eauto.
    rewrite Ht. simpl. unfold get_block at 1. rewrite Htip.
    unfold update_block at 1. rewrite Hb. rewrite Hmine.
    unfold push at 1. simpl. rewrite Hc.
    unfold get_block. simpl.
    by rewrite list_lookup_insert_eq by eauto using lookup_lt_Some.
Qed.

(** What [addBlock] leaves behind, for the invariants below. *)
Lemma addBlock_effect fuel this r s h s' :
  addBlock SHA256 fuel this r s = Ret h s' ->
  exists c t tip b b',
    arrays s !! chain this = Some c /\ last c = Some t
    /\ blocks s !! t = Some tip /\ blocks s !! r = Some b
    /\ mined_from SHA256 (set_previousHash (hash tip) b) b'
    /\ leading_zeros (difficulty this) (hash b')
    /\ s' = Store (<[r := b']> (blocks s))
                  (<[chain this := c ++ [r]]> (arrays s))
    /\ h = hash b'.
Proof.
  intros (c & t & tip & b & b' & Hc & Ht & Htip & Hb & Hmine & -> & ->)%addBlock_Ret.
  eapply mineBlock_Ret in Hmine as (b2 & Heq & Hm & Hz); simpl.
  2:{ apply list_lookup_insert_eq. eauto using lookup_lt_Some. }
  injection Heq as Heq. rewrite list_insert_insert_eq in Heq.
  assert (b2 = b') as ->.
  { apply (f_equal (fun l => l !! r)) in Heq.
    rewrite !list_lookup_insert_eq in Heq by eauto using lookup_lt_Some.
    congruence. }
  exists c, t, tip, b, b'. by split_and!.
Qed.

End LedgerFacts.

Section ValidationFacts.

Variable SHA256 : string -> string.

(** *** The validation walk *)

Lemma intact_at_iff this s i prev cur :
  block_at this s (i - 1) = Some prev ->
  block_at this s i = Some cur ->
  intact_at SHA256 this s i <->
  hash cur = calculateHash SHA256 cur /\ previousHash cur = hash prev.
Proof.
  intros Hp Hc. unfold intact_at. split.
  - intros (p & c & Hp' & Hc' & ? & ?). by simplify_eq.
  - intros [? ?]. eauto 10.
Qed.

(** Entered at [i] with enough rounds left, the loop answers, leaves
    the store alone, says [true] exactly when every position from [i]
    on passes both checks, and says [false] at the first that does
    not. *)
Lemma isChainValid_from_spec fuel this i s :
  well_typed this s ->
  (1 <= i)%nat ->
  (length (chain_of this s) - i < fuel)%nat ->
  exists v,
    isChainValid_from SHA256 fuel this i s = Ret v s
    /\ (v = true <->
        forall j, (i <= j < length (chain_of this s))%nat ->
                  intact_at SHA256 this s j)
    /\ (v = false ->
        exists j, (i <= j < length (chain_of this s))%nat
                  /\ ~ intact_at SHA256 this s j
                  /\ forall k, (i <= k < j)%nat -> intact_at SHA256 this s k).
Proof.
  intros Hwt. revert i. induction fuel as [|fuel IH]; intros i Hi Hfuel; [lia|].
  destruct Hwt as [[c Hc] Hall]. pose proof (chain_of_Some _ _ _ Hc) as Hco.
  rewrite Hco in *. simpl. unfold bind at 1, get_array at 1. rewrite Hc.
  destruct (Nat.ltb_spec i (length c)) as [Hlt|Hge].
  - destruct (well_typed_block_at this s i) as (r & cur & Hr & Hcur & Hbi);
      [split; [eauto|by rewrite Hco]|by rewrite Hco|].
    destruct (well_typed_block_at this s (i - 1)) as (r0 & prev & Hr0 & Hprev & Hbp);
      [split; [eauto|by rewrite Hco]|rewrite Hco; lia|].
    rewrite Hco in Hr, Hr0.
    rewrite Hr, Hr0. unfold bind, deref, get_block. rewrite Hcur, Hprev.
    pose proof (intact_at_iff this s i prev cur Hbp Hbi) as Hint.
    destruct (String.eqb_spec (hash cur) (calculateHash SHA256 cur)) as [H1|H1];
      simpl.
    + destruct (String.eqb_spec (previousHash cur) (hash prev)) as [H2|H2];
        simpl.
      * destruct (IH (S i)) as (v & Hv & Htrue & Hfalse); [lia..|].
        exists v. split; [exact Hv|]. split.
        -- rewrite Htrue. split.
           ++ intros Hall' j Hj. destruct (decide (j = i)) as [->|];
                [by apply Hint|apply Hall'; lia].
           ++ intros Hall' j Hj. apply Hall'. lia.
        -- intros Hv'. destruct (Hfalse Hv') as (j & Hj & Hnot & Hbefore).
           exists j. split; [lia|]. split; [done|].
           intros k Hk. destruct (decide (k = i)) as [->|];
             [by apply Hint|apply Hbefore; lia].
      * exists false. split; [done|]. split.
        -- split; [done|]. intros Hall'. destruct H2. by apply Hint, Hall'.
        -- intros _. exists i. split; [lia|]. split; [|intros; lia].
           rewrite Hint. tauto.
    + exists false. split; [done|]. split.
      * split; [done|]. intros Hall'. destruct H1. by apply Hint, Hall'.
      * intros _. exists i. split; [lia|]. split; [|intros; lia].
        rewrite Hint. tauto.
  - exists true. split; [done|]. split; [|done].
    split; [|done]. intros _ j Hj. lia.
Qed.

Lemma isChainValid_total this s :
  well_typed this s ->
  exists v,
    isChainValid SHA256 this s = Ret v s
    /\ (v = true <->
        forall i, (1 <= i < length (chain_of this s))%nat ->
                  intact_at SHA256 this s i)
    /\ (v = false ->
        exists i, (1 <= i < length (chain_of this s))%nat
                  /\ ~ intact_at SHA256 this s i
                  /\ forall k, (1 <= k < i)%nat -> intact_at SHA256 this s k).
Proof.
  intros Hwt. pose proof Hwt as [[c Hc] _].
  unfold isChainValid, bind, get_array. rewrite Hc.
  rewrite <- (chain_of_Some _ _ _ Hc).
  apply isChainValid_from_spec; [done|lia|lia].
Qed.

(** *** Lookup by hash *)

Lemma find_hash_spec h c s :
  Forall (fun r => is_Some (blocks s !! r)) c ->
  exists o,
    find_hash h c s = Ret o s
    /\ match o with
       | Some r =>
           exists i b, c !! i = Some r /\ blocks s !! r = Some b
             /\ hash b = h
             /\ forall j r' b', (j < i)%nat -> c !! j = Some r' ->
                  blocks s !! r' = Some b' -> hash b' <> h
       | None =>
           forall j r' b', c !! j = Some r' ->
             blocks s !! r' = Some b' -> hash b' <> h
       end.
Proof.
  induction 1 as [|r c [b Hb] Hall IH]; simpl.
  - exists None. split; [done|]. intros j r' b' Hj. by destruct j.
  - unfold bind, get_block. rewrite Hb.
    destruct (String.eqb_spec (hash b) h) as [Heq|Hne].
    + exists (Some r). split; [done|]. exists 0%nat, b.
      split_and!; [done..|]. intros; lia.
    + destruct IH as (o & Ho & Hspec). exists o. split; [done|].
      destruct o as [r1|].
      * destruct Hspec as (i & b1 & Hi & Hb1 & Hh & Hfirst).
        exists (S i), b1. split_and!; [done..|].
        intros [|j] r' b' Hj Hr' Hb'; simpl in *.
        -- by simplify_eq.
        -- eapply Hfirst; [|done..]. lia.
      * intros [|j] r' b' Hr' Hb'; simpl in *; [by simplify_eq|eauto].
Qed.

(** *** The walk when the digest can throw *)

Lemma lone_surrogate_app_l a b :
  lone_surrogate a = true -> lone_surrogate (a +:+ b) = true.
Proof.
  induction a as [|c1 a IH]; [done|].
  destruct a as [|c2 r]; [done|].
  change (lone_surrogate (String c1 (String c2 r)))
    with (Json.surrogate_lead c1 c2 || lone_surrogate (String c2 r)).
  change (lone_surrogate (String c1 (String c2 r) +:+ b))
    with (Json.surrogate_lead c1 c2 || lone_surrogate (String c2 r +:+ b)).
  intros [H|H]%orb_true_iff; apply orb_true_iff; [by left|right].
  by apply IH.
Qed.

Lemma lone_surrogate_app_r a b :
  lone_surrogate b = true -> lone_surrogate (a +:+ b) = true.
Proof.
  intros Hb. induction a as [|c1 a IH]; [done|].
  rewrite app_string_cons. destruct (a +:+ b) as [|c2 r] eqn:E; [done|].
  cbn [lone_surrogate]. apply orb_true_iff. by right.
Qed.

(** A lone surrogate in [previousHash] is one in the message. *)
Lemma lone_surrogate_preimage b :
  lone_surrogate (previousHash b) = true ->
  lone_surrogate (preimage b) = true.
Proof.
  intros H. unfold preimage.
  by do 3 apply lone_surrogate_app_l; apply lone_surrogate_app_r.
Qed.

Lemma hashable_at_iff this s i cur :
  block_at this s i = Some cur ->
  hashable_at this s i <-> lone_surrogate (preimage cur) = false.
Proof.
  intros Hc. unfold hashable_at. split.
  - intros (c & Hc' & H). by simplify_eq.
  - intros H. by exists cur.
Qed.

(** Entered at [i] with enough rounds left, the walk stops at the
    first position where the message cannot be hashed or a check
    fails: it throws in the first case, answers [false] in the second,
    and answers [true] when there is no such position. *)
Lemma strict_walk fuel this i s :
  well_typed this s ->
  (1 <= i)%nat ->
  (length (chain_of this s) - i < fuel)%nat ->
  exists o,
    Strict.isChainValid_from SHA256 fuel this i s = o
    /\ ((o = Ret true s
         /\ forall j, (i <= j < length (chain_of this s))%nat ->
                      hashable_at this s j /\ intact_at SHA256 this s j)
        \/ (exists k, (i <= k < length (chain_of this s))%nat
                      /\ (forall j, (i <= j < k)%nat ->
                                    hashable_at this s j
                                    /\ intact_at SHA256 this s j)
                      /\ hashable_at this s k /\ ~ intact_at SHA256 this s k
                      /\ o = Ret false s)
        \/ (exists k, (i <= k < length (chain_of this s))%nat
                      /\ (forall j, (i <= j < k)%nat ->
                                    hashable_at this s j
                                    /\ intact_at SHA256 this s j)
                      /\ ~ hashable_at this s k
                      /\ o = Throw URIError s)).
Proof.
  intros Hwt. revert i. induction fuel as [|fuel IH]; intros i Hi Hfuel; [lia|].
  destruct Hwt as [[c Hc] Hall]. pose proof (chain_of_Some _ _ _ Hc) as Hco.
  rewrite Hco in *. simpl. unfold bind at 1, get_array at 1. rewrite Hc.
  destruct (Nat.ltb_spec i (length c)) as [Hlt|Hge].
  - destruct (well_typed_block_at this s i) as (r & cur & Hr & Hcur & Hbi);
      [split; [eauto|by rewrite Hco]|by rewrite Hco|].
    destruct (well_typed_block_at this s (i - 1)) as (r0 & prev & Hr0 & Hprev & Hbp);
      [split; [eauto|by rewrite Hco]|rewrite Hco; lia|].
    rewrite Hco in Hr, Hr0.
    rewrite Hr, Hr0. unfold bind, deref, get_block. rewrite Hcur, Hprev.
    pose proof (intact_at_iff this s i prev cur Hbp Hbi) as Hint.
    pose proof (hashable_at_iff this s i cur Hbi) as Hhash.
    unfold Strict.calculateHash, Strict.digest.
    destruct (lone_surrogate (preimage cur)) eqn:Hls.
    { eexists. split; [reflexivity|].
      right. right. exists i. split; [lia|]. split; [intros; lia|].
      split; [rewrite Hhash; congruence|done]. }
    unfold ret.
    change (SHA256 (preimage cur)) with (calculateHash SHA256 cur).
    destruct (String.eqb_spec (hash cur) (calculateHash SHA256 cur)) as [H1|H1];
      simpl.
    + destruct (String.eqb_spec (previousHash cur) (hash prev)) as [H2|H2];
        simpl.
      * destruct (IH (S i)) as (o & Ho & Hcases); [lia..|].
        exists o. split; [exact Ho|].
        destruct Hcases as [[Hv Hall']|[(k & Hk & Hbefore & Hh & Hn & Hv)
                                       |(k & Hk & Hbefore & Hn & Hv)]].
        -- left. split; [exact Hv|]. intros j Hj.
           destruct (decide (j = i)) as [->|];
             [split; [by apply Hhash|by apply Hint]|apply Hall'; lia].
        -- right. left. exists k. split; [lia|]. split; [|done].
           intros j Hj. destruct (decide (j = i)) as [->|];
             [split; [by apply Hhash|by apply Hint]|apply Hbefore; lia].
        -- right. right. exists k. split; [lia|]. split; [|done].
           intros j Hj. destruct (decide (j = i)) as [->|];
             [split; [by apply Hhash|by apply Hint]|apply Hbefore; lia].
      * eexists. split; [reflexivity|].
        right. left. exists i. split; [lia|]. split; [intros; lia|].
        split; [by apply Hhash|]. split; [|done]. rewrite Hint. tauto.
    + eexists. split; [reflexivity|].
      right. left. exists i. split; [lia|]. split; [intros; lia|].
      split; [by apply Hhash|]. split; [|done]. rewrite Hint. tauto.
  - eexists. split; [reflexivity|]. left. split; [done|]. intros j Hj. lia.
Qed.

Lemma strict_isChainValid_cases this s :
  well_typed this s ->
  (Strict.isChainValid SHA256 this s = Ret true s
   /\ forall j, (1 <= j < length (chain_of this s))%nat ->
                hashable_at this s j /\ intact_at SHA256 this s j)
  \/ (exists k, (1 <= k < length (chain_of this s))%nat
                /\ (forall j, (1 <= j < k)%nat ->
                              hashable_at this s j /\ intact_at SHA256 this s j)
                /\ hashable_at this s k /\ ~ intact_at SHA256 this s k
                /\ Strict.isChainValid SHA256 this s = Ret false s)
  \/ (exists k, (1 <= k < length (chain_of this s))%nat
                /\ (forall j, (1 <= j < k)%nat ->
                              hashable_at this s j /\ intact_at SHA256 this s j)
                /\ ~ hashable_at this s k
                /\ Strict.isChainValid SHA256 this s = Throw URIError s).
Proof.
  intros Hwt. pose proof Hwt as [[c Hc] _].
  assert (Strict.isChainValid SHA256 this s
          = Strict.isChainValid_from SHA256 (S (length (chain_of this s)))
              this 1 s) as ->.
  { unfold Strict.isChainValid, bind, get_array. rewrite Hc.
    by rewrite (chain_of_Some _ _ _ Hc). }
  destruct (strict_walk (S (length (chain_of this s))) this 1 s Hwt)
    as (o & -> & Hcases); [lia..|].
  destruct Hcases as [[-> Hall]|[(k & Hk & Hb & Hh & Hn & ->)
                                |(k & Hk & Hb & Hn & ->)]].
  - left. by split.
  - right. left. exists k.
    split; [exact Hk|]. split; [exact Hb|]. split; [exact Hh|].
    split; [exact Hn|reflexivity].
  - right. right. exists k.
    split; [exact Hk|]. split; [exact Hb|]. split; [exact Hn|reflexivity].
Qed.

(** Where every message can be hashed the walk is the one of
    [Chain]. *)
Lemma strict_isChainValid_agrees this s :
  well_typed this s ->
  (forall i, (1 <= i < length (chain_of this s))%nat -> hashable_at this s i) ->
  Strict.isChainValid SHA256 this s = isChainValid SHA256 this s.
Proof.
  intros Hwt Hh.
  destruct (isChainValid_total this s Hwt) as (v & Hv & Htrue & Hfalse).
  rewrite Hv.
  destruct (strict_isChainValid_cases this s Hwt)
    as [[Hs Hall]|[(k & Hk & Hbefore & Hhk & Hn & Hs)|(k & Hk & _ & Hn & _)]].
  - rewrite Hs. f_equal. symmetry. apply Htrue. intros i Hi. by apply Hall.
  - rewrite Hs. f_equal. destruct v; [|done]. destruct Hn. by apply Htrue.
  - destruct Hn. by apply Hh.
Qed.

Lemma strict_isChainValid_true this s :
  well_typed this s ->
  Strict.isChainValid SHA256 this s = Ret true s ->
  (forall i, (1 <= i < length (chain_of this s))%nat -> hashable_at this s i)
  /\ isChainValid SHA256 this s = Ret true s.
Proof.
  intros Hwt H.
  destruct (strict_isChainValid_cases this s Hwt)
    as [[Hs Hall]|[(k & _ & _ & _ & _ & Hs)|(k & _ & _ & _ & Hs)]];
    [|congruence..].
  assert (forall i, (1 <= i < length (chain_of this s))%nat ->
                    hashable_at this s i) as Hh by (intros i Hi; by apply Hall).
  split; [done|]. by rewrite <- strict_isChainValid_agrees.
Qed.

End ValidationFacts.

(** *** How a call changes the ledger's view *)

Lemma is_Some_lookup_app_l {A} (l k : list A) i :
  is_Some (l !! i) -> (l ++ k) !! i = l !! i.
Proof. intros ?%lookup_lt_is_Some. by apply lookup_app_l. Qed.

(** Allocating blocks or arrays leaves the chain and its blocks alone. *)
Lemma alloc_frame this s bs ars :
  well_typed this s ->
  let s' := Store (blocks s ++ bs) (arrays s ++ ars) in
  chain_of this s' = chain_of this s
  /\ (forall i, block_at this s' i = block_at this s i)
  /\ well_typed this s'.
Proof.
  intros [Harr Hall] s'.
  assert (chain_of this s' = chain_of this s) as Hc.
  { unfold chain_of, s'. simpl. by rewrite is_Some_lookup_app_l. }
  assert (forall r, r ∈ chain_of this s -> blocks s' !! r = blocks s !! r) as Hb.
  { intros r Hr. rewrite Forall_forall in Hall.
    unfold s'. simpl. apply is_Some_lookup_app_l. auto. }
  split; [done|]. split.
  - intros i. unfold block_at. rewrite Hc.
    destruct (chain_of this s !! i) as [r|] eqn:Hr; [|done]. simpl.
    apply Hb. by eapply list_elem_of_lookup_2.
  - split.
    + unfold s'. simpl. rewrite is_Some_lookup_app_l; done.
    + rewrite Hc. rewrite Forall_forall in Hall |- *.
      intros r Hr. rewrite Hb by done. auto.
Qed.

Lemma new_block_frame this s b :
  well_typed this s ->
  let s' := Store (blocks s ++ [b]) (arrays s) in
  chain_of this s' = chain_of this s
  /\ (forall i, block_at this s' i = block_at this s i)
  /\ well_typed this s'.
Proof.
  intros Hwt. pose proof (alloc_frame this s [b] [] Hwt) as Hf.
  simpl in Hf. by rewrite app_nil_r in Hf.
Qed.

Lemma new_array_frame this s c :
  well_typed this s ->
  let s' := Store (blocks s) (arrays s ++ [c]) in
  chain_of this s' = chain_of this s
  /\ (forall i, block_at this s' i = block_at this s i)
  /\ well_typed this s'.
Proof.
  intros Hwt. pose proof (alloc_frame this s [] [c] Hwt) as Hf.
  simpl in Hf. by rewrite app_nil_r in Hf.
Qed.

(** The store [addBlock] leaves: block [r] replaced, [r] pushed. *)
Lemma push_view this s c r b b' :
  arrays s !! chain this = Some c ->
  blocks s !! r = Some b ->
  let s' := Store (<[r := b']> (blocks s))
                  (<[chain this := c ++ [r]]> (arrays s)) in
  chain_of this s' = c ++ [r]
  /\ (forall x, blocks s' !! x = if decide (x = r) then Some b' else blocks s !! x).
Proof.
  intros Hc Hb s'. split.
  - unfold chain_of, s'. simpl.
    by rewrite list_lookup_insert_eq by eauto using lookup_lt_Some.
  - intros x. unfold s'. simpl. case_decide as Hx.
    + subst. apply list_lookup_insert_eq. eauto using lookup_lt_Some.
    + by apply list_lookup_insert_ne.
Qed.

Lemma call_cases c :
  (exists fuel r, c = AddBlock fuel r) \/ (forall fuel r, c <> AddBlock fuel r).
Proof. destruct c; eauto. Qed.

Section ReachFacts.

Variable SHA256 : string -> string.

Lemma ctor_view now s0 this s :
  SimpleBlockchain_new SHA256 now s0 = Ret this s ->
  difficulty this = 2%nat
  /\ exists gr g,
       arrays s !! chain this = Some [gr]
       /\ blocks s !! gr = Some g
       /\ index g = 0 /\ previousHash g = "0"
       /\ hash g = calculateHash SHA256 g.
Proof.
  intros [-> ->]%SimpleBlockchain_new_Ret. split; [done|].
  eexists (length (blocks s0)), _. simpl. split_and!.
  - rewrite lookup_app_r; rewrite length_app; simpl; [|lia].
    by replace (_ - _)%nat with 0%nat by lia.
  - by apply list_lookup_middle.
  - done.
  - done.
  - done.
Qed.

Lemma exec_frame this c s s' :
  (forall fuel r, c <> AddBlock fuel r) ->
  exec SHA256 this c s = Ret tt s' ->
  well_typed this s ->
  chain_of this s' = chain_of this s
  /\ (forall i, block_at this s' i = block_at this s i)
  /\ well_typed this s'.
Proof.
  intros Hc H Hwt. destruct c as [i t d p|r n1 n2|fuel r|]; simpl in H.
  - apply bind_Ret in H as (x & s1 & H & [= <-]).
    rewrite Block_new_Ret in H. injection H as _ <-.
    by apply new_block_frame.
  - apply bind_Ret in H as (x & s1 & H & [= <-]).
    apply createSABlock_Ret in H as (c & t & tip & _ & _ & _ & H).
    rewrite Block_new_Ret in H. injection H as _ <-.
    by apply new_block_frame.
  - by destruct (Hc fuel r).
  - apply bind_Ret in H as (x & s1 & H & [= <-]).
    apply getAllBlocks_Ret in H as (c & _ & _ & ->).
    by apply new_array_frame.
Qed.

Lemma exec_AddBlock this fuel r s s' :
  exec SHA256 this (AddBlock fuel r) s = Ret tt s' ->
  exists h, addBlock SHA256 fuel this r s = Ret h s'.
Proof.
  simpl. intros H. apply bind_Ret in H as (h & s1 & H & [= <-]). eauto.
Qed.

(** A weaker restriction allows more runs. *)
Lemma reach_weaken (ok ok' : SimpleBlockchain -> store -> call -> bool) this s :
  (forall s c, ok this s c = true -> ok' this s c = true) ->
  reach SHA256 ok this s -> reach SHA256 ok' this s.
Proof.
  intros Hok. induction 1 as [now s0 s H|s c s' _ IH Hc H].
  - by eapply reach_new.
  - eapply reach_call; eauto.
Qed.

Lemma reach_any ok this s :
  reach SHA256 ok this s -> reach SHA256 any_call this s.
Proof. by apply reach_weaken. Qed.

(** The ledger of a run is never empty, holds blocks only, and keeps
    the difficulty its constructor chose. *)
Lemma reach_well_typed ok this s :
  reach SHA256 ok this s ->
  difficulty this = 2%nat /\ well_typed this s /\ chain_of this s <> [].
Proof.
  induction 1 as [now s0 s H|s c s' _ (Hd & Hwt & Hne) Hc H].
  - apply ctor_view in H as (Hd & gr & g & Harr & Hg & _).
    split; [done|]. rewrite (chain_of_Some _ _ _ Harr).
    split; [|done]. split; [eauto|].
    rewrite (chain_of_Some _ _ _ Harr). repeat constructor. eauto.
  - split; [done|].
    destruct (call_cases c) as [(fuel & r & ->)|Hn].
    + apply exec_AddBlock in H as (h & H).
      apply addBlock_effect in H
        as (l & t & tip & b & b' & Hl & Ht & Htip & Hb & _ & _ & -> & _).
      destruct (push_view this s l r b b' Hl Hb) as [Hc' Hb'].
      rewrite Hc'. split; [|by destruct l]. split.
      * simpl. rewrite list_lookup_insert_eq by eauto using lookup_lt_Some. eauto.
      * rewrite Hc'. destruct Hwt as [_ Hall].
        rewrite (chain_of_Some _ _ _ Hl) in Hall.
        apply Forall_app. split.
        -- eapply Forall_impl; [exact Hall|]. intros x Hx. simpl in Hx.
           rewrite Hb'. case_decide; eauto.
        -- constructor; [|constructor]. rewrite Hb'. by rewrite decide_True.
    + eapply exec_frame in H as (Hc' & _ & Hwt'); [|done..].
      by rewrite Hc'.
Qed.

End ReachFacts.

(** [block[i]] after [addBlock] pushed [r], now holding [b']. *)
Lemma block_at_push this s c r b b' i :
  arrays s !! chain this = Some c ->
  blocks s !! r = Some b ->
  block_at this (Store (<[r := b']> (blocks s))
                       (<[chain this := c ++ [r]]> (arrays s))) i
  = x ← (c ++ [r]) !! i; if decide (x = r) then Some b' else blocks s !! x.
Proof.
  intros Hc Hb. destruct (push_view this s c r b b' Hc Hb) as [Hc' Hb'].
  unfold block_at. rewrite Hc'. destruct ((c ++ [r]) !! i) as [x|]; [|done].
  simpl. apply Hb'.
Qed.

Lemma block_at_push_old this s c r b b' i x :
  arrays s !! chain this = Some c ->
  blocks s !! r = Some b ->
  c !! i = Some x -> x <> r ->
  block_at this (Store (<[r := b']> (blocks s))
                       (<[chain this := c ++ [r]]> (arrays s))) i
  = block_at this s i.
Proof.
  intros Hc Hb Hx Hne. rewrite (block_at_push _ _ _ _ b) by done.
  unfold block_at. rewrite (chain_of_Some _ _ _ Hc).
  rewrite (lookup_app_l_Some _ _ _ _ Hx), Hx. simpl. by rewrite decide_False.
Qed.

Lemma block_at_push_new this s c r b b' :
  arrays s !! chain this = Some c ->
  blocks s !! r = Some b ->
  block_at this (Store (<[r := b']> (blocks s))
                       (<[chain this := c ++ [r]]> (arrays s))) (length c)
  = Some b'.
Proof.
  intros Hc Hb. rewrite (block_at_push _ _ _ _ b) by done.
  rewrite list_lookup_middle by done. simpl. by rewrite decide_True.
Qed.

Lemma block_at_lt this s i b :
  block_at this s i = Some b -> (i < length (chain_of this s))%nat.
Proof. intros (r & Hr & _)%block_at_Some. eauto using lookup_lt_Some. Qed.

Lemma last_lookup_Some {A} (l : list A) x :
  last l = Some x -> l !! (length l - 1)%nat = Some x.
Proof. rewrite last_lookup. by replace (pred (length l)) with (length l - 1)%nat by lia. Qed.

Section Invariants.

Variable SHA256 : string -> string.

(** *** Proof of work at every position but the first *)

Lemma reach_leading_zeros this s :
  reach SHA256 any_call this s ->
  forall i b, (1 <= i)%nat -> block_at this s i = Some b ->
              leading_zeros (difficulty this) (hash b).
Proof.
  induction 1 as [now s0 s H|s c s' Hreach IH _ H]; intros i y Hi Hy.
  - apply ctor_view in H as (_ & gr & g & Harr & _).
    apply block_at_lt in Hy. rewrite (chain_of_Some _ _ _ Harr) in Hy.
    simpl in Hy. lia.
  - destruct (reach_well_typed _ _ _ _ Hreach) as (_ & Hwt & _).
    destruct (call_cases c) as [(fuel & r & ->)|Hn].
    + apply exec_AddBlock in H as (h & H).
      apply addBlock_effect in H
        as (l & t & tip & b & b' & Hl & Ht & Htip & Hb & _ & Hz & -> & _).
      rewrite (block_at_push _ _ _ _ b) in Hy by done.
      destruct ((l ++ [r]) !! i) as [x|] eqn:Hx; [|done]. simpl in Hy.
      case_decide as Hxr; [by simplify_eq|].
      apply lookup_snoc_Some in Hx as [[_ Hx]|[_ ?]]; [|done].
      apply (IH i); [done|]. apply block_at_Some.
      rewrite (chain_of_Some _ _ _ Hl). eauto.
    + eapply exec_frame in H as (_ & Hb & _); [|done..].
      rewrite Hb in Hy. eauto.
Qed.

(** *** Linkage, as long as no block object sits in the chain twice *)

Lemma reach_linked this s :
  reach SHA256 any_call this s ->
  NoDup (chain_of this s) -> linked this s.
Proof.
  induction 1 as [now s0 s H|s c s' Hreach IH _ H]; intros Hnd i p y Hp Hy.
  - apply ctor_view in H as (_ & gr & g & Harr & _).
    apply block_at_lt in Hy. rewrite (chain_of_Some _ _ _ Harr) in Hy.
    simpl in Hy. lia.
  - destruct (reach_well_typed _ _ _ _ Hreach) as (_ & Hwt & _).
    destruct (call_cases c) as [(fuel & r & ->)|Hn].
    + apply exec_AddBlock in H as (h & H).
      apply addBlock_effect in H
        as (l & t & tip & b & b' & Hl & Ht & Htip & Hb & Hm & _ & -> & _).
      destruct (push_view this s l r b b' Hl Hb) as [Hc' _].
      rewrite Hc' in Hnd. apply NoDup_app in Hnd as (Hnd & Hnotin & _).
      assert (r ∉ l) as Hr.
      { intros Hin. apply (Hnotin _ Hin). by apply list_elem_of_singleton. }
      rewrite (chain_of_Some _ _ _ Hl) in IH.
      pose proof (block_at_lt _ _ _ _ Hy) as Hlt. rewrite Hc' in Hlt.
      rewrite length_app in Hlt. simpl in Hlt.
      destruct (lookup_lt_is_Some_2 l i) as [x Hx]; [lia|].
      assert (x <> r) as Hxr by (intros ->; by eapply Hr, list_elem_of_lookup_2).
      rewrite (block_at_push_old _ _ _ _ b b' i x) in Hp by done.
      destruct (decide (S i = length l)) as [Hlast|Hnl].
      * rewrite Hlast, (block_at_push_new _ _ _ _ b) in Hy by done.
        injection Hy as <-.
        apply last_lookup_Some in Ht.
        replace (length l - 1)%nat with i in Ht by lia.
        assert (x = t) as -> by congruence.
        apply block_at_Some in Hp as (t' & Ht' & Hp).
        rewrite (chain_of_Some _ _ _ Hl) in Ht'.
        assert (t' = t) as -> by congruence.
        assert (p = tip) as -> by congruence.
        by destruct Hm as (_ & _ & _ & -> & _).
      * destruct (lookup_lt_is_Some_2 l (S i)) as [x' Hx']; [lia|].
        assert (x' <> r) as Hxr'
            by (intros ->; by eapply Hr, list_elem_of_lookup_2).
        rewrite (block_at_push_old _ _ _ _ b b' (S i) x') in Hy by done.
        by eapply IH.
    + eapply exec_frame in H as (Hc' & Hb & _); [|done..].
      rewrite Hc' in Hnd. rewrite Hb in Hp, Hy. by eapply IH.
Qed.

(** *** The shape of the first block *)

Lemma reach_genesis this s :
  reach SHA256 any_call this s ->
  exists gr g,
    chain_of this s !! 0%nat = Some gr
    /\ block_at this s 0 = Some g
    /\ index g = 0
    /\ (gr ∉ drop 1 (chain_of this s) -> previousHash g = "0").
Proof.
  induction 1 as [now s0 s H|s c s' Hreach (gr & g & Hgr & Hg & Hi & Hp) _ H].
  - apply ctor_view in H as (_ & gr & g & Harr & Hg & Hi & Hp & _).
    exists gr, g. rewrite (chain_of_Some _ _ _ Harr). split_and!; try done.
    apply block_at_Some. rewrite (chain_of_Some _ _ _ Harr). eauto.
  - destruct (reach_well_typed _ _ _ _ Hreach) as (_ & Hwt & Hne).
    destruct (call_cases c) as [(fuel & r & ->)|Hn].
    + apply exec_AddBlock in H as (h & H).
      apply addBlock_effect in H
        as (l & t & tip & b & b' & Hl & Ht & Htip & Hb & Hm & _ & -> & _).
      destruct (push_view this s l r b b' Hl Hb) as [Hc' _].
      rewrite (chain_of_Some _ _ _ Hl) in Hgr, Hp, Hne.
      rewrite Hc'. rewrite (lookup_app_l_Some _ _ _ _ Hgr).
      assert (drop 1 (l ++ [r]) = drop 1 l ++ [r]) as Hdrop by (by destruct l).
      rewrite Hdrop.
      destruct (decide (gr = r)) as [->|Hgr'].
      * exists r, b'. split; [done|].
        rewrite (block_at_push _ _ _ _ b) by done.
        rewrite (lookup_app_l_Some _ _ _ _ Hgr). simpl. rewrite decide_True by done.
        split; [done|].
        apply block_at_Some in Hg as (r' & Hr' & Hg).
        rewrite (chain_of_Some _ _ _ Hl) in Hr'.
        assert (r' = r) as -> by congruence.
        assert (g = b) as -> by congruence.
        destruct Hm as (-> & _). split; [done|].
        intros Hnot. destruct Hnot. apply elem_of_app. right.
        by apply list_elem_of_singleton.
      * exists gr, g. split; [done|].
        rewrite (block_at_push_old _ _ _ _ b b' 0%nat gr) by done.
        split_and!; [done..|]. intros Hnot. apply Hp.
        intros Hin. apply Hnot. apply elem_of_app. by left.
    + eapply exec_frame in H as (Hc' & Hb & _); [|done..].
      exists gr, g. rewrite Hc', Hb. by split_and!.
Qed.

End Invariants.

Lemma block_at_push_notin this s c r b b' i :
  arrays s !! chain this = Some c ->
  blocks s !! r = Some b ->
  r ∉ c -> (i < length c)%nat ->
  block_at this (Store (<[r := b']> (blocks s))
                       (<[chain this := c ++ [r]]> (arrays s))) i
  = block_at this s i.
Proof.
  intros Hc Hb Hr Hi. destruct (lookup_lt_is_Some_2 c i Hi) as [x Hx].
  apply (block_at_push_old _ _ _ _ b b' i x); [done..|].
  intros ->. by eapply Hr, list_elem_of_lookup_2.
Qed.

Lemma set_previousHash_same b : set_previousHash (previousHash b) b = b.
Proof. by destruct b. Qed.

Lemma hash_write w b : hash (write w b) = hash b.
Proof. by destruct w. Qed.

(** A single assignment that changes a field changes the digest's
    argument: the five printed fields are concatenated, and printing an
    integer is injective. *)
Lemma changes_preimage w b : changes w b -> preimage (write w b) <> preimage b.
Proof.
  unfold preimage. destruct w as [v|v|v|v|v]; simpl; intros Hch Heq; apply Hch.
  - do 4 apply app_string_inv_tail in Heq. by apply (inj pretty).
  - do 2 apply app_string_inv_tail in Heq. apply app_string_inv_head in Heq.
    by apply (inj pretty).
  - apply app_string_inv_tail in Heq. by apply app_string_inv_head in Heq.
  - do 3 apply app_string_inv_tail in Heq. by apply app_string_inv_head in Heq.
  - apply app_string_inv_head in Heq. by apply (inj pretty).
Qed.

Section Integrity.

Variable SHA256 : string -> string.

(** *** Blocks built on the tip keep the chain valid *)

Lemma built_on_tip_AddBlock this s fuel r :
  built_on_tip SHA256 this s (AddBlock fuel r) = true ->
  (r ∉ chain_of this s)
  /\ exists t tip b,
       last (chain_of this s) = Some t /\ blocks s !! t = Some tip
       /\ blocks s !! r = Some b
       /\ previousHash b = hash tip
       /\ hash b = calculateHash SHA256 b.
Proof.
  simpl. intros [Hnot H]%andb_prop. split.
  - apply negb_true_iff, bool_decide_eq_false in Hnot. done.
  - destruct (last (chain_of this s)) as [t|] eqn:Ht; simpl in H; [|done].
    destruct (blocks s !! t) as [tip|] eqn:Htip; [|done].
    destruct (blocks s !! r) as [b|] eqn:Hb; [|done].
    apply andb_prop in H as [H1%String.eqb_eq H2%String.eqb_eq].
    exists t, tip, b. by split_and!.
Qed.

Lemma reach_intact this s :
  reach SHA256 (built_on_tip SHA256) this s ->
  forall i, (1 <= i < length (chain_of this s))%nat ->
            intact_at SHA256 this s i.
Proof.
  induction 1 as [now s0 s H|s c s' Hreach IH Hok H]; intros i Hi.
  - apply ctor_view in H as (_ & gr & g & Harr & _).
    rewrite (chain_of_Some _ _ _ Harr) in Hi. simpl in Hi. lia.
  - destruct (reach_well_typed _ _ _ _ Hreach) as (_ & Hwt & Hne).
    destruct (call_cases c) as [(fuel & r & ->)|Hn].
    + apply built_on_tip_AddBlock in Hok
        as (Hr & t0 & tip0 & b0 & Ht0 & Htip0 & Hb0 & Hprev & Hhash).
      apply exec_AddBlock in H as (h & H).
      apply addBlock_effect in H
        as (l & t & tip & b & b' & Hl & Ht & Htip & Hb & Hm & _ & -> & _).
      destruct (push_view this s l r b b' Hl Hb) as [Hc' _].
      rewrite (chain_of_Some _ _ _ Hl) in *.
      assert (t0 = t) as -> by congruence.
      assert (tip0 = tip) as -> by congruence.
      assert (b0 = b) as -> by congruence.
      rewrite Hc', length_app in Hi. simpl in Hi.
      rewrite <- Hprev, set_previousHash_same in Hm.
      destruct (decide (i = length l)) as [->|Hil].
      * exists tip, b'. split_and!.
        -- rewrite (block_at_push_notin _ _ _ _ b) by (done || lia).
           apply block_at_Some. exists t. rewrite (chain_of_Some _ _ _ Hl).
           split; [|done]. by apply last_lookup_Some.
        -- by apply (block_at_push_new _ _ _ _ b).
        -- destruct Hm as (_ & _ & _ & _ & _ & [->|Hh]); done.
        -- destruct Hm as (_ & _ & _ & -> & _). done.
      * destruct (IH i) as (p & y & Hp & Hy & Hh & Hlink); [lia|].
        exists p, y.
        rewrite !(block_at_push_notin _ _ _ _ b) by (done || lia). done.
    + eapply exec_frame in H as (Hc' & Hb & _); [|done..].
      rewrite Hc' in Hi. destruct (IH i Hi) as (p & y & Hp & Hy & Hh & Hlink).
      exists p, y. by rewrite !Hb.
Qed.

(** [createSABlock] builds on the tip. *)
Lemma createSABlock_built_on_tip this r now1 now2 s x s' fuel :
  well_typed this s ->
  createSABlock SHA256 this r now1 now2 s = Ret x s' ->
  built_on_tip SHA256 this s' (AddBlock fuel x) = true.
Proof.
  intros Hwt (c & t & tip & Hc & Ht & Htip & H)%createSABlock_Ret.
  rewrite Block_new_Ret in H. injection H as <- <-.
  match goal with
  | |- built_on_tip _ _ (Store (_ ++ [?b]) _) _ = _ =>
      destruct (new_block_frame this s b Hwt) as (Hc' & _ & _)
  end.
  unfold built_on_tip. rewrite Hc', (chain_of_Some _ _ _ Hc), Ht.
  destruct Hwt as [_ Hall]. rewrite (chain_of_Some _ _ _ Hc) in Hall.
  rewrite Forall_forall in Hall. cbn [blocks mbind option_bind].
  rewrite (lookup_app_l_Some _ _ _ _ Htip).
  rewrite list_lookup_middle by done. cbn [previousHash hash].
  rewrite !String.eqb_refl, andb_true_r.
  apply negb_true_iff, bool_decide_eq_false.
  intros [_ Hlt%lookup_lt_Some]%Hall. lia.
Qed.

Lemma createBlockchainRecord_Ret this sa now s r s' :
  createBlockchainRecord SHA256 this sa now s = Ret r s' -> s' = s.
Proof.
  unfold createBlockchainRecord. intros H.
  apply bind_Ret in H as (e & s1 & (c & _ & _ & ->)%getLatestBlock_Ret & H).
  apply bind_Ret in H as (tip & s1 & (t & _ & _ & ->)%deref_Ret & H).
  by injection H.
Qed.

(** The way [SADatabaseService] appends stays within [built_on_tip]. *)
Lemma recordEvent_reach this s fuel sa now0 now1 now2 h s' :
  reach SHA256 (built_on_tip SHA256) this s ->
  recordEvent SHA256 fuel this sa now0 now1 now2 s = Ret h s' ->
  reach SHA256 (built_on_tip SHA256) this s'.
Proof.
  intros Hreach H. unfold recordEvent in H.
  apply bind_Ret in H as (r & s1 & Hrec & H).
  pose proof (createBlockchainRecord_Ret _ _ _ _ _ _ Hrec) as ->.
  apply bind_Ret in H as (x & s1 & Hnew & H).
  destruct (reach_well_typed _ _ _ _ Hreach) as (_ & Hwt & _).
  apply (reach_call _ _ _ s1 (AddBlock fuel x)).
  - apply (reach_call _ _ _ s (CreateSABlock r now1 now2)); [done..|].
    simpl. by rewrite (bind_Ret_l _ _ _ _ _ Hnew).
  - by eapply createSABlock_built_on_tip.
  - simpl. by rewrite (bind_Ret_l _ _ _ _ _ H).
Qed.

End Integrity.

(* ===================================================================== *)
(** ** The concrete runs *)
(* ===================================================================== *)

Lemma fresh_reach ok : reach Run.sha ok Run.ledger Run.fresh.
Proof. apply (reach_new _ _ _ Run.now0 empty_store). vm_compute. reflexivity. Qed.

Lemma after_two_reach :
  reach Run.sha (built_on_tip Run.sha) Run.ledger Run.after_two.
Proof.
  apply (recordEvent_reach _ _ Run.after_one 2 Run.sa2
           1700000002383 1700000002383 1700000002383
           "002648608c3e6ed86e123c6a2098bd1b85a3ee47a976713f141820be4fd2f16f").
  - apply (recordEvent_reach _ _ Run.fresh 3 Run.sa1
             1700000001042 1700000001042 1700000001042
             "001a9ed4029c131eb63d8b402f13c140546e6fcc46305804c43164606ab9ebb7");
      [apply fresh_reach|].
    vm_compute. reflexivity.
  - vm_compute. reflexivity.
Qed.

Lemma lucky_reach : reach Run.sha any_call Run.ledger Run.lucky.
Proof.
  apply (reach_call _ _ _
           (Run.final (Block_new Run.sha 1 1700000000143 (Json.Str "tx") "" Run.fresh))
           (AddBlock 1 1)); [|reflexivity|vm_compute; reflexivity].
  apply (reach_call _ _ _ Run.fresh (NewBlock 1 1700000000143 (Json.Str "tx") ""));
    [apply fresh_reach|reflexivity|vm_compute; reflexivity].
Qed.

Lemma appended_twice_reach :
  reach Run.sha any_call Run.ledger Run.appended_twice.
Proof.
  set (s1 := Run.final (Block_new Run.sha 1 1700000000435 (Json.Str "tx") "" Run.fresh)).
  set (s2 := Run.final (addBlock Run.sha 2 Run.ledger 1 s1)).
  apply (reach_call _ _ _ s2 (AddBlock 1 1)); [|reflexivity|vm_compute; reflexivity].
  apply (reach_call _ _ _ s1 (AddBlock 2 1)); [|reflexivity|vm_compute; reflexivity].
  apply (reach_call _ _ _ Run.fresh (NewBlock 1 1700000000435 (Json.Str "tx") ""));
    [apply fresh_reach|reflexivity|vm_compute; reflexivity].
Qed.

Lemma genesis_appended_reach :
  reach Run.sha any_call Run.ledger Run.genesis_appended.
Proof.
  apply (reach_call _ _ _ Run.fresh69 (AddBlock 3 0)); [|reflexivity|vm_compute; reflexivity].
  apply (reach_new _ _ _ 1700000000069 empty_store). vm_compute. reflexivity.
Qed.

Lemma after_two_valid :
  isChainValid Run.sha Run.ledger Run.after_two = Ret true Run.after_two.
Proof. vm_compute. reflexivity. Qed.

Lemma after_two_well_typed : well_typed Run.ledger Run.after_two.
Proof. eapply reach_well_typed, after_two_reach. Qed.

Lemma after_two_NoDup : NoDup (chain_of Run.ledger Run.after_two).
Proof. vm_compute. refine (bool_decide_unpack _ _). vm_compute. exact I. Qed.

Lemma well_typed_intro this s c :
  arrays s !! chain this = Some c ->
  Forall (fun r => is_Some (blocks s !! r)) c ->
  well_typed this s.
Proof.
  intros Hc Hall. split; [eauto|]. by rewrite (chain_of_Some _ _ _ Hc).
Qed.

Lemma snapshot_written_well_typed : well_typed Run.ledger Run.snapshot_written.
Proof.
  apply (well_typed_intro _ _ [0; 1; 2]%nat); [vm_compute; reflexivity|].
  repeat constructor.
  - exists (Run.block_of Run.snapshot_written 0). vm_compute. reflexivity.
  - exists (Run.block_of Run.snapshot_written 1). vm_compute. reflexivity.
  - exists (Run.block_of Run.snapshot_written 2). vm_compute. reflexivity.
Qed.

(* ===================================================================== *)
(** ** The claims of the specification *)
(* ===================================================================== *)

(** *** What the mining loop finds *)







Lemma after_two_strictly_valid :
  Strict.isChainValid Run.sha Run.ledger Run.after_two = Ret true Run.after_two.
Proof. vm_compute. reflexivity. Qed.

(** *** C1 *)

(** C1, as amended.  After any run in which every block passed to
    [addBlock] is a new block built on the current tip (not yet in the
    chain, constructed with the tip's hash as its [previousHash], the
    way [createSABlock] builds it), [isChainValid] returns [true]. *)
Theorem appends_on_tip_validate (SHA256 : string -> string) this s :
  reach SHA256 (built_on_tip SHA256) this s ->
  isChainValid SHA256 this s = Ret true s.
Proof.
  intros Hreach.
  destruct (reach_well_typed _ _ _ _ Hreach) as (_ & Hwt & _).
  destruct (isChainValid_total SHA256 this s Hwt) as (v & Hv & Htrue & _).
  rewrite Hv. f_equal. apply Htrue. by apply reach_intact.
Qed.

Lemma appends_on_tip_validate_witness :
  reach Run.sha (built_on_tip Run.sha) Run.ledger Run.after_two
  /\ isChainValid Run.sha Run.ledger Run.after_two = Ret true Run.after_two.
Proof.
  split; [apply after_two_reach|].
  apply (appends_on_tip_validate Run.sha Run.ledger Run.after_two).
  apply after_two_reach.
Defined.

(** C1 fails as stated.  [addBlock(new Block(1, 1700000000143, "tx", ""))]
    on a new ledger: the constructor's digest already starts with "00",
    so [mineBlock] leaves the hash computed for the empty
    [previousHash] although [addBlock] has replaced that field.  And
    [addBlock(b); addBlock(b)] for one block [b]: the second call
    relinks [b] to itself.  Both runs end in a chain that
    [isChainValid] rejects. *)
Lemma appends_can_invalidate :
  (reach Run.sha any_call Run.ledger Run.lucky
   /\ Run.hand_built 1700000000143 1 Run.fresh
      = Ret "00d6c2de3bc9bee1164bfbd7b198f5dde3229269e09e2118178d8169fd2952fd"
            Run.lucky
   /\ isChainValid Run.sha Run.ledger Run.lucky = Ret false Run.lucky)
  /\ (reach Run.sha any_call Run.ledger Run.appended_twice
      /\ chain_of Run.ledger Run.appended_twice = [0; 1; 1]%nat
      /\ isChainValid Run.sha Run.ledger Run.appended_twice
         = Ret false Run.appended_twice).
Proof.
  split; split_and!.
  - apply lucky_reach.
  - vm_compute. reflexivity.
  - vm_compute. reflexivity.
  - apply appended_twice_reach.
  - vm_compute. reflexivity.
  - vm_compute. reflexivity.
Qed.

(** *** C2 *)

(** On the walk of [Chain], which hashes every message. *)
Lemma tampering_detected_where_all_is_hashed (SHA256 : string -> string)
    this s i r b w :
  well_typed this s ->
  isChainValid SHA256 this s = Ret true s ->
  (1 <= i)%nat ->
  chain_of this s !! i = Some r ->
  blocks s !! r = Some b ->
  changes w b ->
  (SHA256 (preimage (write w b)) = SHA256 (preimage b) ->
   preimage (write w b) = preimage b) ->
  isChainValid SHA256 this (Store (<[r := write w b]> (blocks s)) (arrays s))
  = Ret false (Store (<[r := write w b]> (blocks s)) (arrays s)).
Proof.
  intros Hwt Hvalid Hi Hr Hb Hch Hinj.
  set (s' := Store _ _).
  assert (chain_of this s' = chain_of this s) as Hc by done.
  assert (well_typed this s') as Hwt'.
  { destruct Hwt as [Harr Hall]. split; [done|]. rewrite Hc.
    eapply Forall_impl; [exact Hall|]. intros x Hx. simpl in *.
    by apply list_lookup_insert_is_Some. }
  destruct (isChainValid_total SHA256 this s Hwt) as (v0 & Hv0 & Htrue0 & _).
  rewrite Hv0 in Hvalid. injection Hvalid as ->.
  pose proof (lookup_lt_Some _ _ _ Hr) as Hlt.
  destruct (proj1 Htrue0 eq_refl i) as (p & y & _ & Hy & Hh & _); [lia|].
  apply block_at_Some in Hy as (r' & Hr' & Hy).
  assert (r' = r) as -> by congruence. assert (y = b) as -> by congruence.
  destruct (isChainValid_total SHA256 this s' Hwt') as (v & Hv & Htrue & _).
  rewrite Hv. f_equal. destruct v; [|done]. exfalso.
  destruct (proj1 Htrue eq_refl i) as (p' & y' & _ & Hy' & Hh' & _);
    [rewrite Hc; lia|].
  apply block_at_Some in Hy' as (r2 & Hr2 & Hy'). rewrite Hc in Hr2.
  assert (r2 = r) as -> by congruence.
  simpl in Hy'. rewrite list_lookup_insert_eq in Hy' by eauto using lookup_lt_Some.
  injection Hy' as <-. rewrite hash_write, Hh in Hh'.
  by apply (changes_preimage w b), Hinj.
Qed.

(** What an assignment to a block leaves. *)
Lemma tamper_view this s r b w :
  well_typed this s ->
  blocks s !! r = Some b ->
  let s' := Store (<[r := write w b]> (blocks s)) (arrays s) in
  tamper r w s = Ret tt s'
  /\ chain_of this s' = chain_of this s
  /\ well_typed this s'
  /\ forall i, block_at this s' i
               = if decide (chain_of this s !! i = Some r)
                 then Some (write w b) else block_at this s i.
Proof.
  intros Hwt Hb s'. split_and!.
  - unfold tamper, update_block. by rewrite Hb.
  - done.
  - destruct Hwt as [Harr Hall]. split; [done|].
    change (chain_of this s') with (chain_of this s).
    eapply Forall_impl; [exact Hall|]. intros x Hx. simpl in *.
    by apply list_lookup_insert_is_Some.
  - intros i. unfold block_at.
    change (chain_of this s') with (chain_of this s).
    destruct (chain_of this s !! i) as [x|] eqn:Hx; simpl.
    + case_decide as Hd.
      * injection Hd as ->. apply list_lookup_insert_eq.
        by eapply lookup_lt_Some.
      * apply list_lookup_insert_ne. congruence.
    + done.
Qed.

(** C2, as amended.  In a chain that validates, take a block at a
    position [i >= 1] and assign to one of its fields [index],
    [timestamp], [data], [previousHash], [nonce], without touching
    [hash].  If the assignment changes the printed form of the field
    and the block can still be hashed (its message has no lone
    surrogate), the next [isChainValid] returns [false], unless the
    digest of the new message collides with that of the old one.  If
    a string with a lone surrogate is assigned to [previousHash], the
    next [isChainValid] does not return: it throws a URIError. *)
Theorem tampering_after_genesis_detected (SHA256 : string -> string)
    this s i r b :
  well_typed this s ->
  Strict.isChainValid SHA256 this s = Ret true s ->
  (1 <= i)%nat ->
  chain_of this s !! i = Some r ->
  blocks s !! r = Some b ->
  (forall w,
     changes w b ->
     lone_surrogate (preimage (write w b)) = false ->
     (SHA256 (preimage (write w b)) = SHA256 (preimage b) ->
      preimage (write w b) = preimage b) ->
     exists s',
       tamper r w s = Ret tt s'
       /\ Strict.isChainValid SHA256 this s' = Ret false s')
  /\ (forall v,
        lone_surrogate v = true ->
        exists s',
          tamper r (WritePreviousHash v) s = Ret tt s'
          /\ Strict.isChainValid SHA256 this s' = Throw URIError s').
Proof.
  intros Hwt Hvalid Hi Hr Hb.
  destruct (strict_isChainValid_true SHA256 this s Hwt Hvalid) as [Hh Hold].
  split.
  - intros w Hch Hls Hinj.
    destruct (tamper_view this s r b w Hwt Hb) as (Ht & Hc & Hwt' & Hview).
    eexists. split; [exact Ht|].
    rewrite strict_isChainValid_agrees; [|exact Hwt'|].
    + by apply (tampering_detected_where_all_is_hashed SHA256 this s i r b w).
    + intros j Hj. rewrite Hc in Hj. unfold hashable_at. rewrite Hview.
      case_decide; [by eexists|]. by apply Hh.
  - intros v Hv.
    destruct (tamper_view this s r b (WritePreviousHash v) Hwt Hb)
      as (Ht & Hc & Hwt' & Hview).
    eexists. split; [exact Ht|].
    set (s' := Store _ _) in *.
    assert (forall j, chain_of this s !! j = Some r ->
                      ~ hashable_at this s' j) as Hbad.
    { intros j Hj (cur & Hcur & Hls). rewrite Hview, decide_True in Hcur by done.
      injection Hcur as <-.
      pose proof (lone_surrogate_preimage (write (WritePreviousHash v) b) Hv)
        as Hp.
      change (lone_surrogate (preimage (write (WritePreviousHash v) b)) = false)
        in Hls.
      congruence. }
    destruct (isChainValid_total SHA256 this s Hwt) as (v0 & Hv0 & Htrue0 & _).
    rewrite Hv0 in Hold. injection Hold as ->.
    pose proof (proj1 Htrue0 eq_refl) as Hint.
    pose proof (lookup_lt_Some _ _ _ Hr) as Hlt.
    destruct (strict_isChainValid_cases SHA256 this s' Hwt')
      as [[_ Hall]|[(k & Hk & Hbefore & Hhk & Hn & _)|(k & _ & _ & _ & Hs)]].
    + destruct (Hbad i Hr). apply Hall. rewrite Hc. lia.
    + exfalso. rewrite Hc in Hk.
      assert (chain_of this s !! k <> Some r) as Hne
        by (intros Hkr; by apply (Hbad k)).
      destruct (Hint k Hk) as (prev & cur & Hp & Hcur & H1 & H2).
      apply Hn. exists (if decide (chain_of this s !! (k - 1)%nat = Some r)
                        then write (WritePreviousHash v) b else prev), cur.
      split_and!.
      * rewrite Hview. case_decide; done.
      * rewrite Hview. by rewrite decide_False.
      * done.
      * case_decide as Hd; [|done]. rewrite hash_write.
        apply block_at_Some in Hp as (x & Hx & Hbx).
        assert (x = r) as -> by congruence. congruence.
    + exact Hs.
Qed.

Lemma tampering_after_genesis_detected_witness :
  exists s',
    tamper 1 (WriteData Run.forged) Run.after_two = Ret tt s'
    /\ Strict.isChainValid Run.sha Run.ledger s' = Ret false s'.
Proof.
  apply (proj1 (tampering_after_genesis_detected Run.sha Run.ledger
                  Run.after_two 1 1 (Run.block_of Run.after_two 1)
                  after_two_well_typed after_two_strictly_valid
                  ltac:(lia) ltac:(vm_compute; reflexivity)
                  ltac:(vm_compute; reflexivity))
           (WriteData Run.forged)).
  - vm_compute. discriminate.
  - vm_compute. reflexivity.
  - vm_compute. discriminate.
Defined.

(** C2 fails as stated for the genesis block: the walk starts at
    position 1 and never recomputes the hash of position 0.  After two
    events, overwriting the payload of the genesis block leaves
    [isChainValid] at [true]. *)
Lemma genesis_tampering_undetected :
  reach Run.sha any_call Run.ledger Run.after_two
  /\ chain_of Run.ledger Run.after_two !! 0%nat = Some 0%nat
  /\ (exists g, blocks Run.after_two !! 0%nat = Some g
                /\ changes (WriteData Run.forged) g)
  /\ exists s',
       tamper 0 (WriteData Run.forged) Run.after_two = Ret tt s'
       /\ isChainValid Run.sha Run.ledger s' = Ret true s'
       /\ Strict.isChainValid Run.sha Run.ledger s' = Ret true s'.
Proof.
  split_and!.
  - apply reach_any with (ok := built_on_tip Run.sha), after_two_reach.
  - vm_compute. reflexivity.
  - exists (Run.block_of Run.after_two 0).
    split; [vm_compute; reflexivity|]. vm_compute. discriminate.
  - exists Run.genesis_forged. split_and!; vm_compute; reflexivity.
Qed.

(** *** C3 *)

(** C3, as amended.  In every chain produced by genesis creation
    followed by [addBlock] appends, in which no block object occurs
    twice, [block[i+1].previousHash] equals [block[i].hash] for every
    [i]. *)
Theorem linkage_without_reappending (SHA256 : string -> string) this s :
  reach SHA256 any_call this s ->
  NoDup (chain_of this s) ->
  forall i prev cur,
    block_at this s i = Some prev ->
    block_at this s (S i) = Some cur ->
    previousHash cur = hash prev.
Proof. intros Hreach Hnd. by apply (reach_linked SHA256). Qed.

Lemma linkage_without_reappending_witness :
  block_at Run.ledger Run.after_two 1 = Some (Run.block_of Run.after_two 1)
  /\ block_at Run.ledger Run.after_two 2 = Some (Run.block_of Run.after_two 2)
  /\ previousHash (Run.block_of Run.after_two 2)
     = hash (Run.block_of Run.after_two 1).
Proof.
  split_and!; [vm_compute; reflexivity..|].
  apply (linkage_without_reappending Run.sha Run.ledger Run.after_two
           (reach_any _ _ _ _ after_two_reach) after_two_NoDup 1%nat).
  - vm_compute. reflexivity.
  - vm_compute. reflexivity.
Defined.

(** C3 fails as stated.  [addBlock(b); addBlock(b)]: the second call
    overwrites [b.previousHash] with [b]'s own hash, and [b] is also
    [block[1]], whose predecessor is the genesis block. *)
Lemma reappending_breaks_linkage :
  reach Run.sha any_call Run.ledger Run.appended_twice
  /\ chain_of Run.ledger Run.appended_twice = [0; 1; 1]%nat
  /\ (hash <$> block_at Run.ledger Run.appended_twice 0)
     = Some "daa977ddc32f01990662021bc43519fb2e63f83ed57221df930cebed9c0d3871"
  /\ (previousHash <$> block_at Run.ledger Run.appended_twice 1)
     = Some "00ab8a74e53507cd7f788f56bed7558c98b4c5dd1da28b31aed7d32f1940ae80"
  /\ ~ linked Run.ledger Run.appended_twice.
Proof.
  split_and!; [apply appended_twice_reach|vm_compute; reflexivity..|].
  intros Hlinked.
  specialize (Hlinked 0%nat
    (Run.block_of Run.appended_twice 0) (Run.block_of Run.appended_twice 1)
    ltac:(vm_compute; reflexivity) ltac:(vm_compute; reflexivity)).
  vm_compute in Hlinked. discriminate.
Qed.

(** *** C4 *)




(** *** C5 *)

(** The three ways the walk can end exclude each other. *)
Lemma strict_isChainValid_iff (SHA256 : string -> string) this s :
  well_typed this s ->
  (Strict.isChainValid SHA256 this s = Ret true s <->
   forall i, (1 <= i < length (chain_of this s))%nat ->
             hashable_at this s i /\ intact_at SHA256 this s i)
  /\ (Strict.isChainValid SHA256 this s = Ret false s <->
      exists i, (1 <= i < length (chain_of this s))%nat
                /\ hashable_at this s i /\ ~ intact_at SHA256 this s i
                /\ forall k, (1 <= k < i)%nat ->
                     hashable_at this s k /\ intact_at SHA256 this s k)
  /\ (Strict.isChainValid SHA256 this s = Throw URIError s <->
      exists i, (1 <= i < length (chain_of this s))%nat
                /\ ~ hashable_at this s i
                /\ forall k, (1 <= k < i)%nat ->
                     hashable_at this s k /\ intact_at SHA256 this s k).
Proof.
  intros Hwt.
  destruct (strict_isChainValid_cases SHA256 this s Hwt)
    as [[Hs Hall]|[(k & Hk & Hbefore & Hhk & Hn & Hs)
                  |(k & Hk & Hbefore & Hn & Hs)]]; rewrite Hs.
  - split_and!.
    + done.
    + split; [done|]. intros (i & Hi & _ & Hni & _).
      destruct Hni. by apply Hall.
    + split; [done|]. intros (i & Hi & Hni & _).
      destruct Hni. by apply Hall.
  - split_and!.
    + split; [done|]. intros Hall. destruct Hn. by apply Hall.
    + split; [intros _|done]. exists k.
      split; [exact Hk|]. split; [exact Hhk|]. split; [exact Hn|exact Hbefore].
    + split; [done|]. intros (i & Hi & Hni & Hbi).
      destruct (Nat.lt_trichotomy i k) as [Hlt|[->|Hgt]].
      * destruct Hni. apply Hbefore. lia.
      * done.
      * destruct Hn. apply Hbi. lia.
  - split_and!.
    + split; [done|]. intros Hall. destruct Hn. by apply Hall.
    + split; [done|]. intros (i & Hi & Hhi & Hni & Hbi).
      destruct (Nat.lt_trichotomy i k) as [Hlt|[->|Hgt]].
      * destruct Hni. apply Hbefore. lia.
      * done.
      * destruct Hn. apply Hbi. lia.
    + split; [intros _|done]. exists k.
      split; [exact Hk|]. split; [exact Hn|exact Hbefore].
Qed.

(** C5, as amended.  [isChainValid] goes through the positions from 1
    to the tip and leaves the store as it is.  At each position it
    first recomputes the hash of the block from the stored fields,
    which throws a URIError when the message has a lone surrogate (as
    it has when [previousHash] has one), and only then compares the
    stored hash with it and [previousHash] with the stored hash of the
    block before.  It stops at the first position where the digest
    throws or a check fails: there it throws in the first case, also
    when the block fails a check, and returns [false] in the second.
    It returns [true] when there is no such position, so for every
    chain of at most one block.  On a chain all of whose messages can
    be hashed it returns, and is the walk of [Chain]. *)
Theorem isChainValid_walks_until_it_fails (SHA256 : string -> string) this s :
  well_typed this s ->
  (Strict.isChainValid SHA256 this s = Ret true s
   \/ Strict.isChainValid SHA256 this s = Ret false s
   \/ Strict.isChainValid SHA256 this s = Throw URIError s)
  /\ (Strict.isChainValid SHA256 this s = Ret true s <->
      forall i, (1 <= i < length (chain_of this s))%nat ->
                hashable_at this s i /\ intact_at SHA256 this s i)
  /\ (Strict.isChainValid SHA256 this s = Ret false s <->
      exists i, (1 <= i < length (chain_of this s))%nat
                /\ hashable_at this s i /\ ~ intact_at SHA256 this s i
                /\ forall k, (1 <= k < i)%nat ->
                     hashable_at this s k /\ intact_at SHA256 this s k)
  /\ (Strict.isChainValid SHA256 this s = Throw URIError s <->
      exists i, (1 <= i < length (chain_of this s))%nat
                /\ ~ hashable_at this s i
                /\ forall k, (1 <= k < i)%nat ->
                     hashable_at this s k /\ intact_at SHA256 this s k)
  /\ ((length (chain_of this s) <= 1)%nat ->
      Strict.isChainValid SHA256 this s = Ret true s)
  /\ ((forall i, (1 <= i < length (chain_of this s))%nat ->
                 hashable_at this s i) ->
      (exists v, Strict.isChainValid SHA256 this s = Ret v s)
      /\ Strict.isChainValid SHA256 this s = isChainValid SHA256 this s)
  /\ (forall i cur,
        block_at this s i = Some cur ->
        lone_surrogate (previousHash cur) = true ->
        ~ hashable_at this s i).
Proof.
  intros Hwt.
  destruct (strict_isChainValid_iff SHA256 this s Hwt) as (Ht & Hf & Hx).
  split_and!; [|exact Ht|exact Hf|exact Hx| | |].
  - destruct (strict_isChainValid_cases SHA256 this s Hwt)
      as [[Hs _]|[(k & _ & _ & _ & _ & Hs)|(k & _ & _ & _ & Hs)]]; auto.
  - intros Hlen. apply Ht. intros i Hi. lia.
  - intros Hh. split.
    + destruct (strict_isChainValid_cases SHA256 this s Hwt)
        as [[Hs _]|[(k & _ & _ & _ & _ & Hs)|(k & Hk & _ & Hn & _)]];
        [by eexists..|]. destruct Hn. by apply Hh.
    + by apply strict_isChainValid_agrees.
  - intros i cur Hcur Hls (c & Hc & Hnone).
    assert (c = cur) as -> by congruence.
    by rewrite lone_surrogate_preimage in Hnone.
Qed.

Lemma isChainValid_walks_until_it_fails_witness :
  well_typed Run.ledger Run.snapshot_written
  /\ Strict.isChainValid Run.sha Run.ledger Run.snapshot_written
     = Ret false Run.snapshot_written
  /\ exists i, (1 <= i < length (chain_of Run.ledger Run.snapshot_written))%nat
               /\ hashable_at Run.ledger Run.snapshot_written i
               /\ ~ intact_at Run.sha Run.ledger Run.snapshot_written i
               /\ forall k, (1 <= k < i)%nat ->
                    hashable_at Run.ledger Run.snapshot_written k
                    /\ intact_at Run.sha Run.ledger Run.snapshot_written k.
Proof.
  assert (well_typed Run.ledger Run.snapshot_written) as Hwt
    by apply snapshot_written_well_typed.
  assert (Strict.isChainValid Run.sha Run.ledger Run.snapshot_written
          = Ret false Run.snapshot_written) as Hf by (vm_compute; reflexivity).
  split_and!; [exact Hwt|exact Hf|].
  exact (proj1 (proj1 (proj2 (proj2
           (isChainValid_walks_until_it_fails Run.sha Run.ledger
              Run.snapshot_written Hwt)))) Hf).
Defined.

(** C5 fails as stated: [isChainValid] does not always return.  After
    two events a caller assigns the string ["\uD800"] to
    [previousHash] of the block at position 1.  The block now fails
    both checks, and the walk should return [false] there; the digest
    is computed first and throws. *)
Lemma validation_throws_on_a_lone_surrogate :
  reach Run.sha any_call Run.ledger Run.after_two
  /\ tamper 1 (WritePreviousHash Run.surrogate) Run.after_two
     = Ret tt Run.surrogate_linked
  /\ chain_of Run.ledger Run.surrogate_linked = [0; 1; 2]%nat
  /\ (previousHash <$> block_at Run.ledger Run.surrogate_linked 1)
     = Some Run.surrogate
  /\ (hash <$> block_at Run.ledger Run.surrogate_linked 0)
     = Some "daa977ddc32f01990662021bc43519fb2e63f83ed57221df930cebed9c0d3871"
  /\ lone_surrogate Run.surrogate = true
  /\ Strict.isChainValid Run.sha Run.ledger Run.surrogate_linked
     = Throw URIError Run.surrogate_linked.
Proof.
  split_and!; [|vm_compute; reflexivity..].
  apply reach_any with (ok := built_on_tip Run.sha), after_two_reach.
Qed.

(** *** C6 *)

(** C6, as amended.  [getAllBlocks] returns a new array that holds the
    ledger's block references in the ledger's order.  The array is a
    copy: whatever is later stored in it, the ledger's own sequence is
    unchanged.  The blocks are not copies: the new array and the
    ledger's refer to the same objects, and no block is allocated. *)
Theorem getAllBlocks_copies_the_array_only this s c :
  arrays s !! chain this = Some c ->
  exists a s',
    getAllBlocks this s = Ret a s'
    /\ a <> chain this
    /\ arrays s' !! a = Some c
    /\ arrays s' !! chain this = Some c
    /\ blocks s' = blocks s
    /\ forall items,
         chain_of this (Store (blocks s') (<[a := items]> (arrays s'))) = c.
Proof.
  intros Hc. pose proof (lookup_lt_Some _ _ _ Hc) as Hlt.
  exists (length (arrays s)), (Store (blocks s) (arrays s ++ [c])).
  split_and!.
  - apply getAllBlocks_Ret. eauto.
  - lia.
  - by apply list_lookup_middle.
  - by apply lookup_app_l_Some.
  - done.
  - intros items. unfold chain_of. cbn [arrays].
    rewrite list_lookup_insert_ne by lia.
    by rewrite (lookup_app_l_Some _ _ _ _ Hc).
Qed.

Lemma getAllBlocks_copies_the_array_only_witness :
  arrays Run.after_two !! chain Run.ledger = Some [0; 1; 2]%nat
  /\ exists a s',
       getAllBlocks Run.ledger Run.after_two = Ret a s'
       /\ a <> chain Run.ledger
       /\ arrays s' !! a = Some [0; 1; 2]%nat.
Proof.
  assert (arrays Run.after_two !! chain Run.ledger = Some [0; 1; 2]%nat) as Hc
    by (vm_compute; reflexivity).
  split; [exact Hc|].
  destruct (getAllBlocks_copies_the_array_only Run.ledger Run.after_two _ Hc)
    as (a & s' & Hret & Hne & Ha & _).
  exists a, s'. split_and!; [exact Hret|exact Hne|exact Ha].
Defined.

(** C6 fails as stated.  After two events a caller takes a snapshot
    and assigns to [data] of its second element: the ledger's
    [block[1]] now carries the caller's payload, and the chain that
    validated no longer does. *)
Lemma snapshot_shares_blocks :
  isChainValid Run.sha Run.ledger Run.after_two = Ret true Run.after_two
  /\ (a <- getAllBlocks Run.ledger ;;
      items <- get_array a ;;
      match items !! 1%nat with
      | Some r => tamper r (WriteData Run.forged)
      | None => throw TypeError
      end)%js Run.after_two = Ret tt Run.snapshot_written
  /\ (data <$> block_at Run.ledger Run.after_two 1) <> Some Run.forged
  /\ (data <$> block_at Run.ledger Run.snapshot_written 1) = Some Run.forged
  /\ isChainValid Run.sha Run.ledger Run.snapshot_written
     = Ret false Run.snapshot_written.
Proof.
  split_and!; try (vm_compute; reflexivity). vm_compute. discriminate.
Qed.

(** *** C7 *)

(** C7, as amended.  The first block of every ledger has [index = 0];
    its [previousHash] is ["0"] as long as the genesis object itself
    has not been appended again. *)
Theorem genesis_shape (SHA256 : string -> string) this s :
  reach SHA256 any_call this s ->
  exists gr g,
    chain_of this s !! 0%nat = Some gr
    /\ block_at this s 0 = Some g
    /\ index g = 0
    /\ (gr ∉ drop 1 (chain_of this s) -> previousHash g = "0").
Proof. apply reach_genesis. Qed.

Lemma genesis_shape_witness :
  reach Run.sha any_call Run.ledger Run.after_two
  /\ exists g, block_at Run.ledger Run.after_two 0 = Some g
               /\ index g = 0 /\ previousHash g = "0".
Proof.
  assert (reach Run.sha any_call Run.ledger Run.after_two) as Hreach
    by exact (reach_any _ _ _ _ after_two_reach).
  split; [exact Hreach|].
  destruct (genesis_shape Run.sha Run.ledger Run.after_two Hreach)
    as (gr & g & Hgr & Hg & Hi & Hp).
  exists g. split_and!; [exact Hg|exact Hi|]. apply Hp.
  assert (chain_of Run.ledger Run.after_two = [0; 1; 2]%nat) as Hc
    by (vm_compute; reflexivity).
  rewrite Hc in Hgr |- *. injection Hgr as <-. cbn [drop].
  intros Hin. apply list_elem_of_In in Hin. cbn in Hin. intuition discriminate.
Defined.

(** C7 fails as stated.  [addBlock(getLatestBlock())] on a new ledger
    relinks the genesis block to its own former hash and mines it. *)
Lemma genesis_relinked_when_reappended :
  reach Run.sha any_call Run.ledger Run.genesis_appended
  /\ chain_of Run.ledger Run.genesis_appended = [0; 0]%nat
  /\ (previousHash <$> block_at Run.ledger Run.genesis_appended 0)
     = Some "c92da9b80869fc620331273f7e20bc92f519f23c34a230cdbf1b7b62bd3e9486"
  /\ (previousHash <$> block_at Run.ledger Run.genesis_appended 0) <> Some "0".
Proof.
  split_and!; [apply genesis_appended_reach|vm_compute; reflexivity..|].
  vm_compute. discriminate.
Qed.

(** *** C8 *)

(** C8.  [getBlockByHash] always answers and leaves the store as it
    is: with the first block of the chain whose stored hash is the
    argument, or with [null] when no block of the chain has that
    hash. *)
Theorem getBlockByHash_total this h s :
  well_typed this s ->
  exists o,
    getBlockByHash this h s = Ret o s
    /\ match o with
       | Some r =>
           exists i b,
             chain_of this s !! i = Some r
             /\ block_at this s i = Some b
             /\ hash b = h
             /\ forall j b', (j < i)%nat ->
                  block_at this s j = Some b' -> hash b' <> h
       | None =>
           forall j b', block_at this s j = Some b' -> hash b' <> h
       end.
Proof.
  intros [[c Hc] Hall]. pose proof (chain_of_Some _ _ _ Hc) as Hco.
  rewrite Hco in Hall.
  destruct (find_hash_spec h c s Hall) as (o & Ho & Hspec).
  exists o. split.
  - unfold getBlockByHash, bind, get_array. by rewrite Hc.
  - destruct o as [r|].
    + destruct Hspec as (i & b & Hi & Hb & Hh & Hfirst).
      exists i, b. rewrite Hco. split_and!; [done| |done|].
      * apply block_at_Some. rewrite Hco. eauto.
      * intros j b' Hj (r' & Hr' & Hb')%block_at_Some. rewrite Hco in Hr'. eauto.
    + intros j b' (r' & Hr' & Hb')%block_at_Some. rewrite Hco in Hr'. eauto.
Qed.

Lemma getBlockByHash_total_witness :
  well_typed Run.ledger Run.after_two
  /\ getBlockByHash Run.ledger
       "deadbeefdeadbeefdeadbeefdeadbeefdeadbeefdeadbeefdeadbeefdeadbeef"
       Run.after_two
     = Ret None Run.after_two
  /\ exists o,
       getBlockByHash Run.ledger
         "002648608c3e6ed86e123c6a2098bd1b85a3ee47a976713f141820be4fd2f16f"
         Run.after_two
       = Ret o Run.after_two.
Proof.
  split_and!; [apply after_two_well_typed|vm_compute; reflexivity|].
  destruct (getBlockByHash_total Run.ledger
              "002648608c3e6ed86e123c6a2098bd1b85a3ee47a976713f141820be4fd2f16f"
              Run.after_two after_two_well_typed) as (o & Ho & _).
  exists o. exact Ho.
Defined.

(** *** C9 *)

(** C9.  In every chain produced by genesis creation followed by
    [addBlock] appends, the hash of every block after the first starts
    with as many ['0'] characters as the ledger's difficulty, which is
    2.  Nothing is said of the first block. *)
Theorem proof_of_work_after_genesis (SHA256 : string -> string) this s :
  reach SHA256 any_call this s ->
  difficulty this = 2%nat
  /\ forall i b,
       (1 <= i)%nat -> block_at this s i = Some b ->
       leading_zeros (difficulty this) (hash b).
Proof.
  intros Hreach. split.
  - by destruct (reach_well_typed _ _ _ _ Hreach).
  - by apply (reach_leading_zeros SHA256).
Qed.

Lemma proof_of_work_after_genesis_witness :
  reach Run.sha any_call Run.ledger Run.appended_twice
  /\ block_at Run.ledger Run.appended_twice 2
     = Some (Run.block_of Run.appended_twice 1)
  /\ leading_zeros 2 (hash (Run.block_of Run.appended_twice 1)).
Proof.
  split_and!; [apply appended_twice_reach|vm_compute; reflexivity|].
  apply (proj2 (proof_of_work_after_genesis Run.sha Run.ledger
                  Run.appended_twice appended_twice_reach) 2%nat).
  - repeat constructor.
  - vm_compute. reflexivity.
Defined.

(** The first block is not mined: here its hash starts with "da". *)
Example genesis_is_not_mined :
  reach Run.sha any_call Run.ledger Run.after_two
  /\ (hash <$> block_at Run.ledger Run.after_two 0)
     = Some "daa977ddc32f01990662021bc43519fb2e63f83ed57221df930cebed9c0d3871".
Proof.
  split; [exact (reach_any _ _ _ _ after_two_reach)|vm_compute; reflexivity].
Qed.

(** *** C10 *)

(** C10.  Whatever block is passed to [addBlock], and whatever
    [previousHash] it was built with: [addBlock] returns exactly when
    [mineBlock] returns on the store in which the block's
    [previousHash] has been replaced by the stored hash of the current
    tip; the block then still names that hash, it is pushed onto the
    chain, and the value returned is the hash mining left in it. *)
Theorem addBlock_relinks_mines_pushes (SHA256 : string -> string)
    fuel this newBlock s c t tip b :
  arrays s !! chain this = Some c ->
  last c = Some t ->
  blocks s !! t = Some tip ->
  blocks s !! newBlock = Some b ->
  forall h s',
    addBlock SHA256 fuel this newBlock s = Ret h s' <->
    exists b',
      mineBlock SHA256 fuel newBlock (difficulty this)
        (Store (<[newBlock := set_previousHash (hash tip) b]> (blocks s))
               (arrays s))
      = Ret tt (Store (<[newBlock := b']> (blocks s)) (arrays s))
      /\ previousHash b' = hash tip
      /\ s' = Store (<[newBlock := b']> (blocks s))
                    (<[chain this := c ++ [newBlock]]> (arrays s))
      /\ block_at this s' (length c) = Some b'
      /\ h = hash b'.
Proof.
  intros Hc Ht Htip Hb h s'. rewrite addBlock_Ret. split.
  - intros (c0 & t0 & tip0 & b0 & b' & Hc0 & Ht0 & Htip0 & Hb0 & Hmine & -> & ->).
    assert (c0 = c) as -> by congruence. assert (t0 = t) as -> by congruence.
    assert (tip0 = tip) as -> by congruence. assert (b0 = b) as -> by congruence.
    exists b'. split_and!; [done| |done| |done].
    + eapply (mineBlock_Ret SHA256) in Hmine as (b2 & Heq & Hm & _); cbn [blocks].
      2:{ apply list_lookup_insert_eq. eauto using lookup_lt_Some. }
      injection Heq as Heq. rewrite list_insert_insert_eq in Heq.
      apply (f_equal (fun l => l !! newBlock)) in Heq.
      rewrite !list_lookup_insert_eq in Heq by eauto using lookup_lt_Some.
      injection Heq as ->. by destruct Hm as (_ & _ & _ & -> & _).
    + by apply (block_at_push_new _ _ _ _ b).
  - intros (b' & Hmine & _ & -> & _ & ->). exists c, t, tip, b, b'. by split_and!.
Qed.

Lemma addBlock_relinks_mines_pushes_witness :
  addBlock Run.sha 1 Run.ledger 1 Run.stale
  = Ret "00d6c2de3bc9bee1164bfbd7b198f5dde3229269e09e2118178d8169fd2952fd"
        Run.lucky
  /\ (previousHash <$> blocks Run.stale !! 1%nat) = Some ""
  /\ exists b',
       previousHash b' = hash (Run.block_of Run.stale 0)
       /\ block_at Run.ledger Run.lucky 1 = Some b'.
Proof.
  assert (addBlock Run.sha 1 Run.ledger 1 Run.stale
          = Ret "00d6c2de3bc9bee1164bfbd7b198f5dde3229269e09e2118178d8169fd2952fd"
                Run.lucky) as Hadd by (vm_compute; reflexivity).
  split_and!; [exact Hadd|vm_compute; reflexivity|].
  destruct (proj1 (addBlock_relinks_mines_pushes Run.sha 1 Run.ledger 1 Run.stale
                     [0%nat] 0%nat (Run.block_of Run.stale 0)
                     (Run.block_of Run.stale 1)
                     ltac:(vm_compute; reflexivity) ltac:(vm_compute; reflexivity)
                     ltac:(vm_compute; reflexivity) ltac:(vm_compute; reflexivity)
                     _ _) Hadd) as (b' & _ & Hp & Hs & Hat & _).
  exists b'. split; [exact Hp|exact Hat].
Defined.

(* ===================================================================== *)
(** ** Further properties of the ledger *)
(* ===================================================================== *)

Lemma leading_zeros_le d d' h :
  (d' <= d)%nat -> leading_zeros d h -> leading_zeros d' h.
Proof. intros Hd Hz i Hi. apply Hz. lia. Qed.

Lemma well_typed_push this s c r b b' :
  well_typed this s ->
  arrays s !! chain this = Some c ->
  blocks s !! r = Some b ->
  well_typed this (Store (<[r := b']> (blocks s))
                         (<[chain this := c ++ [r]]> (arrays s))).
Proof.
  intros [_ Hall] Hc Hb.
  destruct (push_view this s c r b b' Hc Hb) as [Hc' Hb'].
  split.
  - cbn [arrays]. rewrite list_lookup_insert_eq by eauto using lookup_lt_Some.
    eauto.
  - rewrite Hc'. rewrite (chain_of_Some _ _ _ Hc) in Hall.
    apply Forall_app. split.
    + eapply Forall_impl; [exact Hall|]. intros x Hx. cbn beta in Hx.
      rewrite Hb'. case_decide; eauto.
    + constructor; [|constructor]. rewrite Hb'. by rewrite decide_True.
Qed.

Lemma stale_reach : reach Run.sha any_call Run.ledger Run.stale.
Proof.
  apply (reach_call _ _ _ Run.fresh (NewBlock 1 1700000000143 (Json.Str "tx") ""));
    [apply fresh_reach|reflexivity|vm_compute; reflexivity].
Qed.

Lemma stale_well_typed : well_typed Run.ledger Run.stale.
Proof. eapply reach_well_typed, stale_reach. Qed.

(** *** X1 *)

(** X1.  The string [addBlock] returns can be looked up at once:
    [getBlockByHash] answers with a block of the chain whose stored
    hash is that string, never with [null]; when the appended block
    was not in the chain before and no block of the chain had that
    hash, the answer is the appended block itself. *)
Theorem appended_block_is_found (SHA256 : string -> string)
    fuel this r s h s' :
  well_typed this s ->
  addBlock SHA256 fuel this r s = Ret h s' ->
  exists r' b,
    getBlockByHash this h s' = Ret (Some r') s'
    /\ r' ∈ chain_of this s'
    /\ blocks s' !! r' = Some b
    /\ hash b = h
    /\ (r ∉ chain_of this s ->
        (forall j b0, block_at this s j = Some b0 -> hash b0 <> h) ->
        r' = r).
Proof.
  intros Hwt Hadd.
  apply addBlock_effect in Hadd
    as (c & t & tip & b & b' & Hc & Ht & Htip & Hb & Hm & Hz & -> & ->).
  pose proof (well_typed_push this s c r b b' Hwt Hc Hb) as Hwt'.
  destruct (push_view this s c r b b' Hc Hb) as [Hc' Hb'].
  set (s' := Store _ _) in *.
  destruct Hwt' as [_ Hall']. rewrite Hc' in Hall'.
  destruct (find_hash_spec (hash b') (c ++ [r]) s' Hall') as (o & Ho & Hspec).
  assert (getBlockByHash this (hash b') s' = Ret o s') as Hget.
  { unfold getBlockByHash, bind, get_array.
    assert (arrays s' !! chain this = Some (c ++ [r])) as ->; [|done].
    unfold s'. cbn [arrays].
    apply list_lookup_insert_eq. eauto using lookup_lt_Some. }
  assert (blocks s' !! r = Some b') as Hr by (rewrite Hb'; by rewrite decide_True).
  destruct o as [r'|].
  - destruct Hspec as (i & y & Hi & Hy & Hh & Hfirst).
    exists r', y. rewrite Hc'. split_and!; [done| |done|done|].
    + by eapply list_elem_of_lookup_2.
    + intros Hnotin Hnone.
      apply lookup_snoc_Some in Hi as [[Hlt Hi]|[_ ?]]; [|done].
      exfalso. assert (r' <> r) as Hne
        by (intros ->; by eapply Hnotin; rewrite (chain_of_Some _ _ _ Hc);
            eapply list_elem_of_lookup_2).
      rewrite Hb', decide_False in Hy by done.
      apply (Hnone i y); [|done]. apply block_at_Some.
      rewrite (chain_of_Some _ _ _ Hc). eauto.
  - exfalso. apply (Hspec (length c) r b'); [|done..].
    by apply list_lookup_middle.
Qed.

Lemma appended_block_is_found_witness :
  well_typed Run.ledger Run.stale
  /\ addBlock Run.sha 1 Run.ledger 1 Run.stale
     = Ret "00d6c2de3bc9bee1164bfbd7b198f5dde3229269e09e2118178d8169fd2952fd"
           Run.lucky
  /\ exists r',
       getBlockByHash Run.ledger
         "00d6c2de3bc9bee1164bfbd7b198f5dde3229269e09e2118178d8169fd2952fd"
         Run.lucky
       = Ret (Some r') Run.lucky.
Proof.
  assert (addBlock Run.sha 1 Run.ledger 1 Run.stale
          = Ret "00d6c2de3bc9bee1164bfbd7b198f5dde3229269e09e2118178d8169fd2952fd"
                Run.lucky) as Hadd by (vm_compute; reflexivity).
  split_and!; [apply stale_well_typed|exact Hadd|].
  destruct (appended_block_is_found Run.sha 1 Run.ledger 1 Run.stale _ _
              stale_well_typed Hadd) as (r' & b & Hget & _).
  exists r'. exact Hget.
Defined.

(** *** X2 *)

(** X2.  The chain is append-only under every call: constructing a
    block, [createSABlock] and [getAllBlocks] leave the sequence of
    references as it is, and [addBlock] adds exactly its argument at
    the end, which [getLatestBlock] then returns. *)
Theorem chain_is_append_only (SHA256 : string -> string) this c s s' :
  well_typed this s ->
  exec SHA256 this c s = Ret tt s' ->
  match c with
  | AddBlock _ r =>
      chain_of this s' = chain_of this s ++ [r]
      /\ getLatestBlock this s' = Ret (Some r) s'
  | _ => chain_of this s' = chain_of this s
  end.
Proof.
  intros Hwt H. destruct (call_cases c) as [(fuel & r & ->)|Hn].
  - apply exec_AddBlock in H as (h & H).
    apply addBlock_effect in H
      as (l & t & tip & b & b' & Hl & Ht & Htip & Hb & _ & _ & -> & _).
    destruct (push_view this s l r b b' Hl Hb) as [Hc' _].
    rewrite Hc', (chain_of_Some _ _ _ Hl). split; [done|].
    apply getLatestBlock_Ret. exists (l ++ [r]). split_and!; [|by rewrite last_snoc|done].
    cbn [arrays]. apply list_lookup_insert_eq. eauto using lookup_lt_Some.
  - destruct (exec_frame SHA256 this c s s' Hn H Hwt) as (Hc & _).
    destruct c; try done. by destruct (Hn fuel newBlock).
Qed.

Lemma chain_is_append_only_witness :
  well_typed Run.ledger Run.stale
  /\ exec Run.sha Run.ledger (AddBlock 1 1) Run.stale = Ret tt Run.lucky
  /\ chain_of Run.ledger Run.lucky = chain_of Run.ledger Run.stale ++ [1%nat].
Proof.
  assert (exec Run.sha Run.ledger (AddBlock 1 1) Run.stale = Ret tt Run.lucky)
    as Hex by (vm_compute; reflexivity).
  split_and!; [apply stale_well_typed|exact Hex|].
  exact (proj1 (chain_is_append_only Run.sha Run.ledger (AddBlock 1 1)
                  Run.stale Run.lucky stale_well_typed Hex)).
Defined.

(** *** One witnessed event *)

(** The block [createSABlock] builds for the record
    [createBlockchainRecord] made. *)
Lemma recordEvent_inv (SHA256 : string -> string)
    fuel this sa now0 now1 now2 s h s' :
  recordEvent SHA256 fuel this sa now0 now1 now2 s = Ret h s' ->
  exists c t tip,
    arrays s !! chain this = Some c /\ last c = Some t
    /\ blocks s !! t = Some tip
    /\ addBlock SHA256 fuel this (length (blocks s))
         (Store (blocks s ++
                   [mkBlock (Z.of_nat (length c)) now2
                      (event_payload SHA256 sa now1 (hash tip)) (hash tip) 0
                      (calculateHash SHA256
                         (mkBlock (Z.of_nat (length c)) now2
                            (event_payload SHA256 sa now1 (hash tip))
                            (hash tip) 0 ""))])
                (arrays s))
       = Ret h s'.
Proof.
  unfold recordEvent. intros H.
  apply bind_Ret in H as (r & s1 & Hrec & H).
  unfold createBlockchainRecord in Hrec.
  apply bind_Ret in Hrec as (e & s2 & (c & Hc & -> & ->)%getLatestBlock_Ret & Hrec).
  apply bind_Ret in Hrec as (tip & s2 & (t & Ht & Htip & ->)%deref_Ret & Hrec).
  injection Hrec as <- <-.
  apply bind_Ret in H as (x & s2 & Hnew & H).
  apply createSABlock_Ret in Hnew as (c' & t' & tip' & Hc' & Ht' & Htip' & Hnew).
  assert (c' = c) as -> by congruence. assert (t' = t) as -> by congruence.
  assert (tip' = tip) as -> by congruence.
  rewrite Block_new_Ret in Hnew. injection Hnew as <- <-.
  exists c, t, tip. by split_and!.
Qed.

(** What one event adds to a ledger, whatever the store it starts
    in. *)
Lemma recordEvent_step (SHA256 : string -> string)
    fuel this sa now0 now1 now2 s h s' :
  well_typed this s ->
  recordEvent SHA256 fuel this sa now0 now1 now2 s = Ret h s' ->
  exists tip b,
    last (chain_of this s) ≫= (fun t => blocks s !! t) = Some tip
    /\ chain_of this s' = chain_of this s ++ [length (blocks s)]
    /\ well_typed this s'
    /\ (forall i, (i < length (chain_of this s))%nat ->
                  block_at this s' i = block_at this s i)
    /\ block_at this s' (length (chain_of this s)) = Some b
    /\ block_at this s (length (chain_of this s) - 1) = Some tip
    /\ index b = Z.of_nat (length (chain_of this s))
    /\ timestamp b = now2
    /\ data b = event_payload SHA256 sa now1 (hash tip)
    /\ previousHash b = hash tip
    /\ hash b = calculateHash SHA256 b
    /\ leading_zeros (difficulty this) (hash b)
    /\ h = hash b.
Proof.
  intros Hwt (c & t & tip & Hc & Ht & Htip & Hadd)%recordEvent_inv.
  set (b0 := mkBlock _ _ _ _ _ _) in Hadd.
  destruct (new_block_frame this s b0 Hwt) as (Hc1 & Hb1 & Hwt1).
  set (s1 := Store (blocks s ++ [b0]) (arrays s)) in *.
  pose proof (chain_of_Some _ _ _ Hc) as Hco.
  assert (length (blocks s) ∉ c) as Hfresh.
  { destruct Hwt as [_ Hall]. rewrite Hco, Forall_forall in Hall.
    intros [_ Hlt%lookup_lt_Some]%Hall. lia. }
  apply addBlock_effect in Hadd
    as (c' & t' & tip' & b & b' & Hc' & Ht' & Htip' & Hb & Hm & Hz & -> & ->).
  assert (c' = c) as -> by (cbn [arrays s1] in Hc'; congruence).
  assert (t' = t) as -> by congruence.
  assert (tip' = tip) as ->.
  { cbn [blocks s1] in Htip'. rewrite (lookup_app_l_Some _ _ _ _ Htip) in Htip'.
    congruence. }
  assert (b = b0) as ->.
  { cbn [blocks s1] in Hb. rewrite list_lookup_middle in Hb by done. congruence. }
  assert (arrays s1 !! chain this = Some c) as Hc1' by done.
  destruct (push_view this s1 c (length (blocks s)) b0 b' Hc1' Hb) as [Hc2 _].
  assert (set_previousHash (hash tip) b0 = b0) as Heq by done.
  rewrite Heq in Hm. destruct Hm as (Hi & Hts & Hd & Hp & _ & Hh).
  exists tip, b'. rewrite Hco. split_and!.
  - rewrite Ht. exact Htip.
  - exact Hc2.
  - by eapply well_typed_push.
  - intros i Hi'. rewrite (block_at_push_notin _ _ _ _ b0) by done. apply Hb1.
  - by apply (block_at_push_new _ _ _ _ b0).
  - apply block_at_Some. exists t. rewrite Hco. split; [|done].
    by apply last_lookup_Some.
  - by rewrite Hi.
  - by rewrite Hts.
  - by rewrite Hd.
  - by rewrite Hp.
  - by destruct Hh as [->|Hh].
  - done.
  - done.
Qed.

Lemma recorded_reach (SHA256 : string -> string) this n s :
  recorded SHA256 this n s -> reach SHA256 (built_on_tip SHA256) this s.
Proof.
  induction 1 as [now s0 s H|n s fuel sa now0 now1 now2 h s' _ IH H].
  - by eapply reach_new.
  - by eapply recordEvent_reach.
Qed.

Lemma after_two_recorded : recorded Run.sha Run.ledger 2 Run.after_two.
Proof.
  apply (recorded_event _ _ 1 Run.after_one 2 Run.sa2
           1700000002383 1700000002383 1700000002383
           "002648608c3e6ed86e123c6a2098bd1b85a3ee47a976713f141820be4fd2f16f").
  - apply (recorded_event _ _ 0 Run.fresh 3 Run.sa1
             1700000001042 1700000001042 1700000001042
             "001a9ed4029c131eb63d8b402f13c140546e6fcc46305804c43164606ab9ebb7").
    + apply (recorded_new _ _ Run.now0 empty_store). vm_compute. reflexivity.
    + vm_compute. reflexivity.
  - vm_compute. reflexivity.
Qed.

Lemma after_one_well_typed : well_typed Run.ledger Run.after_one.
Proof.
  eapply reach_well_typed.
  apply (recordEvent_reach Run.sha _ Run.fresh 3 Run.sa1
           1700000001042 1700000001042 1700000001042
           "001a9ed4029c131eb63d8b402f13c140546e6fcc46305804c43164606ab9ebb7");
    [apply fresh_reach|vm_compute; reflexivity].
Qed.

(** *** X3 *)

(** X3.  Recording an event neither breaks nor repairs the chain.
    When the three statements of [recordEvent] have returned (the key
    and the message of the new block having no lone surrogate, without
    which the program does not get that far), [isChainValid] ends
    after them as it ends before them: it returns [true], returns
    [false] or throws a URIError in the one store exactly when it does
    in the other.  A chain that has been tampered with stays invalid
    however many events follow. *)
Theorem recordEvent_keeps_the_verdict (SHA256 : string -> string)
    fuel this sa now0 now1 now2 s h s' :
  well_typed this s ->
  recordEvent SHA256 fuel this sa now0 now1 now2 s = Ret h s' ->
  lone_surrogate (sa_key sa) = false ->
  hashable_at this s' (length (chain_of this s)) ->
  (forall v, Strict.isChainValid SHA256 this s = Ret v s <->
             Strict.isChainValid SHA256 this s' = Ret v s')
  /\ (Strict.isChainValid SHA256 this s = Throw URIError s <->
      Strict.isChainValid SHA256 this s' = Throw URIError s').
Proof.
  intros Hwt H _ Hnew_hashable.
  destruct (recordEvent_step SHA256 _ _ _ _ _ _ _ _ _ Hwt H)
    as (tip & b & _ & Hc & Hwt' & Hold & Hnew & Htip & _ & _ & _ & Hp & Hh & _).
  set (n := length (chain_of this s)) in *.
  assert (length (chain_of this s') = S n) as Hlen
    by (rewrite Hc, length_app; simpl; lia).
  assert (0 < n)%nat as Hpos.
  { apply block_at_lt in Htip. unfold n in *. lia. }
  assert (forall i, (1 <= i < n)%nat ->
            (hashable_at this s' i <-> hashable_at this s i)
            /\ (intact_at SHA256 this s' i <-> intact_at SHA256 this s i))
    as Hsame.
  { intros i Hi. unfold hashable_at, intact_at. by rewrite !Hold by lia. }
  assert (intact_at SHA256 this s' n) as Hlast.
  { exists tip, b. rewrite Hold by lia. by split_and!. }
  destruct (strict_isChainValid_iff SHA256 this s Hwt) as (Ht & Hf & Hx).
  destruct (strict_isChainValid_iff SHA256 this s' Hwt') as (Ht' & Hf' & Hx').
  rewrite Hlen in Ht', Hf', Hx'. fold n in Ht, Hf, Hx.
  assert ((forall i, (1 <= i < S n)%nat ->
             hashable_at this s' i /\ intact_at SHA256 this s' i)
          <-> (forall i, (1 <= i < n)%nat ->
                 hashable_at this s i /\ intact_at SHA256 this s i)) as Hall.
  { split; intros Hall i Hi.
    - destruct (Hsame i Hi) as [H1 H2]. rewrite <- H1, <- H2.
      apply Hall. lia.
    - destruct (decide (i = n)) as [->|Hne]; [done|].
      destruct (Hsame i ltac:(lia)) as [H1 H2]. rewrite H1, H2.
      apply Hall. lia. }
  assert (forall i, (1 <= i < n)%nat ->
            (forall k, (1 <= k < i)%nat ->
               hashable_at this s' k /\ intact_at SHA256 this s' k)
            <-> (forall k, (1 <= k < i)%nat ->
                   hashable_at this s k /\ intact_at SHA256 this s k))
    as Hbefore.
  { intros i Hi. split; intros Hb k Hk;
      destruct (Hsame k ltac:(lia)) as [H1 H2].
    - rewrite <- H1, <- H2. by apply Hb.
    - rewrite H1, H2. by apply Hb. }
  split.
  - intros [|].
    + by rewrite Ht, Ht', Hall.
    + rewrite Hf, Hf'. split.
      * intros (i & Hi & Hhi & Hni & Hbi). exists i.
        destruct (Hsame i Hi) as [H1 H2].
        split; [lia|]. rewrite H1, H2. split; [done|]. split; [done|].
        by apply Hbefore.
      * intros (i & Hi & Hhi & Hni & Hbi).
        destruct (decide (i = n)) as [->|Hne]; [done|].
        destruct (Hsame i ltac:(lia)) as [H1 H2].
        exists i. split; [lia|]. rewrite <- H1, <- H2.
        split; [done|]. split; [done|]. apply Hbefore; [lia|done].
  - rewrite Hx, Hx'. split.
    + intros (i & Hi & Hni & Hbi). exists i.
      destruct (Hsame i Hi) as [H1 H2].
      split; [lia|]. rewrite H1. split; [done|]. by apply Hbefore.
    + intros (i & Hi & Hni & Hbi).
      destruct (decide (i = n)) as [->|Hne]; [done|].
      destruct (Hsame i ltac:(lia)) as [H1 H2].
      exists i. split; [lia|]. rewrite <- H1.
      split; [done|]. apply Hbefore; [lia|done].
Qed.

Lemma recordEvent_keeps_the_verdict_witness :
  well_typed Run.ledger Run.after_one
  /\ recordEvent Run.sha 2 Run.ledger Run.sa2
       1700000002383 1700000002383 1700000002383 Run.after_one
     = Ret "002648608c3e6ed86e123c6a2098bd1b85a3ee47a976713f141820be4fd2f16f"
           Run.after_two
  /\ (Strict.isChainValid Run.sha Run.ledger Run.after_one
      = Ret true Run.after_one <->
      Strict.isChainValid Run.sha Run.ledger Run.after_two
      = Ret true Run.after_two).
Proof.
  assert (recordEvent Run.sha 2 Run.ledger Run.sa2
            1700000002383 1700000002383 1700000002383 Run.after_one
          = Ret "002648608c3e6ed86e123c6a2098bd1b85a3ee47a976713f141820be4fd2f16f"
                Run.after_two) as H by (vm_compute; reflexivity).
  assert (lone_surrogate (sa_key Run.sa2) = false) as Hk
    by (vm_compute; reflexivity).
  assert (hashable_at Run.ledger Run.after_two
            (length (chain_of Run.ledger Run.after_one))) as Hn.
  { exists (Run.block_of Run.after_two 2). split; vm_compute; reflexivity. }
  split_and!; [apply after_one_well_typed|exact H|].
  exact (proj1 (recordEvent_keeps_the_verdict Run.sha _ _ _ _ _ _ _ _ _
                  after_one_well_typed H Hk Hn) true).
Defined.

(** *** X4 *)

(** X4.  After [n] witnessed events on a new ledger the chain holds
    [n + 1] blocks and the block at position [i] has [index = i]:
    [createSABlock] numbers a block by the length of the chain and the
    block is appended before the next one is built. *)
Theorem witnessed_blocks_are_numbered (SHA256 : string -> string) this n s :
  recorded SHA256 this n s ->
  length (chain_of this s) = S n
  /\ forall i b, block_at this s i = Some b -> index b = Z.of_nat i.
Proof.
  induction 1 as [now s0 s H|n s fuel sa now0 now1 now2 h s' Hrec [IHlen IHidx] H].
  - apply ctor_view in H as (_ & gr & g & Harr & Hg & Hi & _).
    rewrite (chain_of_Some _ _ _ Harr). split; [done|].
    intros i b (r & Hr & Hb)%block_at_Some.
    rewrite (chain_of_Some _ _ _ Harr) in Hr.
    destruct i as [|i]; [|done]. injection Hr as <-.
    assert (b = g) as -> by congruence. exact Hi.
  - destruct (reach_well_typed _ _ _ _ (recorded_reach _ _ _ _ Hrec))
      as (_ & Hwt & _).
    destruct (recordEvent_step SHA256 _ _ _ _ _ _ _ _ _ Hwt H)
      as (tip & b & _ & Hc & _ & Hold & Hnew & _ & Hi & _).
    rewrite Hc, length_app, IHlen. split; [simpl; lia|].
    intros i y Hy. pose proof (block_at_lt _ _ _ _ Hy) as Hlt.
    rewrite Hc, length_app in Hlt. simpl in Hlt.
    destruct (decide (i = length (chain_of this s))) as [->|].
    + rewrite Hnew in Hy. injection Hy as <-. done.
    + rewrite Hold in Hy by lia. by apply IHidx.
Qed.

Lemma witnessed_blocks_are_numbered_witness :
  recorded Run.sha Run.ledger 2 Run.after_two
  /\ length (chain_of Run.ledger Run.after_two) = 3%nat
  /\ block_at Run.ledger Run.after_two 2 = Some (Run.block_of Run.after_two 2)
  /\ index (Run.block_of Run.after_two 2) = 2.
Proof.
  destruct (witnessed_blocks_are_numbered Run.sha Run.ledger 2 Run.after_two
              after_two_recorded) as [Hlen Hidx].
  assert (block_at Run.ledger Run.after_two 2
          = Some (Run.block_of Run.after_two 2)) as Hb by (vm_compute; reflexivity).
  split_and!; [apply after_two_recorded|exact Hlen|exact Hb|].
  exact (Hidx 2%nat _ Hb).
Defined.

(** *** X5 *)

(** X5.  What a witnessed event leaves at the tip: a block numbered by
    its position, stamped with the second clock read, linked to the
    block before it, whose stored hash is the digest of its fields,
    starts with as many zeros as the difficulty and is the string
    returned.  Its payload holds the digest of the key, not the key,
    the first clock read of [createSABlock] as [timestamp] (not the
    one [createBlockchainRecord] put in the record) and once more the
    hash of the block before.  No earlier block changes. *)
Theorem recordEvent_appends_one_sealed_block (SHA256 : string -> string)
    fuel this sa now0 now1 now2 s h s' :
  well_typed this s ->
  recordEvent SHA256 fuel this sa now0 now1 now2 s = Ret h s' ->
  exists tip b,
    block_at this s (length (chain_of this s) - 1) = Some tip
    /\ chain_of this s' = chain_of this s ++ [length (blocks s)]
    /\ (forall i, (i < length (chain_of this s))%nat ->
                  block_at this s' i = block_at this s i)
    /\ block_at this s' (length (chain_of this s)) = Some b
    /\ index b = Z.of_nat (length (chain_of this s))
    /\ timestamp b = now2
    /\ data b = event_payload SHA256 sa now1 (hash tip)
    /\ previousHash b = hash tip
    /\ hash b = calculateHash SHA256 b
    /\ leading_zeros (difficulty this) (hash b)
    /\ h = hash b.
Proof.
  intros Hwt H.
  destruct (recordEvent_step SHA256 _ _ _ _ _ _ _ _ _ Hwt H)
    as (tip & b & _ & Hc & _ & Hold & Hnew & Htip & Hrest).
  destruct Hrest as (? & ? & ? & ? & ? & ? & ?).
  exists tip, b. by split_and!.
Qed.

Lemma recordEvent_appends_one_sealed_block_witness :
  well_typed Run.ledger Run.after_one
  /\ recordEvent Run.sha 2 Run.ledger Run.sa2
       1700000002383 1700000002383 1700000002383 Run.after_one
     = Ret "002648608c3e6ed86e123c6a2098bd1b85a3ee47a976713f141820be4fd2f16f"
           Run.after_two
  /\ exists b,
       block_at Run.ledger Run.after_two
         (length (chain_of Run.ledger Run.after_one)) = Some b
       /\ hash b
          = "002648608c3e6ed86e123c6a2098bd1b85a3ee47a976713f141820be4fd2f16f".
Proof.
  assert (recordEvent Run.sha 2 Run.ledger Run.sa2
            1700000002383 1700000002383 1700000002383 Run.after_one
          = Ret "002648608c3e6ed86e123c6a2098bd1b85a3ee47a976713f141820be4fd2f16f"
                Run.after_two) as H by (vm_compute; reflexivity).
  split_and!; [apply after_one_well_typed|exact H|].
  destruct (recordEvent_appends_one_sealed_block Run.sha _ _ _ _ _ _ _ _ _
              after_one_well_typed H)
    as (tip & b & _ & _ & _ & Hb & _ & _ & _ & _ & _ & _ & Hh).
  exists b. split; [exact Hb|]. symmetry. exact Hh.
Defined.

(** *** Mining *)

(** *** X6 *)



(** *** X7 *)

(** X7.  A sealed block stays sealed: once [mineBlock] has returned
    for difficulty [d], calling it again for the same or a lower
    difficulty returns at the first test of the loop condition and
    changes nothing. *)
Theorem mining_again_changes_nothing (SHA256 : string -> string)
    fuel this d s s' b :
  blocks s !! this = Some b ->
  mineBlock SHA256 fuel this d s = Ret tt s' ->
  forall d' fuel', (d' <= d)%nat ->
    mineBlock SHA256 (S fuel') this d' s' = Ret tt s'.
Proof.
  intros Hb H d' fuel' Hd.
  destruct (mineBlock_Ret SHA256 _ _ _ _ _ _ H Hb) as (b' & -> & _ & Hz).
  assert (Array_join_0 (d' + 1) = ret (zeros d')) as Hjoin.
  { unfold mineBlock, bind, Array_join_0 in H |- *.
    rewrite !Nat.add_1_r in *.
    destruct (Z.ltb_spec 4294967295 (Z.of_nat (S d))) as [|Hok]; [done|].
    destruct (Z.ltb_spec 4294967295 (Z.of_nat (S d'))) as [|_]; [lia|].
    by rewrite join_zeros. }
  unfold mineBlock, bind. rewrite Hjoin. unfold ret at 1.
  simpl mine_loop. unfold bind, get_block. cbn [blocks].
  rewrite list_lookup_insert_eq by eauto using lookup_lt_Some.
  apply (leading_zeros_le _ _ _ Hd), substring_zeros in Hz.
  rewrite Hz, String.eqb_refl. done.
Qed.

Lemma mining_again_changes_nothing_witness :
  blocks Run.draft !! 0%nat = Some (Run.block_of Run.draft 0)
  /\ mineBlock Run.sha 2 0 2 Run.draft = Ret tt Run.sealed
  /\ mineBlock Run.sha 1 0 1 Run.sealed = Ret tt Run.sealed.
Proof.
  assert (blocks Run.draft !! 0%nat = Some (Run.block_of Run.draft 0)) as Hb
    by (vm_compute; reflexivity).
  assert (mineBlock Run.sha 2 0 2 Run.draft = Ret tt Run.sealed) as Hm
    by (vm_compute; reflexivity).
  split_and!; [exact Hb|exact Hm|].
  apply (mining_again_changes_nothing Run.sha 2 0 2 Run.draft Run.sealed
           _ Hb Hm 1%nat 0%nat). lia.
Defined.

(** *** X8 *)

(** X8.  [addBlock] touches one block and one array: the block it is
    given keeps [index], [timestamp] and [data]; every other block and
    every array but the chain is as before; nothing is allocated. *)
Theorem addBlock_changes_one_block_and_the_chain (SHA256 : string -> string)
    fuel this r s h s' b :
  blocks s !! r = Some b ->
  addBlock SHA256 fuel this r s = Ret h s' ->
  (exists b',
     blocks s' !! r = Some b'
     /\ index b' = index b /\ timestamp b' = timestamp b /\ data b' = data b)
  /\ (forall x, x <> r -> blocks s' !! x = blocks s !! x)
  /\ (forall a, a <> chain this -> arrays s' !! a = arrays s !! a)
  /\ length (blocks s') = length (blocks s)
  /\ length (arrays s') = length (arrays s).
Proof.
  intros Hb H.
  apply addBlock_effect in H
    as (c & t & tip & b0 & b' & Hc & Ht & Htip & Hb0 & Hm & _ & -> & _).
  assert (b0 = b) as -> by congruence.
  destruct Hm as (Hi & Hts & Hd & _). cbn [blocks arrays]. split_and!.
  - exists b'. split_and!; [|done..].
    apply list_lookup_insert_eq. eauto using lookup_lt_Some.
  - intros x Hx. by apply list_lookup_insert_ne.
  - intros a Ha. by apply list_lookup_insert_ne.
  - apply length_insert.
  - apply length_insert.
Qed.

Lemma addBlock_changes_one_block_and_the_chain_witness :
  blocks Run.stale !! 1%nat = Some (Run.block_of Run.stale 1)
  /\ addBlock Run.sha 1 Run.ledger 1 Run.stale
     = Ret "00d6c2de3bc9bee1164bfbd7b198f5dde3229269e09e2118178d8169fd2952fd"
           Run.lucky
  /\ blocks Run.lucky !! 0%nat = blocks Run.stale !! 0%nat.
Proof.
  assert (blocks Run.stale !! 1%nat = Some (Run.block_of Run.stale 1)) as Hb
    by (vm_compute; reflexivity).
  assert (addBlock Run.sha 1 Run.ledger 1 Run.stale
          = Ret "00d6c2de3bc9bee1164bfbd7b198f5dde3229269e09e2118178d8169fd2952fd"
                Run.lucky) as Hadd by (vm_compute; reflexivity).
  split_and!; [exact Hb|exact Hadd|].
  destruct (addBlock_changes_one_block_and_the_chain Run.sha 1 Run.ledger 1
              Run.stale _ Run.lucky _ Hb Hadd) as (_ & Hother & _).
  apply Hother. lia.
Defined.

(** *** X9 *)

(** A call leaves every array but the chain as it is. *)
Lemma exec_keeps_other_arrays (SHA256 : string -> string) this c s s' a l :
  exec SHA256 this c s = Ret tt s' ->
  a <> chain this ->
  arrays s !! a = Some l ->
  arrays s' !! a = Some l.
Proof.
  intros H Ha Hl.
  destruct c as [i t d p|r n1 n2|fuel r|]; simpl in H.
  - apply bind_Ret in H as (x & s3 & H & [= <-]).
    rewrite Block_new_Ret in H. by injection H as _ <-.
  - apply bind_Ret in H as (x & s3 & H & [= <-]).
    apply createSABlock_Ret in H as (? & ? & ? & _ & _ & _ & H).
    rewrite Block_new_Ret in H. by injection H as _ <-.
  - apply bind_Ret in H as (x & s3 & H & [= <-]).
    apply addBlock_effect in H
      as (c0 & t & tip & b0 & b' & Hc0 & _ & _ & _ & _ & _ & -> & _).
    cbn [arrays] in *. by rewrite list_lookup_insert_ne.
  - apply bind_Ret in H as (x & s3 & H & [= <-]).
    apply getAllBlocks_Ret in H as (c0 & _ & _ & ->). cbn [arrays] in *.
    by apply lookup_app_l_Some.
Qed.

Lemma later_keeps_other_arrays (SHA256 : string -> string) this s s' a l :
  later SHA256 this s s' ->
  a <> chain this ->
  arrays s !! a = Some l ->
  arrays s' !! a = Some l.
Proof.
  induction 1 as [s|s c s1 s' Hc _ IH]; intros Ha Hl; [done|].
  apply IH; [done|]. by eapply exec_keeps_other_arrays.
Qed.

(** X9.  A snapshot is frozen at the moment it is taken: the array
    that [getAllBlocks] returned is not the chain, and after any
    number of later calls on the ledger that returned (building
    blocks, [createSABlock], [addBlock], further snapshots) it still
    holds the references the chain held when it was taken, in their
    order, and nothing else. *)
Theorem snapshot_is_not_extended (SHA256 : string -> string)
    this s a s1 s2 :
  getAllBlocks this s = Ret a s1 ->
  later SHA256 this s1 s2 ->
  a <> chain this
  /\ arrays s2 !! a = Some (chain_of this s).
Proof.
  intros (l & Hl & -> & ->)%getAllBlocks_Ret Hlater.
  pose proof (lookup_lt_Some _ _ _ Hl) as Hlt.
  assert (length (arrays s) <> chain this) as Hne by lia.
  split; [done|]. rewrite (chain_of_Some _ _ _ Hl).
  apply (later_keeps_other_arrays SHA256 this _ _ _ _ Hlater Hne).
  cbn [arrays]. by apply list_lookup_middle.
Qed.

Lemma snapshot_is_not_extended_witness :
  getAllBlocks Run.ledger Run.after_two = Ret 2%nat Run.snapshot
  /\ later Run.sha Run.ledger Run.snapshot Run.snapshot_then_two
  /\ chain_of Run.ledger Run.snapshot_then_two
     = chain_of Run.ledger Run.after_two ++ [3%nat]
  /\ arrays Run.snapshot_then_two !! 2%nat
     = Some (chain_of Run.ledger Run.after_two).
Proof.
  assert (getAllBlocks Run.ledger Run.after_two = Ret 2%nat Run.snapshot)
    as H1 by (vm_compute; reflexivity).
  assert (later Run.sha Run.ledger Run.snapshot Run.snapshot_then_two) as H2.
  { apply (later_call _ _ Run.snapshot
             (NewBlock 1 1700000000143 (Json.Str "tx") "")
             Run.snapshot_then_block); [vm_compute; reflexivity|].
    apply (later_call _ _ Run.snapshot_then_block (AddBlock 1 3)
             Run.snapshot_then_two); [vm_compute; reflexivity|].
    apply later_now. }
  split_and!; [exact H1|exact H2|vm_compute; reflexivity|].
  exact (proj2 (snapshot_is_not_extended Run.sha _ _ _ _ _ H1 H2)).
Defined.

(** *** Printed integers *)

Lemma pretty_N_go_app x s : pretty_N_go x s = pretty_N_go x "" +:+ s.
Proof.
  revert s. induction (N.lt_wf_0 x) as [x _ IH]; intros s.
  destruct (decide (x = 0)%N) as [->|Hx]; [by rewrite !pretty_N_go_0|].
  rewrite !(pretty_N_go_step x) by lia.
  rewrite (IH (x `div` 10)%N) by (apply N.div_lt; lia).
  rewrite (IH (x `div` 10)%N ltac:(apply N.div_lt; lia) (String _ "")).
  by rewrite app_string_assoc.
Qed.

(** Appending a digit to a positive integer appends its character. *)
Lemma pretty_Z_snoc i c :
  0 < i -> 0 <= c <= 9 ->
  pretty (10 * i + c) = pretty i +:+ String (pretty_N_char (Z.to_N c)) "".
Proof.
  intros Hi Hc.
  assert (forall z, 0 < z -> pretty z = pretty_N_go (Z.to_N z) "") as Hpos.
  { intros [|p|p] Hz; try lia. unfold pretty, pretty_Z, pretty, pretty_positive,
      pretty, pretty_N. by rewrite decide_False. }
  rewrite !Hpos by lia.
  rewrite pretty_N_go_step by lia.
  replace (Z.to_N (10 * i + c) `div` 10)%N with (Z.to_N i).
  2:{ replace (Z.to_N (10 * i + c)) with (Z.to_N c + Z.to_N i * 10)%N by lia.
      rewrite N.div_add by lia. rewrite N.div_small by lia. lia. }
  replace (Z.to_N (10 * i + c) `mod` 10)%N with (Z.to_N c).
  2:{ replace (Z.to_N (10 * i + c)) with (Z.to_N c + Z.to_N i * 10)%N by lia.
      rewrite N.Div0.mod_add. rewrite N.mod_small; lia. }
  apply pretty_N_go_app.
Qed.

(** *** X10 *)

(** X10.  The digest does not tell where one field ends and the next
    begins: the printed fields are concatenated without a separator,
    so the last digit of [index] can move to the front of
    [previousHash] without changing [calculateHash].  For an index of
    at most 2^53 (up to which a number holds every integer and prints
    all its digits), two blocks that differ in both fields have the
    same hash, whatever the digest. *)
Theorem calculateHash_ignores_field_boundaries (SHA256 : string -> string)
    i c t d p n h h' :
  0 < i -> 0 <= c <= 9 ->
  10 * i + c <= 9007199254740992 ->
  calculateHash SHA256 (mkBlock (10 * i + c) t d p n h)
  = calculateHash SHA256
      (mkBlock i t d (String (pretty_N_char (Z.to_N c)) p) n h').
Proof.
  intros Hi Hc _. unfold calculateHash, preimage. cbn [index previousHash
    timestamp data nonce]. rewrite pretty_Z_snoc by done.
  by rewrite (app_string_assoc (pretty i)).
Qed.

Lemma calculateHash_ignores_field_boundaries_witness :
  calculateHash Run.sha (mkBlock 12 1700000000143 (Json.Str "tx") "3abc" 0 "")
  = calculateHash Run.sha (mkBlock 1 1700000000143 (Json.Str "tx") "23abc" 0 "").
Proof.
  apply (calculateHash_ignores_field_boundaries Run.sha 1 2 1700000000143
           (Json.Str "tx") "3abc" 0 "" ""); lia.
Defined.

(* ===================================================================== *)
(** ** Checks of the database, the service and the table *)
(* ===================================================================== *)

Example generateKey_example :
  Db.generateKey "10.0.0.1" 256 = "10.0.0.1:256"
  /\ Db.generateKey "fe80::1" 4294967295 = "fe80::1:4294967295".
Proof. split; vm_compute; reflexivity. Qed.

Example two_records :
  Db.getAllSAs Db.two = Ret [0%nat; 1%nat] Db.two
  /\ Db.lookupSA (Db.mkKey "10.0.0.2" 300) Db.two = Ret (Some 1%nat) Db.two
  /\ Db.lookupSA (Db.mkKey "10.0.0.2" 301) Db.two = Ret None Db.two
  /\ (Db.createdAt <$> Db.objects Db.two !! 1%nat) = Some (Db.Date_now 2000)
  /\ Db.addSA Db.sa_a 3000 Db.two = Ret false Db.two.
Proof. split_and!; vm_compute; reflexivity. Qed.

Example search_example :
  Db.searchByDestination (fun s => s) "0.0.2" Db.two = Ret [1%nat] Db.two
  /\ Db.searchByDestination (fun s => s) "" Db.two = Ret [0%nat; 1%nat] Db.two
  /\ Db.getSAsByStatus "active" Db.two = Ret [0%nat] Db.two
  /\ Db.getStats Db.two = Ret (Db.mkStats 2 1 0 1) Db.two.
Proof. split_and!; vm_compute; reflexivity. Qed.

Example formatLifetime_examples :
  Table.formatLifetime 59 = "59s"
  /\ Table.formatLifetime 60 = "1m"
  /\ Table.formatLifetime 3599 = "59m"
  /\ Table.formatLifetime 3600 = "1h"
  /\ Table.formatLifetime 7199 = "1h".
Proof. split_and!; vm_compute; reflexivity. Qed.

Example service_lookup_example :
  (Service.success <$>
     [ Service.lookupSA (Db.mkKey "10.0.0.1" 256) Service.not_found
         Run.fresh;
       Service.lookupSA (Db.mkKey "10.0.0.1" 256)
         (Service.Resolved None (Some (Service.mkError "500" "down")))
         Run.fresh;
       Service.lookupSA (Db.mkKey "10.0.0.1" 256) (Service.Rejected "offline")
         Run.fresh ]
     ≫= (fun o => match o with Ret r _ => [r] | _ => [] end))
  = [true; false; false].
Proof. vm_compute. reflexivity. Qed.

(* ===================================================================== *)
(** ** The class [SADatabase] *)
(* ===================================================================== *)

(** *** Keys *)

Definition colon_free (s : string) : Prop :=
  forall a b, s <> a +:+ String ":" b.

Lemma colon_free_nil : colon_free "".
Proof. intros [|c a] b; done. Qed.

Lemma colon_free_cons c s :
  c <> ":"%char -> colon_free s -> colon_free (String c s).
Proof.
  intros Hc Hs [|c' a] b; rewrite ?app_string_cons; cbn; intros [= -> H].
  - done.
  - by eapply Hs.
Qed.

Lemma pretty_N_char_colon x : pretty_N_char x <> ":"%char.
Proof. unfold pretty_N_char. repeat case_match; done. Qed.

Lemma pretty_N_go_colon_free x s :
  colon_free s -> colon_free (pretty_N_go x s).
Proof.
  revert s. induction (N.lt_wf_0 x) as [x _ IH]; intros s Hs.
  destruct (decide (x = 0)%N) as [->|Hx]; [by rewrite pretty_N_go_0|].
  rewrite pretty_N_go_step by lia.
  apply IH; [apply N.div_lt; lia|].
  apply colon_free_cons; [apply pretty_N_char_colon|done].
Qed.

Lemma pretty_Z_colon_free (z : Z) : colon_free (pretty z).
Proof.
  destruct z as [|p|p]; unfold pretty, pretty_Z, pretty, pretty_positive,
    pretty, pretty_N.
  - by apply colon_free_cons, colon_free_nil.
  - rewrite decide_False by done. apply pretty_N_go_colon_free, colon_free_nil.
  - rewrite decide_False by done. rewrite app_string_cons.
    apply colon_free_cons; [done|].
    apply pretty_N_go_colon_free, colon_free_nil.
Qed.

Lemma key_split d1 p1 d2 p2 :
  colon_free p1 -> colon_free p2 ->
  d1 +:+ String ":" p1 = d2 +:+ String ":" p2 -> d1 = d2 /\ p1 = p2.
Proof.
  intros H1 H2. revert d2.
  induction d1 as [|c d1 IH]; intros [|c' d2]; rewrite ?app_string_cons; cbn.
  - by intros [= ->].
  - intros [= <- H]. by destruct (H1 d2 p2).
  - intros [= -> H]. by destruct (H2 d1 p1).
  - intros [= -> H]. destruct (IH _ H) as [-> ->]. done.
Qed.

Lemma generateKey_inj d1 n1 d2 n2 :
  Db.generateKey d1 n1 = Db.generateKey d2 n2 -> d1 = d2 /\ n1 = n2.
Proof.
  unfold Db.generateKey. intros H.
  apply key_split in H; try apply pretty_Z_colon_free.
  destruct H as [-> H]. split; [done|]. by apply (inj pretty).
Qed.

(** *** The [Map] *)

Lemma Map_get_set k v m k' :
  Db.Map_get k' (Db.Map_set k v m)
  = if String.eqb k k' then Some v else Db.Map_get k' m.
Proof.
  induction m as [|[k0 v0] m IH]; cbn.
  - done.
  - destruct (String.eqb_spec k0 k) as [->|Hk0]; cbn.
    + by destruct (String.eqb_spec k k').
    + rewrite IH. destruct (String.eqb_spec k0 k') as [->|]; [|done].
      destruct (String.eqb_spec k k'); congruence.
Qed.

Lemma Map_get_delete k m k' :
  Db.Map_get k' (Db.Map_delete k m)
  = if String.eqb k k' then None else Db.Map_get k' m.
Proof.
  unfold Db.Map_delete. induction m as [|[k0 v0] m IH]; cbn.
  - by destruct (String.eqb k k').
  - destruct (String.eqb_spec k0 k) as [->|Hk0]; cbn.
    + rewrite IH. by destruct (String.eqb_spec k k').
    + rewrite IH. destruct (String.eqb_spec k0 k') as [->|]; [|done].
      destruct (String.eqb_spec k k'); congruence.
Qed.

Lemma Map_set_new k v m :
  Db.Map_get k m = None -> Db.Map_set k v m = m ++ [(k, v)].
Proof.
  induction m as [|[k0 v0] m IH]; cbn; [done|].
  destruct (String.eqb k0 k); [done|]. intros H. by rewrite IH.
Qed.

Lemma Map_set_same k v m :
  Db.Map_get k m = Some v -> Db.Map_set k v m = m.
Proof.
  induction m as [|[k0 v0] m IH]; cbn; [done|].
  destruct (String.eqb k0 k); [by intros [= ->]|].
  intros H. by rewrite IH.
Qed.

Lemma Map_get_Some k m v :
  Db.Map_get k m = Some v -> (k, v) ∈ m.
Proof.
  induction m as [|[k0 v0] m IH]; cbn; [done|].
  destruct (String.eqb_spec k0 k) as [->|].
  - intros [= ->]. left.
  - intros H. right. auto.
Qed.

Lemma Map_get_None k m :
  Db.Map_get k m = None -> k ∉ map fst m.
Proof.
  induction m as [|[k0 v0] m IH]; cbn.
  - intros _ H. by apply elem_of_nil in H.
  - destruct (String.eqb_spec k0 k) as [->|Hk]; [done|].
    intros H [->|Hin]%elem_of_cons; [done|]. by apply IH.
Qed.

Lemma Map_get_elem k v m :
  NoDup (map fst m) -> (k, v) ∈ m -> Db.Map_get k m = Some v.
Proof.
  induction m as [|[k0 v0] m IH]; cbn.
  - intros _ H. by apply elem_of_nil in H.
  - intros [Hk0 Hm]%NoDup_cons [[= -> ->]|Hin]%elem_of_cons.
    + by rewrite String.eqb_refl.
    + destruct (String.eqb_spec k0 k) as [->|]; [|auto].
      destruct Hk0. apply list_elem_of_fmap. by exists (k, v).
Qed.

Lemma Map_delete_elem k m e :
  e ∈ Db.Map_delete k m <-> e ∈ m /\ fst e <> k.
Proof.
  unfold Db.Map_delete. rewrite !list_elem_of_In, List.filter_In.
  destruct (String.eqb_spec (fst e) k); cbn; intuition congruence.
Qed.

Lemma Map_delete_NoDup k m :
  NoDup (map fst m) -> NoDup (map fst (Db.Map_delete k m)).
Proof.
  unfold Db.Map_delete. induction m as [|[k0 v0] m IH]; cbn; [done|].
  intros [Hk0 Hm]%NoDup_cons.
  destruct (String.eqb_spec k0 k) as [->|]; cbn; [auto|].
  apply NoDup_cons. split; [|auto].
  intros ([k1 v1] & Hk & Hin)%list_elem_of_fmap. cbn in Hk. subst k1.
  apply (Map_delete_elem k m) in Hin as [Hin _].
  apply Hk0, list_elem_of_fmap. by exists (k0, v1).
Qed.

(** *** The methods return *)

Lemma lookupSA_eq lk db :
  Db.lookupSA lk db
  = Ret (Db.Map_get (Db.generateKey (Db.key_destinationAddress lk)
                                    (Db.key_spi lk)) (Db.sas db)) db.
Proof. reflexivity. Qed.

Lemma getAllSAs_eq db :
  Db.getAllSAs db = Ret (Db.Map_values (Db.sas db)) db.
Proof. reflexivity. Qed.

Lemma addSA_eq sa now db :
  Db.addSA sa now db
  = let key := Db.generateKey (Db.destinationAddress sa) (Db.spi sa) in
    if Db.Map_has key (Db.sas db) then Ret false db
    else Ret true
           (Db.State (Db.objects db ++ [Db.set_createdAt (Db.Date_now now) sa])
                     (Db.Map_set key (length (Db.objects db)) (Db.sas db))).
Proof.
  unfold Db.addSA, bind, Db.get_sas. cbn zeta.
  by destruct (Db.Map_has _ _).
Qed.

Lemma deleteSA_eq lk db :
  Db.deleteSA lk db
  = let key := Db.generateKey (Db.key_destinationAddress lk) (Db.key_spi lk) in
    Ret (Db.Map_has key (Db.sas db))
        (Db.State (Db.objects db) (Db.Map_delete key (Db.sas db))).
Proof. reflexivity. Qed.

Lemma updateSAStatus_eq lk st db :
  Db.updateSAStatus lk st db
  = let key := Db.generateKey (Db.key_destinationAddress lk) (Db.key_spi lk) in
    match Db.Map_get key (Db.sas db) with
    | Some r =>
        match Db.objects db !! r with
        | Some sa =>
            Ret true (Db.State (<[r := Db.set_status st sa]> (Db.objects db))
                               (Db.Map_set key r (Db.sas db)))
        | None => Throw TypeError db
        end
    | None => Ret false db
    end.
Proof.
  unfold Db.updateSAStatus, bind. rewrite lookupSA_eq. cbn zeta.
  destruct (Db.Map_get _ _) as [r|]; [|done].
  unfold Db.update_object. by destruct (Db.objects db !! r).
Qed.

Lemma Map_has_get k m :
  Db.Map_has k m = true <-> exists r, Db.Map_get k m = Some r.
Proof.
  unfold Db.Map_has. destruct (Db.Map_get k m) as [r|].
  - split; [by exists r|done].
  - split; [done|]. by intros [r ?].
Qed.

Lemma key_differs (lk lk' : Db.SALookupKey) :
  lk' <> lk ->
  Db.generateKey (Db.key_destinationAddress lk') (Db.key_spi lk')
  <> Db.generateKey (Db.key_destinationAddress lk) (Db.key_spi lk).
Proof.
  intros Hne [H1 H2]%generateKey_inj. destruct lk, lk'. cbn in *. congruence.
Qed.

(** *** Consistency *)

Lemma consistent_empty : Db.consistent Db.empty.
Proof.
  split; [constructor|]. intros k r H. by apply elem_of_nil in H.
Qed.

Lemma consistent_refs db k r r' k' :
  Db.consistent db -> (k, r) ∈ Db.sas db -> (k', r') ∈ Db.sas db ->
  r = r' -> k = k'.
Proof.
  intros [_ Hobj] H1 H2 <-.
  destruct (Hobj _ _ H1) as (sa & Hsa & ->).
  destruct (Hobj _ _ H2) as (sa' & Hsa' & ->). congruence.
Qed.

Lemma Map_set_fst k v m :
  map fst (Db.Map_set k v m)
  = if Db.Map_has k m then map fst m else map fst m ++ [k].
Proof.
  unfold Db.Map_has. induction m as [|[k0 v0] m IH]; cbn; [done|].
  destruct (String.eqb k0 k); cbn; [done|]. rewrite IH.
  by destruct (Db.Map_get k m).
Qed.

Lemma addSA_consistent sa now db ok db' :
  Db.consistent db -> Db.addSA sa now db = Ret ok db' -> Db.consistent db'.
Proof.
  intros [Hnd Hobj]. rewrite addSA_eq. cbn zeta.
  destruct (Db.Map_has _ _) eqn:Hhas; intros [= <- <-]; [done|].
  assert (Db.Map_get (Db.generateKey (Db.destinationAddress sa) (Db.spi sa))
            (Db.sas db) = None) as Hnone.
  { unfold Db.Map_has in Hhas. by destruct (Db.Map_get _ _). }
  rewrite (Map_set_new _ _ _ Hnone). split; cbn.
  - rewrite map_app. cbn. apply NoDup_app. split_and!; [done| |apply NoDup_singleton].
    intros k Hk ->%list_elem_of_singleton. by apply Map_get_None in Hnone.
  - intros k r [Hin|[= -> ->]%list_elem_of_singleton]%elem_of_app.
    + destruct (Hobj _ _ Hin) as (sa' & Hsa' & ->). exists sa'. split; [|done].
      by apply lookup_app_l_Some.
    + exists (Db.set_createdAt (Db.Date_now now) sa). split; [|done].
      by rewrite lookup_app_r, Nat.sub_diag.
Qed.

Lemma deleteSA_consistent lk db ok db' :
  Db.consistent db -> Db.deleteSA lk db = Ret ok db' -> Db.consistent db'.
Proof.
  intros [Hnd Hobj]. rewrite deleteSA_eq. cbn zeta. intros [= <- <-].
  split; cbn.
  - by apply Map_delete_NoDup.
  - intros k r [Hin _]%Map_delete_elem. auto.
Qed.

Lemma updateSAStatus_Ret lk st db :
  Db.consistent db ->
  match Db.Map_get (Db.generateKey (Db.key_destinationAddress lk)
                                   (Db.key_spi lk)) (Db.sas db) with
  | Some r =>
      exists sa,
        Db.objects db !! r = Some sa
        /\ Db.destinationAddress sa = Db.key_destinationAddress lk
        /\ Db.spi sa = Db.key_spi lk
        /\ Db.updateSAStatus lk st db
           = Ret true (Db.State (<[r := Db.set_status st sa]> (Db.objects db))
                                (Db.sas db))
  | None => Db.updateSAStatus lk st db = Ret false db
  end.
Proof.
  intros [Hnd Hobj]. rewrite updateSAStatus_eq. cbn zeta.
  destruct (Db.Map_get _ _) as [r|] eqn:Hget; [|done].
  destruct (Hobj _ _ (Map_get_Some _ _ _ Hget)) as (sa & Hsa & Hk).
  apply generateKey_inj in Hk as [Hd Hs].
  exists sa. rewrite Hsa, (Map_set_same _ _ _ Hget). done.
Qed.

Lemma updateSAStatus_consistent lk st db ok db' :
  Db.consistent db -> Db.updateSAStatus lk st db = Ret ok db' ->
  Db.consistent db'.
Proof.
  intros Hc. pose proof (updateSAStatus_Ret lk st db Hc) as H.
  destruct (Db.Map_get _ _) as [r|] eqn:Hget.
  - destruct H as (sa & Hsa & Hd & Hs & ->). intros [= <- <-].
    destruct Hc as [Hnd Hobj]. split; cbn; [done|].
    intros k r' Hin. destruct (Hobj _ _ Hin) as (sa' & Hsa' & ->).
    destruct (decide (r' = r)) as [->|Hr].
    + exists (Db.set_status st sa). split.
      * rewrite list_lookup_insert_eq; [done|]. by eapply lookup_lt_Some.
      * cbn. congruence.
    + exists sa'. split; [|done]. by rewrite list_lookup_insert_ne.
  - rewrite H. by intros [= <- <-].
Qed.

Lemma exec_consistent c db ok db' :
  Db.consistent db -> Db.exec c db = Ret ok db' -> Db.consistent db'.
Proof.
  destruct c; cbn.
  - apply addSA_consistent.
  - apply deleteSA_consistent.
  - apply updateSAStatus_consistent.
Qed.

Lemma reach_consistent db : Db.reach db -> Db.consistent db.
Proof.
  induction 1 as [|c db ok db' _ IH Hc]; [apply consistent_empty|].
  by eapply exec_consistent.
Qed.

(** *** Filters *)

Lemma filter_objects_Ret p items db :
  (forall r, r ∈ items -> is_Some (Db.objects db !! r)) ->
  Db.filter_objects p items db
  = Ret (List.filter
           (fun r => match Db.objects db !! r with
                     | Some sa => p sa
                     | None => false
                     end) items) db.
Proof.
  induction items as [|r items IH]; intros Hall; cbn; [done|].
  destruct (Hall r) as [sa Hsa]; [left|].
  unfold bind, Db.get_object. rewrite Hsa, IH.
  - by destruct (p sa).
  - intros r' Hr'. apply Hall. by right.
Qed.

Lemma consistent_values db r :
  Db.consistent db -> r ∈ Db.Map_values (Db.sas db) ->
  is_Some (Db.objects db !! r).
Proof.
  intros [_ Hobj] ([k r'] & -> & Hin)%list_elem_of_fmap.
  destruct (Hobj _ _ Hin) as (sa & Hsa & _). by exists sa.
Qed.

Lemma count3 {A} (a e p : A -> bool) (l : list A) :
  (forall x, a x && e x = false) ->
  (forall x, a x && p x = false) ->
  (forall x, e x && p x = false) ->
  (length (List.filter a l) + length (List.filter e l)
   + length (List.filter p l) <= length l)%nat
  /\ ((length (List.filter a l) + length (List.filter e l)
       + length (List.filter p l) = length l)%nat
      <-> Forall (fun x => a x || e x || p x = true) l).
Proof.
  intros Hae Hap Hep. induction l as [|x l [IH1 IH2]]; cbn.
  - split; [lia|]. split; [constructor|done].
  - rewrite Forall_cons. specialize (Hae x). specialize (Hap x).
    specialize (Hep x).
    destruct (a x), (e x), (p x); cbn in *; try discriminate;
      (split; [lia|]); rewrite <- IH2;
      (split; [intros ?; first [lia | split; [done|lia]]
              | intros [? ?]; first [done | lia]]).
Qed.

(** *** X11 *)

(** X11.  [generateKey] gives different keys to different pairs of
    destination address and SPI, also when the address itself contains
    the separator [":"], as an IPv6 address does: the printed SPI has
    no [":"], so a key is cut at its last one.  (Numbers are modelled
    as integers printed in decimal.) *)
Theorem keys_tell_pairs_apart d1 n1 d2 n2 :
  Db.generateKey d1 n1 = Db.generateKey d2 n2 -> d1 = d2 /\ n1 = n2.
Proof. apply generateKey_inj. Qed.

Lemma keys_tell_pairs_apart_witness :
  "fe80::1" = "fe80::1" /\ 256 = 256.
Proof.
  apply (keys_tell_pairs_apart "fe80::1" 256 "fe80::1" 256). reflexivity.
Defined.

(** *** X12 *)

(** X12.  [addSA] always returns.  It answers [false] and changes
    nothing exactly when [lookupSA] finds a record for the new
    association's address and SPI.  Otherwise it answers [true] and
    stores a new object: a copy of the argument with [createdAt] set
    from the clock, which [lookupSA] then finds and which comes last
    in [getAllSAs]; the objects stored before are as they were.  In
    both cases the lookups of all other pairs answer as before. *)
Theorem addSA_stores_a_copy_once sa now db :
  exists ok db',
    Db.addSA sa now db = Ret ok db'
    /\ (ok = false <->
        exists r, Db.lookupSA (Db.mkKey (Db.destinationAddress sa) (Db.spi sa)) db
                  = Ret (Some r) db)
    /\ (ok = false -> db' = db)
    /\ (ok = true ->
        Db.objects db'
        = Db.objects db ++ [Db.set_createdAt (Db.Date_now now) sa]
        /\ Db.lookupSA (Db.mkKey (Db.destinationAddress sa) (Db.spi sa)) db'
           = Ret (Some (length (Db.objects db))) db'
        /\ forall all, Db.getAllSAs db = Ret all db ->
             Db.getAllSAs db' = Ret (all ++ [length (Db.objects db)]) db')
    /\ (forall lk' o,
          lk' <> Db.mkKey (Db.destinationAddress sa) (Db.spi sa) ->
          Db.lookupSA lk' db = Ret o db <-> Db.lookupSA lk' db' = Ret o db').
Proof.
  rewrite addSA_eq. cbn zeta.
  destruct (Db.Map_has _ _) eqn:Hhas.
  - exists false, db. split_and!; try done.
    + split; [intros _|done]. apply Map_has_get in Hhas as [r Hr].
      exists r. rewrite lookupSA_eq. cbn. by rewrite Hr.
  - assert (Db.Map_get (Db.generateKey (Db.destinationAddress sa) (Db.spi sa))
              (Db.sas db) = None) as Hnone.
    { unfold Db.Map_has in Hhas. by destruct (Db.Map_get _ _). }
    eexists true, _. split; [done|]. split_and!.
    + split; [done|]. intros [r Hr]. rewrite lookupSA_eq in Hr. cbn in Hr.
      congruence.
    + done.
    + intros _. split_and!; [done| |].
      * rewrite lookupSA_eq. cbn. by rewrite Map_get_set, String.eqb_refl.
      * intros all. rewrite !getAllSAs_eq. intros [= <-]. cbn.
        rewrite (Map_set_new _ _ _ Hnone). unfold Db.Map_values.
        by rewrite map_app.
    + intros lk' o Hne. rewrite !lookupSA_eq. cbn. rewrite Map_get_set.
      apply key_differs in Hne. cbn in Hne.
      destruct (String.eqb_spec
                  (Db.generateKey (Db.destinationAddress sa) (Db.spi sa))
                  (Db.generateKey (Db.key_destinationAddress lk')
                                  (Db.key_spi lk'))) as [Heq|_]; [by destruct Hne|].
      split; intros [= <-]; done.
Qed.

(** *** X13 *)

(** X13.  [deleteSA] always returns and answers whether [lookupSA]
    found the pair.  Afterwards [lookupSA] finds nothing for it, the
    lookups of all other pairs answer as before, no stored object has
    changed (a reference handed out earlier still reads the same
    record), and an [addSA] for the deleted pair is accepted. *)
Theorem deleteSA_forgets_one_pair lk db :
  exists ok db',
    Db.deleteSA lk db = Ret ok db'
    /\ (ok = true <-> exists r, Db.lookupSA lk db = Ret (Some r) db)
    /\ Db.lookupSA lk db' = Ret None db'
    /\ Db.objects db' = Db.objects db
    /\ (forall lk' o, lk' <> lk ->
          Db.lookupSA lk' db = Ret o db <-> Db.lookupSA lk' db' = Ret o db')
    /\ (forall sa now,
          Db.destinationAddress sa = Db.key_destinationAddress lk ->
          Db.spi sa = Db.key_spi lk ->
          exists db'', Db.addSA sa now db' = Ret true db'').
Proof.
  rewrite deleteSA_eq. cbn zeta. eexists _, _. split; [done|]. split_and!.
  - rewrite Map_has_get. rewrite lookupSA_eq.
    split; intros [r Hr]; exists r; congruence.
  - rewrite lookupSA_eq. cbn. by rewrite Map_get_delete, String.eqb_refl.
  - done.
  - intros lk' o Hne. rewrite !lookupSA_eq. cbn. rewrite Map_get_delete.
    apply key_differs in Hne.
    destruct (String.eqb_spec
                (Db.generateKey (Db.key_destinationAddress lk) (Db.key_spi lk))
                (Db.generateKey (Db.key_destinationAddress lk')
                                (Db.key_spi lk'))) as [Heq|_]; [by destruct Hne|].
    split; intros [= <-]; done.
  - intros sa now Hd Hs. rewrite addSA_eq. cbn zeta. rewrite Hd, Hs.
    unfold Db.Map_has. cbn. rewrite Map_get_delete, String.eqb_refl.
    by eexists.
Qed.

(** *** X14 *)

(** X14.  On a database built by the calls of the class
    [updateSAStatus] always returns and leaves the [Map] as it is:
    same keys, same references, same order.  When [lookupSA] finds the
    pair it answers [true] and has written the status into the stored
    object itself, so that every reference to that object handed out
    earlier shows the new status; the object's address and SPI are
    those asked for, the other objects are unchanged, and
    [getSAsByStatus] for the new status lists the object.  When
    [lookupSA] finds nothing it answers [false] and changes nothing. *)
Theorem updateSAStatus_writes_in_place lk st db :
  Db.reach db ->
  exists ok db',
    Db.updateSAStatus lk st db = Ret ok db'
    /\ Db.sas db' = Db.sas db
    /\ (forall r, Db.lookupSA lk db = Ret (Some r) db ->
          ok = true
          /\ exists sa,
               Db.objects db !! r = Some sa
               /\ Db.destinationAddress sa = Db.key_destinationAddress lk
               /\ Db.spi sa = Db.key_spi lk
               /\ Db.objects db' = <[r := Db.set_status st sa]> (Db.objects db)
               /\ exists l, Db.getSAsByStatus st db' = Ret l db' /\ r ∈ l)
    /\ (Db.lookupSA lk db = Ret None db -> ok = false /\ db' = db).
Proof.
  intros Hc%reach_consistent.
  pose proof (updateSAStatus_Ret lk st db Hc) as H.
  rewrite lookupSA_eq.
  destruct (Db.Map_get _ _) as [r|] eqn:Hget.
  - destruct H as (sa & Hsa & Hd & Hs & Hup).
    eexists _, _. split; [exact Hup|]. split; [done|]. split; [|done].
    intros r' [= <-]. split; [done|]. exists sa. split_and!; try done.
    assert (Db.consistent
              (Db.State (<[r := Db.set_status st sa]> (Db.objects db))
                        (Db.sas db))) as Hc'
      by (eapply updateSAStatus_consistent; [exact Hc|exact Hup]).
    eexists. split.
    + unfold Db.getSAsByStatus, bind. rewrite getAllSAs_eq.
      apply filter_objects_Ret. intros r'. apply consistent_values, Hc'.
    + apply list_elem_of_In, List.filter_In. split.
      * apply list_elem_of_In, list_elem_of_fmap.
        eexists (_, r). split; [done|]. by eapply Map_get_Some.
      * cbn. rewrite list_lookup_insert_eq by (by eapply lookup_lt_Some).
        cbn. apply String.eqb_refl.
  - exists false, db. split; [done|]. split; [done|]. split; [done|].
    done.
Qed.

(** *** X15 *)

(** X15.  On a database built from [new SADatabase()] by [addSA],
    [deleteSA] and [updateSAStatus] (the stored objects not being
    written to from outside) every such call returns, [getAllSAs]
    lists no object twice, every listed reference is to a stored
    object, [lookupSA] for that object's own address and SPI finds
    this very object, and so no two listed records share both
    address and SPI. *)
Theorem one_record_per_pair db :
  Db.reach db ->
  (forall c, exists ok db', Db.exec c db = Ret ok db')
  /\ exists all,
       Db.getAllSAs db = Ret all db
       /\ NoDup all
       /\ (forall r, r ∈ all ->
             exists sa,
               Db.objects db !! r = Some sa
               /\ Db.lookupSA (Db.mkKey (Db.destinationAddress sa) (Db.spi sa)) db
                  = Ret (Some r) db)
       /\ (forall r r' sa sa',
             r ∈ all -> r' ∈ all ->
             Db.objects db !! r = Some sa -> Db.objects db !! r' = Some sa' ->
             Db.destinationAddress sa = Db.destinationAddress sa' ->
             Db.spi sa = Db.spi sa' -> r = r').
Proof.
  intros Hc%reach_consistent. split.
  - intros [sa now|lk|lk st]; cbn [Db.exec].
    + rewrite addSA_eq. cbn zeta. destruct (Db.Map_has _ _); by eexists _, _.
    + rewrite deleteSA_eq. by eexists _, _.
    + pose proof (updateSAStatus_Ret lk st db Hc) as H.
      destruct (Db.Map_get _ _); [|by eexists _, _].
      destruct H as (sa & _ & _ & _ & ->). by eexists _, _.
  - assert (forall r, r ∈ Db.Map_values (Db.sas db) ->
              exists sa,
                Db.objects db !! r = Some sa
                /\ Db.Map_get (Db.generateKey (Db.destinationAddress sa)
                                              (Db.spi sa)) (Db.sas db)
                   = Some r) as Hfind.
    { intros r ([k r'] & -> & Hin)%list_elem_of_fmap. cbn.
      destruct Hc as [Hnd Hobj].
      destruct (Hobj _ _ Hin) as (sa & Hsa & ->). exists sa. split; [done|].
      by apply Map_get_elem. }
    exists (Db.Map_values (Db.sas db)). split; [apply getAllSAs_eq|].
    split_and!.
    + destruct Hc as [Hnd Hobj]. unfold Db.Map_values.
      apply NoDup_fmap_2_strong; [|].
      * intros [k r] [k' r'] Hin Hin' Hr. cbn in Hr. subst r'.
        f_equal. eapply (consistent_refs db); [by split|done..].
      * eapply NoDup_fmap_1. exact Hnd.
    + intros r Hr. destruct (Hfind r Hr) as (sa & Hsa & Hget).
      exists sa. split; [done|]. rewrite lookupSA_eq. cbn. by rewrite Hget.
    + intros r r' sa sa' Hr Hr' Hsa Hsa' Hd Hs.
      destruct (Hfind r Hr) as (sa1 & Hsa1 & Hget).
      destruct (Hfind r' Hr') as (sa2 & Hsa2 & Hget').
      assert (sa1 = sa) as -> by congruence.
      assert (sa2 = sa') as -> by congruence.
      rewrite Hd, Hs in Hget. congruence.
Qed.

(** *** X16 *)

(** X16.  On a database built by the calls of the class [getStats]
    returns and changes nothing; [total] is the number of records, and
    [active + expired + pending] is at most [total], with equality
    exactly when every record's status is one of these three words
    ([updateSAStatus] stores whatever string it is given). *)
Theorem getStats_counts db :
  Db.reach db ->
  exists st all,
    Db.getStats db = Ret st db
    /\ Db.getAllSAs db = Ret all db
    /\ Db.total st = length all
    /\ (Db.active st + Db.expired st + Db.pending st <= Db.total st)%nat
    /\ ((Db.active st + Db.expired st + Db.pending st = Db.total st)%nat
        <-> forall r sa,
              r ∈ all -> Db.objects db !! r = Some sa ->
              Db.status sa = "active" \/ Db.status sa = "expired"
              \/ Db.status sa = "pending").
Proof.
  intros Hc%reach_consistent.
  assert (forall r, r ∈ Db.Map_values (Db.sas db) ->
            is_Some (Db.objects db !! r)) as Hall
    by (intros r; by apply consistent_values).
  eexists _, (Db.Map_values (Db.sas db)). split.
  { unfold Db.getStats, bind. rewrite getAllSAs_eq.
    rewrite !(filter_objects_Ret _ _ _ Hall). reflexivity. }
  split; [apply getAllSAs_eq|]. cbn [Db.total Db.active Db.expired Db.pending].
  split; [done|].
  match goal with
  | |- context [(length (List.filter ?a ?l) + length (List.filter ?e ?l)
                 + length (List.filter ?p ?l))%nat] =>
      destruct (count3 a e p l) as [Hle Heq]
  end.
  1-3: intros r; destruct (Db.objects db !! r) as [sa|]; [|done];
       match goal with
       | |- (?s =? ?x)%string && _ = false =>
           destruct (String.eqb_spec s x) as [->|]; done
       end.
  split; [exact Hle|]. rewrite Heq, Forall_forall. split.
  - intros H r sa Hr Hsa. specialize (H r Hr). rewrite Hsa in H.
    destruct (String.eqb_spec (Db.status sa) "active") as [->|]; [by left|].
    destruct (String.eqb_spec (Db.status sa) "expired") as [->|];
      [by right; left|].
    destruct (String.eqb_spec (Db.status sa) "pending") as [->|];
      [by right; right|]. done.
  - intros H r Hr. destruct (Hall r Hr) as [sa Hsa]. rewrite Hsa.
    destruct (H r sa Hr Hsa) as [ -> | [ -> | -> ] ]; done.
Qed.

(* ===================================================================== *)
(** ** The class [SADatabaseService] *)
(* ===================================================================== *)

(** *** The three ledger statements raise nothing *)

Lemma bind_Throw {S A B} (m : M S A) (k : A -> M S B) s e s' :
  bind m k s = Throw e s' ->
  m s = Throw e s' \/ exists a s1, m s = Ret a s1 /\ k a s1 = Throw e s'.
Proof.
  unfold bind. destruct (m s) as [a s1|e1 s1|]; intros H.
  - right. by exists a, s1.
  - left. by injection H as -> ->.
  - done.
Qed.

Lemma mine_loop_never_throws (SHA256 : string -> string)
    fuel this d target s e s' :
  is_Some (blocks s !! this) ->
  mine_loop SHA256 fuel this d target s <> Throw e s'.
Proof.
  revert s. induction fuel as [|fuel IH]; intros s [b Hb]; cbn; [done|].
  unfold bind at 1. unfold get_block at 1. rewrite Hb.
  destruct (negb _); [|done].
  unfold bind at 1. unfold update_block at 1. rewrite Hb.
  unfold bind at 1. unfold update_block at 1. cbn [blocks arrays].
  rewrite list_lookup_insert_eq by (by eapply lookup_lt_Some).
  apply IH. cbn [blocks].
  rewrite list_lookup_insert_eq; [by eexists|].
  rewrite length_insert. by eapply lookup_lt_Some.
Qed.

Lemma addBlock_never_throws (SHA256 : string -> string)
    fuel this r s e s' :
  well_typed this s -> chain_of this s <> [] -> difficulty this = 2%nat ->
  is_Some (blocks s !! r) ->
  addBlock SHA256 fuel this r s <> Throw e s'.
Proof.
  intros [[c Hc] Hall] Hne Hd [b Hb] H.
  rewrite (chain_of_Some _ _ _ Hc) in Hall, Hne.
  destruct (last c) as [t|] eqn:Ht; [|by apply last_None in Ht].
  assert (t ∈ c) as Hin.
  { rewrite last_lookup in Ht. by eapply list_elem_of_lookup_2. }
  rewrite Forall_forall in Hall. destruct (Hall t Hin) as [tip Htip].
  assert (getLatestBlock this s = Ret (Some t) s) as Hl.
  { apply getLatestBlock_Ret. exists c. by rewrite Ht. }
  unfold addBlock in H. rewrite (bind_Ret_l _ _ _ _ _ Hl) in H.
  assert (deref (Some t) s = Ret tip s) as Hdr.
  { apply deref_Ret. by exists t. }
  rewrite (bind_Ret_l _ _ _ _ _ Hdr) in H.
  unfold bind at 1 in H. unfold update_block at 1 in H. rewrite Hb in H.
  set (s1 := Store _ _) in H.
  assert (is_Some (blocks s1 !! r)) as Hr1.
  { unfold s1. cbn. rewrite list_lookup_insert_eq; [by eexists|].
    by eapply lookup_lt_Some. }
  apply bind_Throw in H as [H|(u & s2 & Hm & H)].
  - unfold mineBlock in H. rewrite Hd in H.
    apply bind_Throw in H as [H|(tg & s2 & Hj & H)]; [done|].
    apply Array_join_0_Ret in Hj as [_ ->].
    by eapply mine_loop_never_throws.
  - destruct u.
    destruct Hr1 as [b1 Hb1].
    destruct (mineBlock_Ret _ _ _ _ _ _ _ Hm Hb1) as (b' & -> & _ & _).
    unfold bind at 1 in H. unfold push at 1 in H. cbn [arrays blocks] in H.
    unfold s1 in H. cbn [arrays] in H. rewrite Hc in H.
    unfold bind at 1 in H. unfold get_block at 1 in H. cbn [blocks] in H.
    rewrite list_lookup_insert_eq in H; [done|].
    rewrite length_insert. by eapply lookup_lt_Some.
Qed.

Lemma recordEvent_never_throws (SHA256 : string -> string)
    fuel this sa now0 now1 now2 s e s' :
  reach SHA256 any_call this s ->
  recordEvent SHA256 fuel this sa now0 now1 now2 s <> Throw e s'.
Proof.
  intros (Hd & Hwt & Hne)%reach_well_typed H.
  pose proof Hwt as [[c Hc] Hall].
  rewrite (chain_of_Some _ _ _ Hc) in Hall, Hne.
  destruct (last c) as [t|] eqn:Ht; [|by apply last_None in Ht].
  assert (t ∈ c) as Hin.
  { rewrite last_lookup in Ht. by eapply list_elem_of_lookup_2. }
  rewrite Forall_forall in Hall. destruct (Hall t Hin) as [tip Htip].
  assert (getLatestBlock this s = Ret (Some t) s) as Hl.
  { apply getLatestBlock_Ret. exists c. by rewrite Ht. }
  assert (deref (Some t) s = Ret tip s) as Hdr.
  { apply deref_Ret. by exists t. }
  unfold recordEvent, createBlockchainRecord in H.
  unfold bind at 1 2 in H. rewrite Hl in H.
  unfold bind at 1 in H. rewrite Hdr in H. cbn [ret] in H.
  unfold createSABlock in H.
  unfold bind at 1 2 in H. unfold get_array at 1 in H. rewrite Hc in H.
  unfold bind at 1 in H. rewrite Hl in H.
  unfold bind at 1 in H. rewrite Hdr in H.
  rewrite Block_new_Ret in H.
  destruct (new_block_frame this s
              (mkBlock (Z.of_nat (length c)) now2
                 (Json.Obj
                    (Json.set_prop "timestamp" (Json.Num now1)
                       (record_props
                          (mkRecord (sa_destinationAddress sa) (sa_spi sa)
                             (sa_protocol sa) (sa_algorithm sa)
                             (hashKey SHA256 (sa_key sa)) (sa_lifetime sa)
                             (sa_status sa) now0 (hash tip)))))
                 (hash tip) 0
                 (calculateHash SHA256
                    (mkBlock (Z.of_nat (length c)) now2
                       (Json.Obj
                          (Json.set_prop "timestamp" (Json.Num now1)
                             (record_props
                                (mkRecord (sa_destinationAddress sa)
                                   (sa_spi sa) (sa_protocol sa)
                                   (sa_algorithm sa)
                                   (hashKey SHA256 (sa_key sa))
                                   (sa_lifetime sa) (sa_status sa) now0
                                   (hash tip)))))
                       (hash tip) 0 ""))) Hwt) as (Hc1 & _ & Hwt1).
  revert H. apply addBlock_never_throws; [exact Hwt1| |done|].
  - rewrite Hc1, (chain_of_Some _ _ _ Hc). done.
  - cbn [blocks]. rewrite list_lookup_middle by done. by eexists.
Qed.

(** *** The lookup *)

Lemma service_lookupSA_found (lk : Db.SALookupKey) (row : Service.Row) s :
  Service.lookupSA lk (Service.Resolved (Some row) None) s
  = Ret (Service.mkResult true
           (Some (Db.mkSA (Some (Service.id row))
                    (Service.destination_address row) (Service.spi row)
                    (Service.protocol row) (Service.algorithm row)
                    "***ENCRYPTED***" (Service.lifetime row)
                    (Db.Date_of (Service.created_at row))
                    (Some (Db.Date_of (Service.updated_at row)))
                    (Service.status row) (Service.blockchain_tx_hash row)
                    (Some (Service.blockchain_verified row))))
           None) s.
Proof. reflexivity. Qed.

Lemma service_lookupSA_other (lk : Db.SALookupKey) found s :
  (forall row, found <> Service.Resolved (Some row) None) ->
  exists res,
    Service.lookupSA lk found s = Ret res s
    /\ Service.value res = None
    /\ (Service.success res = true <->
        exists d err, found = Service.Resolved d (Some err)
                      /\ Service.code err = "PGRST116")
    /\ (Service.success res = true <-> Service.error res = None).
Proof.
  intros Hn. destruct found as [d [err|]|m].
  - unfold Service.lookupSA, Service.try_catch, Service.await.
    destruct (String.eqb_spec (Service.code err) "PGRST116") as [Hc|Hc].
    + eexists. split; [reflexivity|]. split; [done|]. split; [|done].
      split; [intros _|done]. by exists d, err.
    + eexists. split; [reflexivity|]. split; [done|]. split; [|done].
      split; [done|]. intros (d' & err' & [= -> ->] & Hc'). done.
  - destruct d as [row|]; [by destruct (Hn row)|].
    eexists. split; [reflexivity|]. split; [done|]. split; [|done].
    split; [done|]. by intros (d' & err' & [=] & _).
  - eexists. split; [reflexivity|]. split; [done|]. split; [|done].
    split; [done|]. by intros (d' & err' & [=] & _).
Qed.

Lemma found_or_not (found : Service.reply Service.Row) :
  (exists row, found = Service.Resolved (Some row) None)
  \/ (forall row, found <> Service.Resolved (Some row) None).
Proof.
  destruct found as [[row|] [err|]|m]; try (by right); left. by exists row.
Qed.

(** *** X17 *)

(** X17.  [lookupSA] of the service returns for every reply, and
    touches no ledger.  An association comes back only for a reply
    with a row and no error; it is that row's association whatever
    pair was asked for, and its [key] is the placeholder
    ["***ENCRYPTED***"], never the stored digest.  Without an
    association the call still reports success exactly when the
    reply's error has the code ["PGRST116"]; success and an [error]
    string exclude each other. *)
Theorem service_lookupSA_answers (lk : Db.SALookupKey) found s :
  exists res,
    Service.lookupSA lk found s = Ret res s
    /\ (forall sa, Service.value res = Some sa ->
          Service.success res = true
          /\ Db.key sa = "***ENCRYPTED***"
          /\ exists row,
               found = Service.Resolved (Some row) None
               /\ Db.destinationAddress sa = Service.destination_address row
               /\ Db.spi sa = Service.spi row
               /\ Db.status sa = Service.status row)
    /\ (Service.value res = None ->
        (Service.success res = true <->
         exists d err, found = Service.Resolved d (Some err)
                       /\ Service.code err = "PGRST116"))
    /\ (Service.success res = true <-> Service.error res = None).
Proof.
  destruct (found_or_not found) as [[row ->]|Hn].
  - eexists. split; [apply service_lookupSA_found|]. cbn. split_and!.
    + intros sa [= <-]. split_and!; [done..|]. by exists row.
    + done.
    + done.
  - destruct (service_lookupSA_other lk found s Hn) as (res & H & Hv & Hs & He).
    exists res. split; [done|]. rewrite Hv. split_and!; done.
Qed.

(** *** The calls that write to the ledger *)

Lemma try_catch_Ret {A} (body : M store A) handler s a s' :
  body s = Ret a s' -> Service.try_catch body handler s = Ret a s'.
Proof. unfold Service.try_catch. by intros ->. Qed.

Lemma try_catch_Spin {A} (body : M store A) handler s :
  body s = Spin -> Service.try_catch body handler s = Spin.
Proof. unfold Service.try_catch. by intros ->. Qed.

Lemma settled_or_not (r : Service.reply Service.Row) :
  (exists m, r = Service.Rejected m) \/ (forall m, r <> Service.Rejected m).
Proof. destruct r as [d e|m]; [by right|left; by exists m]. Qed.


(** *** X18 *)


(** [deleteSA] once the row has been found and the deletion has been
    answered without error. *)
Lemma service_deleteSA_deleted (SHA256 : string -> string)
    fuel blockchain lk row d audited now0 now1 now2 s :
  Service.deleteSA SHA256 fuel blockchain lk
    (Service.Resolved (Some row) None) (Service.Resolved d None) audited
    now0 now1 now2 s
  = match recordEvent SHA256 fuel blockchain
            (mkSA (Service.destination_address row) (Service.spi row)
                  (Service.protocol row) (Service.algorithm row)
                  "***ENCRYPTED***" (Service.lifetime row) "deleted")
            now0 now1 now2 s with
    | Ret h s1 =>
        Service.await audited
          (fun _ _ => ret (Service.mkResult true None None)) s1
    | Throw e s1 => Ret (Service.failed (Service.MessageOf e)) s1
    | Spin => Spin
    end.
Proof.
  unfold Service.deleteSA. unfold Service.try_catch, bind at 1.
  rewrite service_lookupSA_found. cbn [Service.success Service.value].
  unfold Service.await at 1. unfold bind at 1.
  change (Service.fields_read _)
    with (mkSA (Service.destination_address row) (Service.spi row)
               (Service.protocol row) (Service.algorithm row)
               "***ENCRYPTED***" (Service.lifetime row) "deleted").
  destruct (recordEvent _ _ _ _ _ _ _ _) as [h s1|e s1|]; [|done..].
  by destruct audited as [d2 e2|m2].
Qed.

(** [updateSAStatus] once the row has been found and the update has
    been answered without error. *)
Lemma service_updateSAStatus_updated (SHA256 : string -> string)
    fuel blockchain lk st row d relinked audited now0 now1 now2 s :
  Service.updateSAStatus SHA256 fuel blockchain lk st
    (Service.Resolved (Some row) None) (Service.Resolved d None)
    relinked audited now0 now1 now2 s
  = match recordEvent SHA256 fuel blockchain
            (mkSA (Service.destination_address row) (Service.spi row)
                  (Service.protocol row) (Service.algorithm row)
                  "***ENCRYPTED***" (Service.lifetime row) st)
            now0 now1 now2 s with
    | Ret h s1 =>
        match d with
        | Some _ =>
            Service.await relinked (fun _ _ =>
            Service.await audited
              (fun _ _ => ret (Service.mkResult true None None))) s1
        | None => Ret (Service.failed (Service.MessageOf TypeError)) s1
        end
    | Throw e s1 => Ret (Service.failed (Service.MessageOf e)) s1
    | Spin => Spin
    end.
Proof.
  unfold Service.updateSAStatus. unfold Service.try_catch, bind at 1.
  rewrite service_lookupSA_found. cbn [Service.success Service.value].
  unfold Service.await at 1. unfold bind at 1.
  change (Service.fields_read _)
    with (mkSA (Service.destination_address row) (Service.spi row)
               (Service.protocol row) (Service.algorithm row)
               "***ENCRYPTED***" (Service.lifetime row) st).
  destruct (recordEvent _ _ _ _ _ _ _ _) as [h s1|e s1|]; [|done..].
  destruct d as [row2|]; [|done].
  by destruct relinked as [d1 e1|m1], audited as [d2 e2|m2].
Qed.

(** The block an event of the service leaves at the end of the
    chain. *)
Lemma recordEvent_block (SHA256 : string -> string)
    fuel this sa now0 now1 now2 s h s' :
  reach SHA256 any_call this s ->
  recordEvent SHA256 fuel this sa now0 now1 now2 s = Ret h s' ->
  exists tip b,
    block_at this s (length (chain_of this s) - 1) = Some tip
    /\ chain_of this s' = chain_of this s ++ [length (blocks s)]
    /\ block_at this s' (length (chain_of this s)) = Some b
    /\ hash b = h
    /\ data b = event_payload SHA256 sa now1 (hash tip).
Proof.
  intros (_ & Hwt & _)%reach_well_typed H.
  destruct (recordEvent_step _ _ _ _ _ _ _ _ _ _ Hwt H)
    as (tip & b & _ & Hc & _ & _ & Hb & Htip & _ & _ & Hd & _ & _ & _ & ->).
  exists tip, b. by split_and!.
Qed.

(** *** X19 *)

(** X19.  [deleteSA] of the service, in a ledger built by the calls of
    [SimpleBlockchain].  Unless the lookup answers with a row it fails
    with ["SA not found"], also when the lookup failed for another
    reason, and leaves the ledger alone; so it does when the deletion
    is answered with an error or rejected.  Otherwise the three ledger
    statements run: they raise nothing, and when they return the call
    returns in the store they left, reporting success exactly when
    the audit request was not rejected.  The block they append
    carries the row's fields with status ["deleted"], and as
    [keyHash] the digest of the placeholder ["***ENCRYPTED***"]: the
    association comes from [lookupSA], which never has the key. *)
Theorem service_deleteSA_records_the_placeholder (SHA256 : string -> string)
    fuel blockchain lk found deleted audited now0 now1 now2 s :
  reach SHA256 any_call blockchain s ->
  ((forall row, found <> Service.Resolved (Some row) None) ->
     Service.deleteSA SHA256 fuel blockchain lk found deleted audited
       now0 now1 now2 s
     = Ret (Service.failed (Service.Text "SA not found")) s)
  /\ (forall row,
        found = Service.Resolved (Some row) None ->
        (forall d, deleted <> Service.Resolved d None) ->
        exists res,
          Service.deleteSA SHA256 fuel blockchain lk found deleted audited
            now0 now1 now2 s
          = Ret res s
          /\ Service.success res = false)
  /\ (forall row d,
        found = Service.Resolved (Some row) None ->
        deleted = Service.Resolved d None ->
        match recordEvent SHA256 fuel blockchain
                (mkSA (Service.destination_address row) (Service.spi row)
                      (Service.protocol row) (Service.algorithm row)
                      "***ENCRYPTED***" (Service.lifetime row) "deleted")
                now0 now1 now2 s with
        | Ret h s1 =>
            (exists res,
               Service.deleteSA SHA256 fuel blockchain lk found deleted
                 audited now0 now1 now2 s
               = Ret res s1
               /\ (Service.success res = true <->
                   forall m, audited <> Service.Rejected m))
            /\ exists tip b,
                 block_at blockchain s (length (chain_of blockchain s) - 1)
                 = Some tip
                 /\ chain_of blockchain s1
                    = chain_of blockchain s ++ [length (blocks s)]
                 /\ block_at blockchain s1 (length (chain_of blockchain s))
                    = Some b
                 /\ hash b = h
                 /\ data b
                    = Json.Obj
                        [ ("destinationAddress",
                           Json.Str (Service.destination_address row));
                          ("spi", Json.Num (Service.spi row));
                          ("protocol", Json.Str (Service.protocol row));
                          ("algorithm", Json.Str (Service.algorithm row));
                          ("keyHash", Json.Str (SHA256 "***ENCRYPTED***"));
                          ("lifetime", Json.Num (Service.lifetime row));
                          ("status", Json.Str "deleted");
                          ("timestamp", Json.Num now1);
                          ("previousHash", Json.Str (hash tip)) ]
        | Spin =>
            Service.deleteSA SHA256 fuel blockchain lk found deleted audited
              now0 now1 now2 s
            = Spin
        | Throw _ _ => False
        end).
Proof.
  intros Hreach. split_and!.
  - intros Hf.
    destruct (service_lookupSA_other lk found s Hf) as (ex & Hex & Hv & _).
    unfold Service.deleteSA. unfold Service.try_catch, bind at 1.
    rewrite Hex, Hv. by destruct (Service.success ex).
  - intros row -> Hd.
    unfold Service.deleteSA. unfold Service.try_catch, bind at 1.
    rewrite service_lookupSA_found. cbn [Service.success Service.value].
    destruct deleted as [d [err|]|m].
    + eexists. split; [reflexivity|done].
    + by destruct (Hd d).
    + eexists. split; [reflexivity|done].
  - intros row d -> ->. rewrite service_deleteSA_deleted.
    pose proof (recordEvent_never_throws SHA256 fuel blockchain
                  (mkSA (Service.destination_address row) (Service.spi row)
                        (Service.protocol row) (Service.algorithm row)
                        "***ENCRYPTED***" (Service.lifetime row) "deleted")
                  now0 now1 now2 s) as Hnt.
    destruct (recordEvent _ _ _ _ _ _ _ _) as [h s1|e s1|] eqn:Hrec.
    + split.
      * destruct audited as [d2 e2|m2].
        -- eexists. split; [reflexivity|]. by split.
        -- eexists. split; [reflexivity|]. cbn. split; [done|].
           intros H. by destruct (H m2).
      * destruct (recordEvent_block _ _ _ _ _ _ _ _ _ _ Hreach Hrec)
          as (tip & b & H1 & H2 & H3 & H4 & H5).
        exists tip, b. by split_and!.
    + by eapply Hnt.
    + reflexivity.
Qed.

(** *** X20 *)

(** X20.  [updateSAStatus] of the service, in a ledger built by the
    calls of [SimpleBlockchain].  Unless the lookup answers with a row
    it fails with ["SA not found"] and leaves the ledger alone; so it
    does when the update is answered with an error or rejected.
    Otherwise the three ledger statements run, raise nothing, and
    when they return the call returns in the store they left: the
    appended block carries the row's fields with the new status and,
    as [keyHash], the digest of the placeholder.  Only then is
    [data.id] read: the call reports success exactly when the update
    was answered with a row and neither of the two last requests was
    rejected, so a failure can be reported for an event the ledger
    has recorded. *)
Theorem service_updateSAStatus_records_before_it_can_fail
    (SHA256 : string -> string)
    fuel blockchain lk st found updated relinked audited now0 now1 now2 s :
  reach SHA256 any_call blockchain s ->
  ((forall row, found <> Service.Resolved (Some row) None) ->
     Service.updateSAStatus SHA256 fuel blockchain lk st found updated
       relinked audited now0 now1 now2 s
     = Ret (Service.failed (Service.Text "SA not found")) s)
  /\ (forall row,
        found = Service.Resolved (Some row) None ->
        (forall d, updated <> Service.Resolved d None) ->
        exists res,
          Service.updateSAStatus SHA256 fuel blockchain lk st found updated
            relinked audited now0 now1 now2 s
          = Ret res s
          /\ Service.success res = false)
  /\ (forall row d,
        found = Service.Resolved (Some row) None ->
        updated = Service.Resolved d None ->
        match recordEvent SHA256 fuel blockchain
                (mkSA (Service.destination_address row) (Service.spi row)
                      (Service.protocol row) (Service.algorithm row)
                      "***ENCRYPTED***" (Service.lifetime row) st)
                now0 now1 now2 s with
        | Ret h s1 =>
            (exists res,
               Service.updateSAStatus SHA256 fuel blockchain lk st found
                 updated relinked audited now0 now1 now2 s
               = Ret res s1
               /\ (Service.success res = true <->
                   (exists row2, d = Some row2)
                   /\ (forall m, relinked <> Service.Rejected m)
                   /\ (forall m, audited <> Service.Rejected m)))
            /\ exists tip b,
                 block_at blockchain s (length (chain_of blockchain s) - 1)
                 = Some tip
                 /\ chain_of blockchain s1
                    = chain_of blockchain s ++ [length (blocks s)]
                 /\ block_at blockchain s1 (length (chain_of blockchain s))
                    = Some b
                 /\ hash b = h
                 /\ data b
                    = Json.Obj
                        [ ("destinationAddress",
                           Json.Str (Service.destination_address row));
                          ("spi", Json.Num (Service.spi row));
                          ("protocol", Json.Str (Service.protocol row));
                          ("algorithm", Json.Str (Service.algorithm row));
                          ("keyHash", Json.Str (SHA256 "***ENCRYPTED***"));
                          ("lifetime", Json.Num (Service.lifetime row));
                          ("status", Json.Str st);
                          ("timestamp", Json.Num now1);
                          ("previousHash", Json.Str (hash tip)) ]
        | Spin =>
            Service.updateSAStatus SHA256 fuel blockchain lk st found updated
              relinked audited now0 now1 now2 s
            = Spin
        | Throw _ _ => False
        end).
Proof.
  intros Hreach. split_and!.
  - intros Hf.
    destruct (service_lookupSA_other lk found s Hf) as (ex & Hex & Hv & _).
    unfold Service.updateSAStatus. unfold Service.try_catch, bind at 1.
    rewrite Hex, Hv. by destruct (Service.success ex).
  - intros row -> Hd.
    unfold Service.updateSAStatus. unfold Service.try_catch, bind at 1.
    rewrite service_lookupSA_found. cbn [Service.success Service.value].
    destruct updated as [d [err|]|m].
    + eexists. split; [reflexivity|done].
    + by destruct (Hd d).
    + eexists. split; [reflexivity|done].
  - intros row d -> ->. rewrite service_updateSAStatus_updated.
    pose proof (recordEvent_never_throws SHA256 fuel blockchain
                  (mkSA (Service.destination_address row) (Service.spi row)
                        (Service.protocol row) (Service.algorithm row)
                        "***ENCRYPTED***" (Service.lifetime row) st)
                  now0 now1 now2 s) as Hnt.
    destruct (recordEvent _ _ _ _ _ _ _ _) as [h s1|e s1|] eqn:Hrec.
    + split.
      * destruct d as [row2|].
        -- destruct relinked as [d1 e1|m1].
           ++ destruct audited as [d2 e2|m2].
              ** eexists. split; [reflexivity|]. cbn. split; [intros _|done].
                 split_and!; [by exists row2|done..].
              ** eexists. split; [reflexivity|]. cbn. split; [done|].
                 intros (_ & _ & H). by destruct (H m2).
           ++ eexists. split; [reflexivity|]. cbn. split; [done|].
              intros (_ & H & _). by destruct (H m1).
        -- eexists. split; [reflexivity|]. cbn. split; [done|].
           by intros ([row2 ?] & _).
      * destruct (recordEvent_block _ _ _ _ _ _ _ _ _ _ Hreach Hrec)
          as (tip & b & H1 & H2 & H3 & H4 & H5).
        exists tip, b. by split_and!.
    + by eapply Hnt.
    + reflexivity.
Qed.

(** *** Concrete runs *)

Lemma db_two_reach : Db.reach Db.two.
Proof.
  apply (Db.reach_exec (Db.AddSA Db.sa_b 2000) Db.one true).
  - apply (Db.reach_exec (Db.AddSA Db.sa_a 1000) Db.empty true).
    + apply Db.reach_empty.
    + vm_compute. reflexivity.
  - vm_compute. reflexivity.
Qed.

Lemma after_one_reach : reach Run.sha any_call Run.ledger Run.after_one.
Proof.
  eapply reach_any.
  apply (recordEvent_reach Run.sha _ Run.fresh 3 Run.sa1
           1700000001042 1700000001042 1700000001042
           "001a9ed4029c131eb63d8b402f13c140546e6fcc46305804c43164606ab9ebb7");
    [apply fresh_reach|vm_compute; reflexivity].
Qed.



Lemma updateSAStatus_writes_in_place_witness :
  Db.reach Db.two
  /\ exists ok db',
       Db.updateSAStatus (Db.mkKey "10.0.0.1" 256) "expired" Db.two
       = Ret ok db'
       /\ Db.sas db' = Db.sas Db.two.
Proof.
  split; [exact db_two_reach|].
  destruct (updateSAStatus_writes_in_place (Db.mkKey "10.0.0.1" 256) "expired"
              Db.two db_two_reach) as (ok & db' & H1 & H2 & _).
  exists ok, db'. split; [exact H1|exact H2].
Defined.

Lemma one_record_per_pair_witness :
  Db.reach Db.two
  /\ forall c, exists ok db', Db.exec c Db.two = Ret ok db'.
Proof.
  split; [exact db_two_reach|].
  exact (proj1 (one_record_per_pair Db.two db_two_reach)).
Defined.

Lemma getStats_counts_witness :
  Db.reach Db.two
  /\ exists st, Db.getStats Db.two = Ret st Db.two
                /\ (Db.active st + Db.expired st + Db.pending st
                    <= Db.total st)%nat.
Proof.
  split; [exact db_two_reach|].
  destruct (getStats_counts Db.two db_two_reach)
    as (st & all & H1 & _ & _ & H2 & _).
  exists st. split; [exact H1|exact H2].
Defined.


Lemma service_deleteSA_records_the_placeholder_witness :
  reach Run.sha any_call Run.ledger Run.after_one
  /\ exists res,
       Service.deleteSA Run.sha 1 Run.ledger (Db.mkKey "10.0.0.1" 256)
         (Service.Resolved (Some Service.row1) None)
         Service.accepted Service.accepted
         1700000003335 1700000003335 1700000003335 Run.after_one
       = Ret res Service.deleted
       /\ (Service.success res = true <->
           forall m, Service.accepted <> Service.Rejected m).
Proof.
  split; [exact after_one_reach|].
  assert (recordEvent Run.sha 1 Run.ledger
            (mkSA (Service.destination_address Service.row1)
                  (Service.spi Service.row1) (Service.protocol Service.row1)
                  (Service.algorithm Service.row1) "***ENCRYPTED***"
                  (Service.lifetime Service.row1) "deleted")
            1700000003335 1700000003335 1700000003335 Run.after_one
          = Ret "004a2eaea9bfd8ef42d1af2a4f596cacff285a2e9cb5d51b62c1078cc5e3b29d"
                Service.deleted) as Hrec by (vm_compute; reflexivity).
  pose proof (proj2 (proj2
    (service_deleteSA_records_the_placeholder Run.sha 1 Run.ledger
       (Db.mkKey "10.0.0.1" 256)
       (Service.Resolved (Some Service.row1) None)
       Service.accepted Service.accepted
       1700000003335 1700000003335 1700000003335 Run.after_one
       after_one_reach))
    Service.row1 None eq_refl eq_refl) as H.
  rewrite Hrec in H.
  exact (proj1 H).
Defined.

Lemma service_updateSAStatus_records_before_it_can_fail_witness :
  reach Run.sha any_call Run.ledger Run.after_one
  /\ exists res,
       Service.updateSAStatus Run.sha 2 Run.ledger (Db.mkKey "10.0.0.1" 256)
         "expired" (Service.Resolved (Some Service.row1) None)
         (Service.Resolved (Some Service.row2) None)
         Service.accepted Service.accepted
         1700000003154 1700000003154 1700000003154 Run.after_one
       = Ret res Service.expired
       /\ (Service.success res = true <->
           (exists row2, Some Service.row2 = Some row2)
           /\ (forall m, Service.accepted <> Service.Rejected m)
           /\ (forall m, Service.accepted <> Service.Rejected m)).
Proof.
  split; [exact after_one_reach|].
  assert (recordEvent Run.sha 2 Run.ledger
            (mkSA (Service.destination_address Service.row1)
                  (Service.spi Service.row1) (Service.protocol Service.row1)
                  (Service.algorithm Service.row1) "***ENCRYPTED***"
                  (Service.lifetime Service.row1) "expired")
            1700000003154 1700000003154 1700000003154 Run.after_one
          = Ret "00177159534f8443575b5e8cdfba33f8622c0c0f968be969686b41e62fb93e8b"
                Service.expired) as Hrec by (vm_compute; reflexivity).
  pose proof (proj2 (proj2
    (service_updateSAStatus_records_before_it_can_fail Run.sha 2 Run.ledger
       (Db.mkKey "10.0.0.1" 256) "expired"
       (Service.Resolved (Some Service.row1) None)
       (Service.Resolved (Some Service.row2) None)
       Service.accepted Service.accepted
       1700000003154 1700000003154 1700000003154 Run.after_one
       after_one_reach))
    Service.row1 (Some Service.row2) eq_refl eq_refl) as H.
  rewrite Hrec in H.
  exact (proj1 H).
Defined.

(* ===================================================================== *)
(** ** The table of associations *)
(* ===================================================================== *)

(** *** X21 *)

(** X21.  [formatLifetime] shows one number and one unit, for a whole
    number of seconds of absolute value at most 2^53.  Below a minute
    it is the number of seconds itself (also a negative one); from a
    minute on it is the number of whole minutes, between 1 and 59, and
    from an hour on the number of whole hours, at least 1: the rest is
    dropped, never rounded up, so what is shown is at most the
    lifetime and less than one unit below it. *)
Theorem formatLifetime_rounds_down (seconds : Z) :
  - 9007199254740992 <= seconds <= 9007199254740992 ->
  exists n suffix,
    Table.formatLifetime seconds = pretty n +:+ suffix
    /\ ((suffix = "s" /\ seconds < 60 /\ n = seconds)
        \/ (suffix = "m" /\ 1 <= n <= 59
            /\ 60 * n <= seconds < 60 * (n + 1))
        \/ (suffix = "h" /\ 1 <= n
            /\ 3600 * n <= seconds < 3600 * (n + 1))).
Proof.
  intros _. unfold Table.formatLifetime.
  destruct (Z.ltb_spec seconds 60) as [H1|H1].
  - exists seconds, "s". split; [done|]. left. done.
  - destruct (Z.ltb_spec seconds 3600) as [H2|H2].
    + exists (seconds / 60), "m". split; [done|]. right. left.
      pose proof (Z.div_mod seconds 60 ltac:(lia)) as Hd.
      pose proof (Z.mod_pos_bound seconds 60 ltac:(lia)) as Hm.
      split; [done|]. lia.
    + exists (seconds / 3600), "h". split; [done|]. right. right.
      pose proof (Z.div_mod seconds 3600 ltac:(lia)) as Hd.
      pose proof (Z.mod_pos_bound seconds 3600 ltac:(lia)) as Hm.
      split; [done|]. lia.
Qed.

Lemma formatLifetime_rounds_down_witness :
  exists n suffix,
    Table.formatLifetime 7199 = pretty n +:+ suffix
    /\ ((suffix = "s" /\ 7199 < 60 /\ n = 7199)
        \/ (suffix = "m" /\ 1 <= n <= 59
            /\ 60 * n <= 7199 < 60 * (n + 1))
        \/ (suffix = "h" /\ 1 <= n
            /\ 3600 * n <= 7199 < 3600 * (n + 1))).
Proof. apply (formatLifetime_rounds_down 7199). lia. Defined.
